(** * Agent orchestrator control plane: a shallow embedding and its properties

    The development follows the repository's services one module at a time:

    - [Format]           packages/web/src/lib/format.ts  ([humanizeBranch])
    - [ConfigService]    docs/REFACTORING_PLAN.md, section 1
    - [Cache]            packages/web/src/lib/cache.ts  ([TTLCache], [prCacheKey])
    - [PortManager]      docs/REFACTORING_PLAN.md, section 2
    - [ProcessManager]   docs/REFACTORING_PLAN.md, section 5
    - [DashboardManager] docs/REFACTORING_PLAN.md, section 3
    - [MetadataService]  docs/REFACTORING_PLAN.md, section 4
    - [Enrichment]       the fan-out policy of [enrichSessionPR]

    JavaScript numbers that hold timestamps, ports and counters are integers
    well inside the exactly representable range of a double, so they are
    modelled by [Z]; maps and sets are stdpp's [gmap] and [gset]. *)

From Stdlib Require Import ZArith QArith Lia List Ascii String.
From stdpp Require Import gmap strings list fin_maps pretty.

Local Open Scope Z_scope.

(* ===================================================================== *)
(** ** Control flow shared by the services: results, exceptions, effects *)
(* ===================================================================== *)

Module Js.

(** The completion of a call: a normal return or a thrown [Error] (for an
    [async] function: a fulfilled or a rejected promise). *)
Inductive Outcome (A : Type) : Type :=
| Return (a : A)
| Throw (message : string).
Arguments Return {A} a.
Arguments Throw {A} message.

(** Computations that read and update a state [S] and may throw. *)
Definition M (S A : Type) : Type := S → Outcome A * S.

Definition ret {S A} (a : A) : M S A := fun s => (Return a, s).
Definition throw {S A} (message : string) : M S A := fun s => (Throw message, s).
Definition bind {S A B} (c : M S A) (k : A → M S B) : M S B :=
  fun s => match c s with
           | (Return a, s') => k a s'
           | (Throw e, s') => (Throw e, s')
           end.
Definition gets {S A} (f : S → A) : M S A := fun s => (Return (f s), s).
Definition modify {S} (f : S → S) : M S unit := fun s => (Return tt, f s).

(** [try { body } catch { handler }] *)
Definition tryCatch {S A} (body : M S A) (handler : string → M S A) : M S A :=
  fun s => match body s with
           | (Return a, s') => (Return a, s')
           | (Throw e, s') => handler e s'
           end.

(** [try { body } finally { cleanup }], for a cleanup that does not throw. *)
Definition tryFinally {S A} (body : M S A) (cleanup : S → S) : M S A :=
  fun s => let '(o, s') := body s in (o, cleanup s').

Module Notations.
Notation "'let*' x ':=' c1 'in' c2" := (bind c1 (fun x => c2))
  (at level 10, x name, c1 at level 100, c2 at level 200).
Notation "c1 ;; c2" := (bind c1 (fun _ => c2))
  (at level 100, c2 at level 200, right associativity).
End Notations.

(** The second argument of [process.kill]: a signal name, or 0 to test for
    the existence of the process. *)
Inductive Signal : Type :=
| SIGTERM
| SIGKILL
| SignalNamed (name : string)
| Signal0.

(** What a service does to the outside world, in order. [ProcessKill] is
    [process.kill(pid, signal)] with the clock reading and whether the call
    returned ([false]: it threw); [ShellExec] is [exec(command, args)]. *)
Inductive Event : Type :=
| ProcessKill (pid : Z) (now : Z) (signal : Signal) (delivered : bool)
| ShellExec (command : string) (args : list string)
| ConsoleLog (line : string).

#[global] Instance Signal_eq_dec : EqDecision Signal.
Proof. solve_decision. Defined.
#[global] Instance Event_eq_dec : EqDecision Event.
Proof. solve_decision. Defined.

(** [String.prototype.trim] on a string of code units below 256, as the
    output of a command is: the white space and line terminators among
    them are U+0009 to U+000D, U+0020 and U+00A0. *)
Definition isWhiteSpace (c : ascii) : bool :=
  match nat_of_ascii c with
  | 9%nat | 10%nat | 11%nat | 12%nat | 13%nat | 32%nat | 160%nat => true
  | _ => false
  end.

Fixpoint trimStart (s : string) : string :=
  match s with
  | EmptyString => EmptyString
  | String c rest => if isWhiteSpace c then trimStart rest else s
  end.

Fixpoint trimEnd (s : string) : string :=
  match s with
  | EmptyString => EmptyString
  | String c rest =>
      match trimEnd rest with
      | EmptyString => if isWhiteSpace c then EmptyString else String c EmptyString
      | kept => String c kept
      end
  end.

Definition trim (s : string) : string := trimEnd (trimStart s).

(** [s.split(sep)] for a one-character separator. *)
Fixpoint split (sep : ascii) (s : string) : list string :=
  match s with
  | EmptyString => [EmptyString]
  | String c rest =>
      if Ascii.eqb c sep then EmptyString :: split sep rest
      else match split sep rest with
           | piece :: pieces => String c piece :: pieces
           | [] => [String c EmptyString]
           end
  end.

(** [s.includes(c)] for one character. *)
Fixpoint occursIn (c : ascii) (s : string) : bool :=
  match s with
  | EmptyString => false
  | String c' rest => Ascii.eqb c' c || occursIn c rest
  end.

(** [[...new Set(xs)]]: the distinct elements in order of first occurrence. *)
Definition setOf (xs : list string) : list string :=
  fold_left (fun seen x => if decide (x ∈ seen) then seen else seen ++ [x]) xs [].

End Js.

(* ===================================================================== *)
(** ** Branch titles (packages/web/src/lib/format.ts) *)
(* ===================================================================== *)

Module Format.

(** A JavaScript string is the sequence of its UTF-16 code units. *)
Definition CodeUnit : Type := N.

(** The code units of a string of ASCII characters. *)
Definition codeUnits (s : string) : list CodeUnit :=
  N_of_ascii <$> list_ascii_of_string s.

(** The alternatives of the prefix pattern, in its order. *)
Definition prefixes : list string :=
  ["feat"; "fix"; "chore"; "refactor"; "docs"; "test"; "ci"; "session"; "release";
   "hotfix"; "feature"; "bugfix"; "build"; "wip"; "improvement"]%string.

(** What is left of [s] after the prefix [p], if [s.startsWith(p)]. *)
Fixpoint dropPrefix (p s : list CodeUnit) : option (list CodeUnit) :=
  match p, s with
  | [], _ => Some s
  | a :: p', b :: s' => if (a =? b)%N then dropPrefix p' s' else None
  | _ :: _, [] => None
  end.

(** [branch.replace(/^(?:feat|fix|...)\//, "")]: the first alternative that
    is followed by a slash at the start of the branch is cut off with its
    slash. *)
Fixpoint withoutPrefixFrom (alternatives : list string) (branch : list CodeUnit)
    : list CodeUnit :=
  match alternatives with
  | [] => branch
  | p :: others =>
      match dropPrefix (codeUnits p ++ codeUnits "/") branch with
      | Some rest => rest
      | None => withoutPrefixFrom others branch
      end
  end.

Definition withoutPrefix (branch : list CodeUnit) : list CodeUnit :=
  withoutPrefixFrom prefixes branch.

Definition hyphen : CodeUnit := 45%N.
Definition underscore : CodeUnit := 95%N.
Definition space : CodeUnit := 32%N.

(** Hyphen and underscore, the class [[-_]]. *)
Definition isSeparator (c : CodeUnit) : bool := ((c =? hyphen) || (c =? underscore))%N.

(** [.replace(/[-_]/g, " ")] *)
Definition replaceSeparators (s : list CodeUnit) : list CodeUnit :=
  (fun c => if isSeparator c then space else c) <$> s.

Definition isLowerCase (c : CodeUnit) : bool := ((97 <=? c) && (c <=? 122))%N.
Definition isUpperCase (c : CodeUnit) : bool := ((65 <=? c) && (c <=? 90))%N.
Definition isDecimalDigit (c : CodeUnit) : bool := ((48 <=? c) && (c <=? 57))%N.

(** The class [\w] of a pattern without flags: [A-Za-z0-9_]. *)
Definition isWordChar (c : CodeUnit) : bool :=
  (isLowerCase c || isUpperCase c || isDecimalDigit c || (c =? underscore))%N.

(** [c.toUpperCase()] for a character of [\w]. *)
Definition toUpperCase (c : CodeUnit) : CodeUnit :=
  if isLowerCase c then (c - 32)%N else c.

(** [.replace(/\b\w/g, (c) => c.toUpperCase())]: a word character is
    replaced when no word character stands before it; [afterWord] tells
    whether one does. *)
Fixpoint titleCaseFrom (afterWord : bool) (s : list CodeUnit) : list CodeUnit :=
  match s with
  | [] => []
  | c :: rest =>
      (if isWordChar c && negb afterWord then toUpperCase c else c)
        :: titleCaseFrom (isWordChar c) rest
  end.

Definition titleCase (s : list CodeUnit) : list CodeUnit := titleCaseFrom false s.

(** The white space and line terminators that [String.prototype.trim]
    strips: U+0009 to U+000D, U+0020, U+00A0, U+1680, U+2000 to U+200A,
    U+2028, U+2029, U+202F, U+205F, U+3000 and U+FEFF. *)
Definition isWhiteSpace (c : CodeUnit) : bool :=
  ((9 <=? c) && (c <=? 13)
   || (c =? 32) || (c =? 160) || (c =? 5760)
   || (8192 <=? c) && (c <=? 8202)
   || (c =? 8232) || (c =? 8233) || (c =? 8239) || (c =? 8287)
   || (c =? 12288) || (c =? 65279))%N.

Fixpoint trimStart (s : list CodeUnit) : list CodeUnit :=
  match s with
  | [] => []
  | c :: rest => if isWhiteSpace c then trimStart rest else s
  end.

Fixpoint trimEnd (s : list CodeUnit) : list CodeUnit :=
  match s with
  | [] => []
  | c :: rest =>
      match trimEnd rest with
      | [] => if isWhiteSpace c then [] else [c]
      | kept => c :: kept
      end
  end.

(** [s.trim()] *)
Definition trim (s : list CodeUnit) : list CodeUnit := trimEnd (trimStart s).

(** [humanizeBranch(branch)] *)
Definition humanizeBranch (branch : list CodeUnit) : list CodeUnit :=
  trim (titleCase (replaceSeparators (withoutPrefix branch))).

End Format.

(* ===================================================================== *)
(** ** ConfigService (docs/REFACTORING_PLAN.md, section 1) *)
(* ===================================================================== *)

Module ConfigService.
Import Js Js.Notations.

Section Config.
(** [OrchestratorConfig] of package ao-core, an object. *)
Variable OrchestratorConfig : Type.

(** What the two functions of ao-core give at the time of a call:
    [findConfigFile()] a path or [null], [loadConfig()] a config or an
    exception. *)
Record Host : Type := mkHost {
  findConfigFile : option string;
  loadConfig : Outcome OrchestratorConfig
}.

(** The calls made of ao-core. *)
Inductive Access : Type :=
| FindConfigFile
| LoadConfig.

(** The two private fields of an instance; [None] is [undefined]. *)
Record Instance : Type := mkInstance {
  config : option OrchestratorConfig;
  configPath : option string
}.

(** The class with its static field [instance], and the calls of ao-core
    made so far. *)
Record State : Type := mkState {
  instance : option Instance;
  accesses : list Access
}.

Definition initial : State := {| instance := None; accesses := [] |}.

(** [new ConfigService()] *)
Definition new : Instance := {| config := None; configPath := None |}.

(** [ConfigService.getInstance()] *)
Definition getInstance (s : State) : Instance * State :=
  match instance s with
  | Some this => (this, s)
  | None => (new, {| instance := Some new; accesses := accesses s |})
  end.

(** A method runs on [this] and the log of accesses. *)
Definition access (a : Access) : M (Instance * list Access) unit :=
  modify (fun '(this, log) => (this, log ++ [a])).

(** [getConfig()] *)
Definition getConfig (host : Host) : M (Instance * list Access) OrchestratorConfig :=
  let* loaded := gets (fun '(this, _) => config this) in
  match loaded with
  | Some c => ret c
  | None =>
      access FindConfigFile ;;
      modify (fun '(this, log) =>
                ({| config := config this; configPath := findConfigFile host |}, log)) ;;
      access LoadConfig ;;
      match loadConfig host with
      | Throw e => throw e
      | Return c =>
          modify (fun '(this, log) =>
                    ({| config := Some c; configPath := configPath this |}, log)) ;;
          ret c
      end
  end.

(** [getConfigPath()] *)
Definition getConfigPath (host : Host) : M (Instance * list Access) (option string) :=
  getConfig host ;;
  gets (fun '(this, _) => configPath this).

(** [reload()] *)
Definition reload : M (Instance * list Access) unit :=
  modify (fun '(this, log) => ({| config := None; configPath := None |}, log)).

(** Calls as the commands make them, [ConfigService.getInstance().m()], one
    after the other, each with the file system of its moment. *)
Inductive Call : Type :=
| GetConfig
| GetConfigPath
| Reload.

Inductive Result : Type :=
| Config (c : OrchestratorConfig)
| Path (path : option string)
| Done.

Definition onInstance {A} (method : M (Instance * list Access) A) (wrap : A → Result)
    (s : State) : Outcome Result * State :=
  let '(this, s1) := getInstance s in
  let '(outcome, (this', log)) := method (this, accesses s1) in
  (match outcome with
   | Return a => Return (wrap a)
   | Throw e => Throw e
   end,
   {| instance := Some this'; accesses := log |}).

Definition perform (call : Call) (host : Host) : State → Outcome Result * State :=
  match call with
  | GetConfig => onInstance (getConfig host) Config
  | GetConfigPath => onInstance (getConfigPath host) Path
  | Reload => onInstance reload (fun _ => Done)
  end.

Fixpoint performAll (calls : list (Call * Host)) (s : State)
    : list (Outcome Result) * State :=
  match calls with
  | [] => ([], s)
  | (call, host) :: rest =>
      let '(outcome, s1) := perform call host s in
      let '(outcomes, s2) := performAll rest s1 in
      (outcome :: outcomes, s2)
  end.

Definition isReload (call : Call) : bool :=
  match call with
  | Reload => true
  | _ => false
  end.

(** The config is not loaded: no instance yet, or one without a config. *)
Definition unloaded (s : State) : bool :=
  match instance s with
  | Some this => match config this with Some _ => false | None => true end
  | None => true
  end.

(** The answer of a reading call when the config is [c], found at [path]. *)
Definition answer (c : OrchestratorConfig) (path : option string) (call : Call)
    : Outcome Result :=
  match call with
  | GetConfig => Return (Config c)
  | GetConfigPath => Return (Path path)
  | Reload => Return Done
  end.

End Config.

Arguments mkHost {OrchestratorConfig} findConfigFile loadConfig.
Arguments findConfigFile {OrchestratorConfig} h.
Arguments loadConfig {OrchestratorConfig} h.
Arguments mkInstance {OrchestratorConfig} config configPath.
Arguments config {OrchestratorConfig} i.
Arguments configPath {OrchestratorConfig} i.
Arguments mkState {OrchestratorConfig} instance accesses.
Arguments instance {OrchestratorConfig} s.
Arguments accesses {OrchestratorConfig} s.
Arguments initial {OrchestratorConfig}.
Arguments new {OrchestratorConfig}.
Arguments getInstance {OrchestratorConfig} s.
Arguments getConfig {OrchestratorConfig} host.
Arguments getConfigPath {OrchestratorConfig} host.
Arguments reload {OrchestratorConfig}.
Arguments Config {OrchestratorConfig} c.
Arguments Path {OrchestratorConfig} path.
Arguments Done {OrchestratorConfig}.
Arguments onInstance {OrchestratorConfig A} method wrap s.
Arguments perform {OrchestratorConfig} call host.
Arguments performAll {OrchestratorConfig} calls s.
Arguments unloaded {OrchestratorConfig} s.
Arguments answer {OrchestratorConfig} c path call.

End ConfigService.

(* ===================================================================== *)
(** ** TTLCache (packages/web/src/lib/cache.ts) *)
(* ===================================================================== *)

Module Cache.

Section TTLCache.
Context {T : Type}.

(** [interface CacheEntry<T>] *)
Record CacheEntry : Type := mkEntry {
  value : T;
  cachedAt : Z;
  expiresAt : Z
}.

(** [interface CachedValue<T>]; the first, second and fourth fields are
    [value], [cachedAt] and [ttlMs] in the source. *)
Record CachedValue : Type := mkCached {
  cv_value : T;
  cv_cachedAt : Z;
  ageMs : Z;
  cv_ttlMs : Z;
  stale : bool
}.

(** The two data fields of [class TTLCache<T>]. The clean-up interval only
    schedules [evictExpired]; it is modelled by that operation being
    applicable at any time. *)
Record TTLCache : Type := mkCache {
  cache : gmap string CacheEntry;
  ttlMs : Z
}.

Definition DEFAULT_TTL_MS : Z := 60000.

(** [new TTLCache(ttlMs)] *)
Definition new (ttl : Z) : TTLCache := {| cache := ∅; ttlMs := ttl |}.

(** [ageMs > this.ttlMs * 0.75], computed over the rationals: for integer
    operands of this size the double product is exact. *)
Definition isStale (age ttl : Z) : bool :=
  negb (Qle_bool (inject_Z age) (inject_Z ttl * (75 # 100))).

(** [getWithMetadata(key)]; [now] is the value of [Date.now()]. The result
    pairs the returned value ([None] for [null]) with the cache afterwards. *)
Definition getWithMetadata (now : Z) (key : string) (c : TTLCache)
  : option CachedValue * TTLCache :=
  match cache c !! key with
  | None => (None, c)
  | Some entry =>
      if expiresAt entry <? now
      then (None, {| cache := delete key (cache c); ttlMs := ttlMs c |})
      else
        let ageMs := now - cachedAt entry in
        let stale := isStale ageMs (ttlMs c) in
        (Some {| cv_value := value entry;
                 cv_cachedAt := cachedAt entry;
                 ageMs := ageMs;
                 cv_ttlMs := ttlMs c;
                 stale := stale |}, c)
  end.

(** [get(key)] *)
Definition get (now : Z) (key : string) (c : TTLCache) : option T * TTLCache :=
  let '(cached, c') := getWithMetadata now key c in
  (match cached with Some cv => Some (cv_value cv) | None => None end, c').

(** [set(key, value)] *)
Definition set (now : Z) (key : string) (v : T) (c : TTLCache) : TTLCache :=
  {| cache := <[key := {| value := v; cachedAt := now; expiresAt := now + ttlMs c |}]>
               (cache c);
     ttlMs := ttlMs c |}.

(** [evictExpired()]: every entry with [now > entry.expiresAt] is deleted. *)
Definition evictExpired (now : Z) (c : TTLCache) : TTLCache :=
  {| cache := filter (fun kv => ¬ (expiresAt (snd kv) < now)) (cache c);
     ttlMs := ttlMs c |}.

(** [clear()] *)
Definition clear (c : TTLCache) : TTLCache := {| cache := ∅; ttlMs := ttlMs c |}.

(** [size()] *)
Definition size (c : TTLCache) : nat := base.size (cache c).

(** The number of keys for which [get] answers with a value at time [now]. *)
Definition liveKeys (now : Z) (c : TTLCache) : nat :=
  length (List.filter (fun k => bool_decide (is_Some (fst (get now k c))))
                      (elements (dom (cache c)))).

(** The number of stored entries that are expired at time [now]. *)
Definition expiredKeys (now : Z) (c : TTLCache) : nat :=
  length (List.filter (fun k => match cache c !! k with
                                | Some entry => expiresAt entry <? now
                                | None => false
                                end)
                      (elements (dom (cache c)))).

(** A sequence of calls on a cache, each with the clock reading it sees. *)
Inductive Call : Type :=
| CallSet (now : Z) (key : string) (v : T)
| CallGet (now : Z) (key : string)
| CallGetWithMetadata (now : Z) (key : string)
| CallEvictExpired (now : Z)
| CallClear.

Definition perform (c : TTLCache) (call : Call) : TTLCache :=
  match call with
  | CallSet now key v => set now key v c
  | CallGet now key => snd (get now key c)
  | CallGetWithMetadata now key => snd (getWithMetadata now key c)
  | CallEvictExpired now => evictExpired now c
  | CallClear => clear c
  end.

Definition performAll (calls : list Call) (c : TTLCache) : TTLCache :=
  fold_left perform calls c.

(** Every stored entry expires exactly one TTL after it was cached. *)
Definition entriesExpireAfterTtl (c : TTLCache) : Prop :=
  ∀ k e, cache c !! k = Some e → expiresAt e = cachedAt e + ttlMs c.

End TTLCache.

Arguments CacheEntry : clear implicits.
Arguments CachedValue : clear implicits.
Arguments TTLCache : clear implicits.
Arguments Call : clear implicits.

(** [prCacheKey(owner, repo, number)]: the key [owner/repo#number]. *)
Definition prCacheKey (owner repo : string) (number : Z) : string :=
  owner +:+ "/" +:+ repo +:+ "#" +:+ pretty number.

End Cache.

(* ===================================================================== *)
(** ** PortManager (docs/REFACTORING_PLAN.md, section 2) *)
(* ===================================================================== *)

Module PortManager.
Import Js Js.Notations.

(** [private allocatedPorts: Set<number>] is the state of every method.
    [isPortAvailable] (lib/port.js) is the operating-system probe; a call
    sees the answers the system gives while it runs. *)
Definition State : Type := gset Z.

Definition defaultMaxAttempts : Z := 10.

(** The [for] loop of [findNextAvailable] from [offset] on, with
    [iterations] rounds to go; [None] when the loop runs out. *)
Fixpoint scanFrom (isPortAvailable : Z → bool) (preferred offset : Z)
    (iterations : nat) : M State (option Z) :=
  match iterations with
  | O => ret None
  | S rest =>
      let port := preferred + offset in
      let* claimed := gets (fun allocatedPorts => bool_decide (port ∈ allocatedPorts)) in
      if (claimed : bool) then scanFrom isPortAvailable preferred (offset + 1) rest
      else if isPortAvailable port
           then (modify (fun allocatedPorts => {[port]} ∪ allocatedPorts) ;; ret (Some port))
           else scanFrom isPortAvailable preferred (offset + 1) rest
  end.

Definition noPortMessage (preferred maxAttempts : Z) : string :=
  "Could not find available port near " +:+ pretty preferred
    +:+ " after " +:+ pretty maxAttempts +:+ " attempts".

(** [findNextAvailable(preferred, maxAttempts = 10)], run through with no
    other call on the instance running between its suspensions. *)
Definition findNextAvailable (isPortAvailable : Z → bool) (preferred : Z)
    (maxAttempts : Z) : M State Z :=
  let* found := scanFrom isPortAvailable preferred 0 (Z.to_nat maxAttempts) in
  match found with
  | Some port => ret port
  | None => throw (noPortMessage preferred maxAttempts)
  end.

Record ServicePorts : Type := mkServicePorts {
  dashboard : Z;
  terminalWs : Z;
  directTerminalWs : Z
}.

(** [allocateServicePorts(preferredDashboardPort)] *)
Definition allocateServicePorts (isPortAvailable : Z → bool)
    (preferredDashboardPort : Z) : M State ServicePorts :=
  let* d := findNextAvailable isPortAvailable preferredDashboardPort defaultMaxAttempts in
  let* t := findNextAvailable isPortAvailable 3001 defaultMaxAttempts in
  let* w := findNextAvailable isPortAvailable 3003 defaultMaxAttempts in
  ret {| dashboard := d; terminalWs := t; directTerminalWs := w |}.

(** [release(port)] and [releaseAll()] *)
Definition release (port : Z) : M State unit :=
  modify (fun allocatedPorts => allocatedPorts ∖ {[port]}).
Definition releaseAll : M State unit := modify (fun _ => ∅).

(** *** Calls that overlap

    [findNextAvailable] is [async]. At [await isPortAvailable(port)] the
    call is suspended, having found the candidate unclaimed, and other
    calls made on the instance run before it goes on to claim the port. *)

(** Where a call of [findNextAvailable] stands: suspended at the probe of
    [preferred + offset], with [rounds] more rounds of the loop to go after
    this one, or settled. *)
Inductive Progress : Type :=
| AwaitingProbe (offset : Z) (rounds : nat)
| Returned (port : Z)
| Threw (message : string).

(** A call with the answers the probe gives it. *)
Record Task : Type := mkTask {
  probe : Z → bool;
  preferred : Z;
  maxAttempts : Z;
  progress : Progress
}.

(** An instance: its set of claimed ports and the calls made on it. *)
Record Instance : Type := mkInstance {
  allocatedPorts : State;
  calls : list Task
}.

(** The [for] loop from [offset] on, up to the next probe: candidates found
    in [allocatedPorts] are passed over without suspension. *)
Fixpoint scanToProbe (preferred maxAttempts offset : Z) (rounds : nat)
    (claimed : State) : Progress :=
  match rounds with
  | O => Threw (noPortMessage preferred maxAttempts)
  | S rest =>
      if bool_decide (preferred + offset ∈ claimed)
      then scanToProbe preferred maxAttempts (offset + 1) rest claimed
      else AwaitingProbe offset rest
  end.

(** A call [findNextAvailable(preferred, maxAttempts)] up to its first
    suspension. *)
Definition begin (answers : Z → bool) (preferred maxAttempts : Z) (s : Instance)
    : Instance :=
  {| allocatedPorts := allocatedPorts s;
     calls := calls s
                ++ [{| probe := answers; preferred := preferred; maxAttempts := maxAttempts;
                       progress := scanToProbe preferred maxAttempts 0
                                     (Z.to_nat maxAttempts) (allocatedPorts s) |}] |}.

Definition setProgress (t : Task) (p : Progress) : Task :=
  {| probe := probe t; preferred := preferred t; maxAttempts := maxAttempts t;
     progress := p |}.

(** The event loop resumes call [i] with the answer of the probe: the call
    claims the port and returns it, or goes round the loop to its next
    suspension. The set is not looked at again before the port is added. *)
Definition resume (i : nat) (s : Instance) : Instance :=
  match calls s !! i with
  | None => s
  | Some t =>
      match progress t with
      | AwaitingProbe offset rounds =>
          let port := preferred t + offset in
          if probe t port
          then {| allocatedPorts := {[port]} ∪ allocatedPorts s;
                  calls := <[i := setProgress t (Returned port)]> (calls s) |}
          else {| allocatedPorts := allocatedPorts s;
                  calls := <[i := setProgress t
                                    (scanToProbe (preferred t) (maxAttempts t) (offset + 1)
                                       rounds (allocatedPorts s))]> (calls s) |}
      | _ => s
      end
  end.

(** What happens on an instance, in order: a call of [findNextAvailable]
    begins (with the default budget), the event loop resumes a suspended
    call, a port is released, all are. *)
Inductive Action : Type :=
| Begin (answers : Z → bool) (preferred : Z)
| Resume (call : nat)
| Release (port : Z)
| ReleaseAll.

Definition act (a : Action) (s : Instance) : Instance :=
  match a with
  | Begin answers preferred => begin answers preferred defaultMaxAttempts s
  | Resume i => resume i s
  | Release port =>
      {| allocatedPorts := snd (release port (allocatedPorts s)); calls := calls s |}
  | ReleaseAll =>
      {| allocatedPorts := snd (releaseAll (allocatedPorts s)); calls := calls s |}
  end.

Definition run (actions : list Action) (s : Instance) : Instance :=
  fold_left (fun s a => act a s) actions s.

Definition releases (port : Z) (a : Action) : bool :=
  match a with
  | Release p => bool_decide (p = port)
  | ReleaseAll => true
  | _ => false
  end.

Definition progressOf (i : nat) (s : Instance) : option Progress :=
  progress <$> calls s !! i.

(** A call that is awaited, nothing else being done on the instance until
    it has settled: it is resumed once for each probe it makes. *)
Fixpoint resumeUntilSettled (resumptions : nat) (i : nat) (s : Instance) : Instance :=
  match resumptions with
  | O => s
  | S rest => resumeUntilSettled rest i (resume i s)
  end.

Definition await (answers : Z → bool) (preferred : Z) (s : Instance) : Instance :=
  resumeUntilSettled (Z.to_nat defaultMaxAttempts) (length (calls s))
                     (begin answers preferred defaultMaxAttempts s).

(** Calls made one after the other, each awaited before the next is made. *)
Fixpoint awaitAll (s : Instance) (requests : list ((Z → bool) * Z)) : Instance :=
  match requests with
  | [] => s
  | (answers, preferred) :: rest => awaitAll (await answers preferred s) rest
  end.

(** The ports that the calls [ts] have returned. *)
Definition returnedPorts (ts : list Task) : list Z :=
  omap (fun t => match progress t with
                 | Returned port => Some port
                 | _ => None
                 end) ts.

End PortManager.

(* ===================================================================== *)
(** ** ProcessManager (docs/REFACTORING_PLAN.md, section 5) *)
(* ===================================================================== *)

Module ProcessManager.
Import Js Js.Notations.

(** The process behind a pid as the operating system presents it while
    [kill] runs: [goneAt = Some t] when no such process exists from clock
    reading [t] on, [None] when it outlives the graceful phase.
    [refusal signal] is the error that [process.kill(pid, signal)] throws
    although the process is there, if it throws one: EPERM when this
    process is not allowed to signal that one, ERR_UNKNOWN_SIGNAL for a
    signal name Node does not know. *)
Record Process : Type := mkProcess {
  pid : Z;
  goneAt : option Z;
  refusal : Signal → option string
}.

Definition alive (p : Process) (now : Z) : bool :=
  match goneAt p with
  | None => true
  | Some t => now <? t
  end.

(** Whether [process.kill(pid, signal)] called at [now] returns rather than
    throws. *)
Definition delivers (p : Process) (signal : Signal) (now : Z) : bool :=
  alive p now && match refusal p signal with
                 | None => true
                 | Some _ => false
                 end.

(** The clock in milliseconds and what has been done so far. A timer
    callback is taken to run at the clock reading it is due at. *)
Record World : Type := mkWorld {
  clock : Z;
  trace : list Event
}.

Definition emit (e : Event) : M World unit :=
  modify (fun w => {| clock := clock w; trace := trace w ++ [e] |}).

Definition consoleLog (line : string) : M World unit := emit (ConsoleLog line).

(** Suspension until a timer set for clock reading [t] fires. *)
Definition resumeAt (t : Z) : M World unit :=
  modify (fun w => {| clock := t; trace := trace w |}).

(** [process.kill(pid, signal)]: throws when there is no such process
    (ESRCH) and when the process is there but the call is refused. *)
Definition processKill (p : Process) (signal : Signal) : M World unit :=
  let* now := gets clock in
  if alive p now
  then match refusal p signal with
       | None => emit (ProcessKill (pid p) now signal true)
       | Some error => (emit (ProcessKill (pid p) now signal false) ;; throw error)
       end
  else (emit (ProcessKill (pid p) now signal false) ;; throw "kill ESRCH").

Definition pollIntervalMs : Z := 100.
Definition gracefulTimeoutMs : Z := 5000.

(** The largest delay a Node timer takes as it is, [2^31 - 1]. *)
Definition maxTimerDelay : Z := 2147483647.

Section Timers.
(** Which of two timer callbacks due at the same millisecond runs first
    is decided by the timer lists of the host process; both orders are
    covered. *)
Variable pollWinsTie : bool.

(** The delay [setTimeout(callback, timeout)] works with: Node sets a
    delay below 1 or above [2^31 - 1] to 1. *)
Definition deadlineAfter (timeout : Z) : Z :=
  if (1 <=? timeout) && (timeout <=? maxTimerDelay) then timeout else 1.

(** The number of [setInterval] callbacks that run before the
    [setTimeout] callback rejects. *)
Definition pollsBeforeDeadline (timeout : Z) : nat :=
  Z.to_nat (if pollWinsTie
            then deadlineAfter timeout / pollIntervalMs
            else (deadlineAfter timeout - 1) / pollIntervalMs).

Definition timeoutMessage (p : Process) (timeout : Z) : string :=
  "Process " +:+ pretty (pid p) +:+ " did not exit within " +:+ pretty timeout +:+ "ms".

(** The promise of [waitForExit] from the [i]-th interval callback on:
    each callback probes with signal 0 and resolves when the probe
    throws; when [polls] callbacks have seen the probe return, the
    timer callback rejects. (The rejection leaves the interval running;
    its later probes come after [kill] has moved on and play no part in
    it.) *)
Fixpoint pollFrom (p : Process) (start timeout : Z) (i : Z) (polls : nat)
    : M World unit :=
  match polls with
  | O =>
      resumeAt (start + deadlineAfter timeout) ;;
      throw (timeoutMessage p timeout)
  | S rest =>
      resumeAt (start + pollIntervalMs * i) ;;
      let* dead := tryCatch (processKill p Signal0 ;; ret false)
                            (fun _ => ret true) in
      if (dead : bool) then ret tt
      else pollFrom p start timeout (i + 1) rest
  end.

(** [waitForExit(pid, timeout)] *)
Definition waitForExit (p : Process) (timeout : Z) : M World unit :=
  let* start := gets clock in
  pollFrom p start timeout 1 (pollsBeforeDeadline timeout).

(** [kill(pid, signal = "SIGTERM")] *)
Definition kill (p : Process) (signal : Signal) : M World unit :=
  tryCatch
    (processKill p signal ;;
     waitForExit p gracefulTimeoutMs)
    (fun _ =>
       tryCatch
         (consoleLog ("Force killing process " +:+ pretty (pid p)) ;;
          processKill p SIGKILL)
         (fun _ => ret tt)).
End Timers.

(** A forced kill was sent: [process.kill(pid, "SIGKILL")] was called,
    whether or not a process was there to receive it. *)
Definition forcedKillSent (events : list Event) : Prop :=
  ∃ who now delivered, ProcessKill who now SIGKILL delivered ∈ events.

(** The signals sent, without the signal-0 probes and the log lines. *)
Definition isSignal (e : Event) : bool :=
  match e with
  | ProcessKill _ _ Signal0 _ => false
  | ProcessKill _ _ _ _ => true
  | _ => false
  end.

End ProcessManager.

(* ===================================================================== *)
(** ** DashboardManager.stop (docs/REFACTORING_PLAN.md, section 3) *)
(* ===================================================================== *)

Module DashboardManager.
Import Js Js.Notations.
Import PortManager (ServicePorts, dashboard, terminalWs, directTerminalWs).

Section Shell.
(** [exec] (lib/shell.js) runs a command: it returns the command's
    standard output or throws, and the system moves on. *)
Variable OS : Type.
Variable exec : string → list string → OS → Outcome string * OS.

Record World : Type := mkWorld {
  os : OS;
  trace : list Event
}.

Definition emit (e : Event) : M World unit :=
  modify (fun w => {| os := os w; trace := trace w ++ [e] |}).

Definition consoleLog (line : string) : M World unit := emit (ConsoleLog line).

Definition shellExec (command : string) (args : list string) : M World string :=
  emit (ShellExec command args) ;;
  fun w => let '(out, os') := exec command args (os w) in
           (out, {| os := os'; trace := trace w |}).

(** [stdout.trim().split("\n").filter((pid) => pid.length > 0)] *)
Definition parsePids (stdout : string) : list string :=
  List.filter (fun pid => (0 <? String.length pid)%nat)
              (split "010"%char (trim stdout)).

Definition lsofArgs (port : Z) : list string := ["-ti"; ":" +:+ pretty port]%string.

(** The loop [for (const port of allPorts)] with the pids pushed so far. *)
Fixpoint collectPids (ports : list Z) (allPids : list string)
    : M World (list string) :=
  match ports with
  | [] => ret allPids
  | port :: rest =>
      let* allPids' :=
        tryCatch
          (let* stdout := shellExec "lsof" (lsofArgs port) in
           ret (allPids ++ parsePids stdout))
          (fun _ => ret allPids) in
      collectPids rest allPids'
  end.

Definition allPorts (ports : ServicePorts) : list Z :=
  [dashboard ports; terminalWs ports; directTerminalWs ports].

(** [stop(ports)] *)
Definition stop (ports : ServicePorts) : M World unit :=
  consoleLog "Stopping dashboard and WebSocket servers..." ;;
  let* allPids := collectPids (allPorts ports) [] in
  if (length allPids =? 0)%nat
  then consoleLog "Dashboard not running"
  else
    let uniquePids := setOf allPids in
    tryCatch
      (shellExec "kill" uniquePids ;;
       consoleLog "Dashboard and WebSocket servers stopped")
      (fun _ =>
         consoleLog "Could not stop some processes (may have already exited)").

(** What [lsof] reports for one port in a given system state. *)
Definition listeners (port : Z) (sys : OS) : list string :=
  match fst (exec "lsof" (lsofArgs port) sys) with
  | Return stdout => parsePids stdout
  | Throw _ => []
  end.

Definition afterLsof (port : Z) (sys : OS) : OS :=
  snd (exec "lsof" (lsofArgs port) sys).

(** The pids found by looking at the ports one after the other. *)
Fixpoint discovered (ports : list Z) (sys : OS) : list string :=
  match ports with
  | [] => []
  | port :: rest => listeners port sys ++ discovered rest (afterLsof port sys)
  end.

Fixpoint afterDiscovery (ports : list Z) (sys : OS) : OS :=
  match ports with
  | [] => sys
  | port :: rest => afterDiscovery rest (afterLsof port sys)
  end.

Definition lsofEvents (ports : list Z) : list Event :=
  map (fun port => ShellExec "lsof" (lsofArgs port)) ports.
End Shell.

Arguments os {OS} w.
Arguments trace {OS} w.
Arguments mkWorld {OS} os trace.

End DashboardManager.

(* ===================================================================== *)
(** ** MetadataService (docs/REFACTORING_PLAN.md, section 4) *)
(* ===================================================================== *)

Module MetadataService.
Import Js Js.Notations.

(** [SessionMetadata]: field name to value. *)
Abbreviation Metadata := (gmap string string).

(** What [readMetadata] and [writeMetadata] (package ao-core) do when one
    call of [updateMetadata] reaches them. *)
Inductive Backend : Type :=
| BackendWorks
| ReadThrows (message : string)
| WriteThrows (message : string).

(** Where one call of [updateMetadata] stands. *)
Inductive Progress : Type :=
| AwaitingLock (promise : nat)
    (* suspended in [acquireLock] at [await this.locks.get(sessionId)] *)
| LockAcquired
    (* [acquireLock] has returned; the continuation of
       [await this.acquireLock(sessionId)] is queued *)
| Settled (outcome : Outcome unit).

Record Task : Type := mkTask {
  dataDir : string;
  sessionId : string;
  updates : Metadata;
  backend : Backend;
  progress : Progress
}.

(** The service instance and its surroundings: the [locks] map (session id
    to lock promise), the lock promises created so far and whether each has
    been resolved, the persisted records, and the calls in flight. *)
Record State : Type := mkState {
  locks : gmap string nat;
  resolved : list bool;
  files : gmap (string * string) Metadata;
  tasks : list Task
}.

Definition initial (persisted : gmap (string * string) Metadata) : State :=
  {| locks := ∅; resolved := []; files := persisted; tasks := [] |}.

Definition isResolved (promise : nat) (s : State) : bool :=
  match resolved s !! promise with
  | Some r => r
  | None => false
  end.

(** [acquireLock(sessionId)] up to its next suspension: either it finds a
    lock and awaits that promise, or it installs a fresh pending promise and
    returns. *)
Definition acquireLock (session : string) (s : State) : Progress * State :=
  match locks s !! session with
  | Some promise => (AwaitingLock promise, s)
  | None =>
      let lockPromise := length (resolved s) in
      (LockAcquired,
       {| locks := <[session := lockPromise]> (locks s);
          resolved := resolved s ++ [false];
          files := files s;
          tasks := tasks s |})
  end.

(** [releaseLock(sessionId)]: the entry is deleted; the promise fetched
    before is not resolved (the body of [if (lockPromise)] is empty). *)
Definition releaseLock (session : string) (s : State) : State :=
  {| locks := delete session (locks s);
     resolved := resolved s;
     files := files s;
     tasks := tasks s |}.

(** [readMetadata(dataDir, sessionId)] as the call of task [t] meets it:
    the persisted record, [None] for [null]. *)
Definition readMetadata (t : Task) : M State (option Metadata) :=
  match backend t with
  | ReadThrows message => throw message
  | _ => gets (fun s => files s !! (dataDir t, sessionId t))
  end.

(** [writeMetadata(dataDir, sessionId, merged)] as the call of task [t]
    meets it. *)
Definition writeMetadata (t : Task) (merged : Metadata) : M State unit :=
  match backend t with
  | WriteThrows message => throw message
  | _ =>
      modify (fun s =>
        {| locks := locks s;
           resolved := resolved s;
           files := <[(dataDir t, sessionId t) := merged]> (files s);
           tasks := tasks s |})
  end.

(** The [try] block of [updateMetadata]; [{ ...existing, ...updates }] is
    the union that prefers the fields of [updates]. *)
Definition readMergeWrite (t : Task) : M State unit :=
  let* found := readMetadata t in
  let existing := default ∅ found in
  let merged := updates t ∪ existing in
  writeMetadata t merged.

(** [updateMetadata] after [await this.acquireLock(sessionId)]. *)
Definition criticalSection (t : Task) : M State unit :=
  tryFinally (readMergeWrite t) (releaseLock (sessionId t)).

Definition setProgress (i : nat) (p : Progress) (s : State) : State :=
  {| locks := locks s;
     resolved := resolved s;
     files := files s;
     tasks := alter (fun t => {| dataDir := dataDir t; sessionId := sessionId t;
                                 updates := updates t; backend := backend t;
                                 progress := p |}) i (tasks s) |}.

(** A call [updateMetadata(dataDir, sessionId, updates)]: it runs up to its
    first suspension and joins the calls in flight. *)
Definition call (dir session : string) (patch : Metadata) (b : Backend)
    (s : State) : State :=
  let '(p, s') := acquireLock session s in
  {| locks := locks s';
     resolved := resolved s';
     files := files s';
     tasks := tasks s' ++ [{| dataDir := dir; sessionId := session;
                              updates := patch; backend := b; progress := p |}] |}.

(** The event loop picks call [i]. A call suspended on a lock promise runs
    only if that promise is resolved, and then goes round the [while] loop
    of [acquireLock] again; a call that holds the lock runs its critical
    section to the end (the backend calls are synchronous). Anything else
    is left as it is. *)
Definition resume (i : nat) (s : State) : State :=
  match tasks s !! i with
  | None => s
  | Some t =>
      match progress t with
      | AwaitingLock promise =>
          if isResolved promise s
          then let '(p, s') := acquireLock (sessionId t) s in setProgress i p s'
          else s
      | LockAcquired =>
          let '(outcome, s') := criticalSection t s in
          setProgress i (Settled outcome) s'
      | Settled _ => s
      end
  end.

(** Any order in which the event loop resumes the calls. *)
Definition schedule (order : list nat) (s : State) : State :=
  fold_left (fun s i => resume i s) order s.

Definition progressOf (i : nat) (s : State) : option Progress :=
  progress <$> tasks s !! i.

Definition record (dir session : string) (s : State) : option Metadata :=
  files s !! (dir, session).

(** The result the specification asks for: the patches merged over the
    initial record in call order. *)
Definition mergedInOrder (patches : list Metadata) (start : Metadata) : Metadata :=
  fold_left (fun existing patch => patch ∪ existing) patches start.

End MetadataService.

(* ===================================================================== *)
(** ** The enrichment fan-out of [enrichSessionPR] *)
(* ===================================================================== *)

Module Enrichment.

(** Modelled from the spec: the settlement of one sub-fetch, as
    [Promise.allSettled] reports it once every sub-fetch has finished
    (serialize.ts, where [enrichSessionPR] lives, is not among the sources). *)
Inductive SettledResult (V : Type) : Type :=
| Fulfilled (value : V)
| Rejected (reason : string).
Arguments Fulfilled {V} value.
Arguments Rejected {V} reason.

Section FanOut.
Context {V : Type}.

(** Modelled from the spec: a sub-fetch of [enrichSessionPR] names the field
    it fills and settles one way or the other. *)
Definition SubFetch : Type := string * SettledResult V.

(** Modelled from the spec: the enriched value, its rate-limited tag and its
    blocker messages. *)
Record Enriched : Type := mkEnriched {
  fields : gmap string V;
  rateLimited : bool;
  blockers : list string
}.

(** Modelled from the spec: which sub-fetches count as failed. *)
Definition isRejected (f : SubFetch) : bool :=
  match snd f with
  | Rejected _ => true
  | Fulfilled _ => false
  end.

(** Modelled from the spec: the number of failed sub-fetches. *)
Definition failedCount (settled : list SubFetch) : nat :=
  length (List.filter isRejected settled).

(** Modelled from the spec: the fraction of failed sub-fetches. *)
Definition failedFraction (settled : list SubFetch) : Q :=
  Z.of_nat (failedCount settled) # Pos.of_nat (length settled).

(** Modelled from the spec: a fulfilled result is merged into the output, a
    rejected one is left out. *)
Definition applyResult (acc : gmap string V) (f : SubFetch) : gmap string V :=
  match snd f with
  | Fulfilled value => <[fst f := value]> acc
  | Rejected _ => acc
  end.

(** Modelled from the spec: [enrichSessionPR] lives in serialize.ts, which is
    not among the sources; the plan document only lists its steps. Every
    sub-fetch has settled before the results are looked at; the fulfilled
    ones are merged field by field and the rejected ones left out; when at
    least half of them were rejected the result is marked rate limited and
    carries the blocker "API rate limited or unavailable". *)
Definition enrich (settled : list SubFetch) : Enriched :=
  let limited := Qle_bool (1 # 2) (failedFraction settled) in
  {| fields := fold_left applyResult settled ∅;
     rateLimited := limited;
     blockers := if limited then ["API rate limited or unavailable"%string] else [] |}.

End FanOut.

Arguments SubFetch : clear implicits.
Arguments Enriched : clear implicits.

End Enrichment.

(* ===================================================================== *)
(** * Properties *)
(* ===================================================================== *)

(** ** Branch titles *)

Module FormatFacts.
Import Format.

(** The cases of the test suite, and a branch that begins with a no-break
    space. *)
Example humanizeBranch_examples :
  humanizeBranch (codeUnits "feat/infer-project-id") = codeUnits "Infer Project Id"
  ∧ humanizeBranch (codeUnits "feature/new-dashboard") = codeUnits "New Dashboard"
  ∧ humanizeBranch (codeUnits "session/ao-52") = codeUnits "Ao 52"
  ∧ humanizeBranch (codeUnits "feat/add_new_feature") = codeUnits "Add New Feature"
  ∧ humanizeBranch (codeUnits "release/v2.1.0") = codeUnits "V2.1.0"
  ∧ humanizeBranch (codeUnits "custom/my-branch") = codeUnits "Custom/My Branch"
  ∧ humanizeBranch (codeUnits "") = codeUnits ""
  ∧ humanizeBranch (160%N :: codeUnits "foo") = codeUnits "Foo".
Proof. repeat split; reflexivity. Qed.

(** *** Characters *)

Ltac to_arithmetic :=
  unfold isWhiteSpace, isWordChar, isSeparator, isLowerCase, isUpperCase, isDecimalDigit,
    hyphen, underscore in *;
  repeat match goal with
         | H : _ = false |- _ => apply not_true_iff_false in H
         | |- _ = false => apply not_true_iff_false; intros ?
         end;
  rewrite ?orb_true_iff, ?andb_true_iff, ?N.leb_le, ?N.eqb_eq in *.

Lemma lowerCase_is_word c : isLowerCase c = true → isWordChar c = true.
Proof. intros H. unfold isWordChar. rewrite H. reflexivity. Qed.

Lemma whiteSpace_not_word c : isWhiteSpace c = true → isWordChar c = false.
Proof. intros H. to_arithmetic. lia. Qed.

Lemma toUpperCase_not_lowerCase c : isLowerCase (toUpperCase c) = false.
Proof.
  unfold toUpperCase. destruct (isLowerCase c) eqn:H; [| exact H].
  to_arithmetic. lia.
Qed.

Lemma toUpperCase_word c : isWordChar (toUpperCase c) = isWordChar c.
Proof.
  unfold toUpperCase. destruct (isLowerCase c) eqn:H; [| reflexivity].
  rewrite (lowerCase_is_word c H). to_arithmetic. lia.
Qed.

Lemma toUpperCase_fixed c : isLowerCase c = false → toUpperCase c = c.
Proof. unfold toUpperCase. intros ->. reflexivity. Qed.

Lemma toUpperCase_not_separator c :
  isSeparator c = false → isSeparator (toUpperCase c) = false.
Proof.
  unfold toUpperCase. destruct (isLowerCase c) eqn:H; [| auto].
  intros _. to_arithmetic. lia.
Qed.

Lemma space_not_separator : isSeparator space = false.
Proof. reflexivity. Qed.

(** *** Strings without a separator *)

Definition noSeparator (s : list CodeUnit) : Prop := Forall (fun c => isSeparator c = false) s.

Lemma noSeparator_elem s : noSeparator s → (hyphen ∉ s) ∧ (underscore ∉ s).
Proof.
  unfold noSeparator. rewrite Forall_forall. intros Hall.
  split; intros Hin; specialize (Hall _ Hin); discriminate.
Qed.

Lemma replaceSeparators_noSeparator s : noSeparator (replaceSeparators s).
Proof.
  unfold noSeparator, replaceSeparators. apply Forall_fmap, Forall_true. intros c. cbn.
  destruct (isSeparator c) eqn:Hc; [reflexivity | exact Hc].
Qed.

Lemma replaceSeparators_fixed s : noSeparator s → replaceSeparators s = s.
Proof.
  unfold noSeparator, replaceSeparators. induction 1 as [| c rest Hc _ IH]; [reflexivity |].
  cbn. rewrite Hc. f_equal. exact IH.
Qed.

Lemma titleCaseFrom_noSeparator s :
  noSeparator s → ∀ afterWord, noSeparator (titleCaseFrom afterWord s).
Proof.
  unfold noSeparator. induction 1 as [| c rest Hc _ IH]; intros afterWord; [constructor |].
  cbn [titleCaseFrom]. constructor; [| apply IH].
  destruct (isWordChar c && negb afterWord); [apply toUpperCase_not_separator |]; exact Hc.
Qed.

Lemma trimStart_noSeparator s : noSeparator s → noSeparator (trimStart s).
Proof.
  unfold noSeparator. induction 1 as [| c rest Hc Hrest IH]; [constructor |].
  cbn [trimStart]. destruct (isWhiteSpace c); [exact IH | constructor; assumption].
Qed.

Lemma trimEnd_noSeparator s : noSeparator s → noSeparator (trimEnd s).
Proof.
  unfold noSeparator. induction 1 as [| c rest Hc Hrest IH]; [constructor |].
  cbn [trimEnd]. destruct (trimEnd rest) as [| c' kept].
  - destruct (isWhiteSpace c); constructor; [exact Hc | constructor].
  - constructor; assumption.
Qed.

(** *** Strings that title-casing leaves as they are *)

Lemma titleCaseFrom_twice s :
  ∀ afterWord,
    titleCaseFrom afterWord (titleCaseFrom afterWord s) = titleCaseFrom afterWord s.
Proof.
  induction s as [| c rest IH]; intros afterWord; [reflexivity |].
  cbn [titleCaseFrom].
  destruct (isWordChar c && negb afterWord) eqn:Hc.
  - rewrite toUpperCase_word, Hc.
    rewrite (toUpperCase_fixed _ (toUpperCase_not_lowerCase c)), IH. reflexivity.
  - rewrite Hc, IH. reflexivity.
Qed.

Lemma trimStart_titled s :
  titleCaseFrom false s = s → titleCaseFrom false (trimStart s) = trimStart s.
Proof.
  induction s as [| c rest IH]; [reflexivity |]. cbn [trimStart].
  destruct (isWhiteSpace c) eqn:Hws; [| auto].
  cbn [titleCaseFrom]. rewrite (whiteSpace_not_word c Hws). cbn [andb].
  intros [= Hrest]. exact (IH Hrest).
Qed.

Lemma trimEnd_titled s :
  ∀ afterWord,
    titleCaseFrom afterWord s = s → titleCaseFrom afterWord (trimEnd s) = trimEnd s.
Proof.
  induction s as [| c rest IH]; intros afterWord; [reflexivity |].
  cbn [titleCaseFrom trimEnd]. intros [= Hc Hrest].
  specialize (IH _ Hrest).
  destruct (trimEnd rest) as [| c' kept].
  - destruct (isWhiteSpace c); [reflexivity |]. cbn [titleCaseFrom]. rewrite Hc. reflexivity.
  - cbn [titleCaseFrom] in *. rewrite Hc. f_equal. exact IH.
Qed.

(** *** Strings that are trimmed already *)

Definition startsWithWhiteSpace (s : list CodeUnit) : bool :=
  match s with
  | [] => false
  | c :: _ => isWhiteSpace c
  end.

Lemma trimStart_starts s : startsWithWhiteSpace (trimStart s) = false.
Proof.
  induction s as [| c rest IH]; [reflexivity |]. cbn [trimStart].
  destruct (isWhiteSpace c) eqn:Hws; [exact IH | exact Hws].
Qed.

Lemma trimStart_fixed s : startsWithWhiteSpace s = false → trimStart s = s.
Proof.
  destruct s as [| c rest]; [reflexivity |]. cbn [startsWithWhiteSpace trimStart].
  intros ->. reflexivity.
Qed.

Lemma trimEnd_starts s :
  startsWithWhiteSpace s = false → startsWithWhiteSpace (trimEnd s) = false.
Proof.
  destruct s as [| c rest]; [reflexivity |]. cbn [startsWithWhiteSpace trimEnd].
  intros Hc. destruct (trimEnd rest); [rewrite Hc |]; exact Hc.
Qed.

Lemma trimEnd_twice s : trimEnd (trimEnd s) = trimEnd s.
Proof.
  induction s as [| c rest IH]; [reflexivity |]. cbn [trimEnd].
  destruct (trimEnd rest) as [| c' kept] eqn:Hrest.
  - destruct (isWhiteSpace c) eqn:Hws; [reflexivity |]. cbn [trimEnd]. rewrite Hws.
    reflexivity.
  - change (trimEnd (c :: c' :: kept))
      with (match trimEnd (c' :: kept) with
            | [] => if isWhiteSpace c then [] else [c]
            | kept' => c :: kept'
            end).
    rewrite IH. reflexivity.
Qed.

Lemma trimEnd_last s c : last (trimEnd s) = Some c → isWhiteSpace c = false.
Proof.
  induction s as [| c0 rest IH]; [discriminate |]. cbn [trimEnd].
  destruct (trimEnd rest) as [| c' kept].
  - destruct (isWhiteSpace c0) eqn:Hws; [discriminate |]. intros [= <-]. exact Hws.
  - rewrite last_cons_cons. exact IH.
Qed.

Lemma trim_twice s : trim (trim s) = trim s.
Proof.
  unfold trim.
  rewrite (trimStart_fixed (trimEnd (trimStart s)))
    by apply trimEnd_starts, trimStart_starts.
  apply trimEnd_twice.
Qed.

(** *** Titles that begin like a prefix *)

Definition startsWithLowerCase (s : list CodeUnit) : bool :=
  match s with
  | [] => false
  | c :: _ => isLowerCase c
  end.

Lemma titled_starts s : titleCaseFrom false s = s → startsWithLowerCase s = false.
Proof.
  destruct s as [| c rest]; [reflexivity |]. cbn [titleCaseFrom startsWithLowerCase].
  rewrite andb_true_r. intros [= Hc _].
  destruct (isLowerCase c) eqn:Hlower; [| reflexivity].
  rewrite (lowerCase_is_word c Hlower) in Hc.
  rewrite <- Hc, toUpperCase_not_lowerCase in Hlower. discriminate.
Qed.

Lemma dropPrefix_lowerCase p s :
  startsWithLowerCase p = true → startsWithLowerCase s = false →
  dropPrefix (p ++ codeUnits "/") s = None.
Proof.
  destruct p as [| a p']; [discriminate |]. destruct s as [| b s']; [reflexivity |].
  cbn [startsWithLowerCase]. intros Ha Hb. cbn [app dropPrefix].
  destruct (N.eqb_spec a b) as [-> | Hne]; [congruence | reflexivity].
Qed.

Lemma withoutPrefix_fixed s : startsWithLowerCase s = false → withoutPrefix s = s.
Proof.
  intros Hs. unfold withoutPrefix, prefixes. cbn [withoutPrefixFrom].
  rewrite !dropPrefix_lowerCase by (reflexivity || exact Hs). reflexivity.
Qed.

(** *** The title *)

Lemma humanizeBranch_shape branch :
  let title := humanizeBranch branch in
  noSeparator title ∧ titleCaseFrom false title = title ∧ trim title = title.
Proof.
  cbn zeta. unfold humanizeBranch, titleCase. split; [| split].
  - unfold trim. apply trimEnd_noSeparator, trimStart_noSeparator, titleCaseFrom_noSeparator,
      replaceSeparators_noSeparator.
  - unfold trim. apply trimEnd_titled, trimStart_titled, titleCaseFrom_twice.
  - apply trim_twice.
Qed.

(** X19. [humanizeBranch] is idempotent: a title is its own title. Nothing
    of a title is taken for a prefix (its first letter is a capital), and
    its words are capitalised and its ends trimmed already. This holds for
    every string, whatever code units it is made of. *)
Theorem humanizeBranch_idempotent (branch : list CodeUnit) :
  humanizeBranch (humanizeBranch branch) = humanizeBranch branch.
Proof.
  destruct (humanizeBranch_shape branch) as (Hsep & Htitled & Htrimmed).
  unfold humanizeBranch at 1.
  rewrite (withoutPrefix_fixed _ (titled_starts _ Htitled)).
  rewrite (replaceSeparators_fixed _ Hsep).
  unfold titleCase. rewrite Htitled. exact Htrimmed.
Qed.

(** X20. A title has no hyphen and no underscore; it neither begins nor
    ends with a character that [trim] strips, the white space beyond ASCII
    included; and each of its words is capitalised: a lower-case letter
    never starts the title and only ever follows a word character (a
    letter or a digit, there being no underscore). *)
Theorem humanizeBranch_capitalises_every_word (branch : list CodeUnit) :
  let title := humanizeBranch branch in
  (hyphen ∉ title)
  ∧ (underscore ∉ title)
  ∧ (∀ c, head title = Some c → isWhiteSpace c = false)
  ∧ (∀ c, last title = Some c → isWhiteSpace c = false)
  ∧ ∀ i c, title !! i = Some c → isLowerCase c = true →
           ∃ j before, i = S j ∧ title !! j = Some before ∧ isWordChar before = true.
Proof.
  cbn zeta. destruct (humanizeBranch_shape branch) as (Hsep & Htitled & Htrimmed).
  destruct (noSeparator_elem _ Hsep) as [Hhyphen Hunderscore].
  split; [exact Hhyphen |]. split; [exact Hunderscore |].
  split.
  { intros c Hhead.
    pose proof (trimEnd_starts _ (trimStart_starts
                  (titleCase (replaceSeparators (withoutPrefix branch))))) as Hstart.
    change (trimEnd (trimStart (titleCase (replaceSeparators (withoutPrefix branch)))))
      with (humanizeBranch branch) in Hstart.
    destruct (humanizeBranch branch) as [| c0 rest]; [discriminate |].
    injection Hhead as <-. exact Hstart. }
  split; [intros c; apply trimEnd_last |].
  assert (Hwords : ∀ s afterWord,
             titleCaseFrom afterWord s = s →
             ∀ i c, s !! i = Some c → isLowerCase c = true →
                    (i = 0%nat ∧ afterWord = true)
                    ∨ ∃ j before, i = S j ∧ s !! j = Some before
                                  ∧ isWordChar before = true).
  { induction s as [| a rest IH]; intros afterWord Hfixed i c Hget Hlower;
      [destruct i; discriminate |].
    cbn [titleCaseFrom] in Hfixed. injection Hfixed as Ha Hrest.
    destruct i as [| i]; cbn in Hget.
    - injection Hget as ->. left. split; [reflexivity |].
      destruct afterWord; [reflexivity |].
      rewrite (lowerCase_is_word c Hlower) in Ha. cbn in Ha.
      rewrite <- Ha, toUpperCase_not_lowerCase in Hlower. discriminate.
    - right. destruct (IH _ Hrest i c Hget Hlower) as [[-> Hword] | (j & before & -> & Hj & Hword)].
      + exists 0%nat, a. auto.
      + exists (S j), before. auto. }
  intros i c Hget Hlower.
  destruct (Hwords _ false Htitled i c Hget Hlower) as [[_ Hfalse] | Hprev];
    [discriminate | exact Hprev].
Qed.

End FormatFacts.

(** ** ConfigService *)

Module ConfigServiceFacts.
Import Js Js.Notations ConfigService.

Section Config.
Context {OrchestratorConfig : Type}.
Implicit Types (s : State OrchestratorConfig) (host : Host OrchestratorConfig).
Implicit Types (calls : list (Call * Host OrchestratorConfig)).

(** Once a config is loaded, a reading call answers from the fields and
    changes nothing. *)
Lemma perform_loaded call host s this c :
  instance s = Some this → config this = Some c → isReload call = false →
  perform call host s = (answer c (configPath this) call, s).
Proof.
  intros Hthis Hc Hread. destruct s as [inst log]. cbn in Hthis. subst inst.
  destruct this as [cfg path]. cbn in Hc. subst cfg.
  destruct call; [reflexivity | reflexivity | discriminate].
Qed.

Lemma performAll_loaded calls :
  ∀ s this c,
    instance s = Some this → config this = Some c →
    forallb (fun '(call, _) => negb (isReload call)) calls = true →
    performAll calls s = (map (fun '(call, _) => answer c (configPath this) call) calls, s).
Proof.
  induction calls as [| [call host] rest IH]; intros s this c Hthis Hc Hread; [reflexivity |].
  cbn [forallb] in Hread. apply andb_true_iff in Hread as [Hcall Hrest].
  apply negb_true_iff in Hcall.
  cbn [performAll map].
  rewrite (perform_loaded call host s this c Hthis Hc Hcall).
  rewrite (IH s this c Hthis Hc Hrest). reflexivity.
Qed.

(** The first reading call on an unloaded service, when [loadConfig]
    succeeds. *)
Lemma perform_unloaded call host s c :
  unloaded s = true → loadConfig host = Return c → isReload call = false →
  perform call host s
  = (answer c (findConfigFile host) call,
     {| instance := Some {| config := Some c; configPath := findConfigFile host |};
        accesses := accesses s ++ [FindConfigFile; LoadConfig] |}).
Proof.
  intros Hun Hload Hread. destruct s as [[[cfg path] |] log]; cbn in Hun.
  - destruct cfg; [discriminate |].
    destruct call; [| | discriminate];
      unfold perform, onInstance, getInstance, getConfigPath, getConfig, bind, gets, modify,
        access, ret; cbn; rewrite Hload; cbn; rewrite <- app_assoc; reflexivity.
  - destruct call; [| | discriminate];
      unfold perform, onInstance, getInstance, getConfigPath, getConfig, bind, gets, modify,
        access, ret; cbn; rewrite Hload; cbn; rewrite <- app_assoc; reflexivity.
Qed.

(** When [loadConfig] throws. *)
Lemma perform_load_fails call host s e :
  unloaded s = true → loadConfig host = Throw e → isReload call = false →
  perform call host s
  = (Throw e,
     {| instance := Some {| config := None; configPath := findConfigFile host |};
        accesses := accesses s ++ [FindConfigFile; LoadConfig] |}).
Proof.
  intros Hun Hload Hread. destruct s as [[[cfg path] |] log]; cbn in Hun.
  - destruct cfg; [discriminate |].
    destruct call; [| | discriminate];
      unfold perform, onInstance, getInstance, getConfigPath, getConfig, bind, gets, modify,
        access, ret, throw; cbn; rewrite Hload; cbn; rewrite <- app_assoc; reflexivity.
  - destruct call; [| | discriminate];
      unfold perform, onInstance, getInstance, getConfigPath, getConfig, bind, gets, modify,
        access, ret, throw; cbn; rewrite Hload; cbn; rewrite <- app_assoc; reflexivity.
Qed.

Lemma reload_unloads host s : unloaded (snd (perform Reload host s)) = true.
Proof. destruct s as [[[cfg path] |] log]; reflexivity. Qed.

(** X17. The config is loaded once. On a service that has no config loaded
    (at program start, or after [reload()]), the first of a run of
    [getConfig]/[getConfigPath] calls looks for the config file and loads it,
    once each; that call and every later one answer with the config and the
    path of that moment and touch the file system no more, whatever has
    become of the files since. *)
Theorem config_is_loaded_once
    (call : Call) host calls s (c : OrchestratorConfig) :
  unloaded s = true →
  loadConfig host = Return c →
  forallb (fun '(call, _) => negb (isReload call)) ((call, host) :: calls) = true →
  let '(outcomes, s') := performAll ((call, host) :: calls) s in
  outcomes = map (fun '(call, _) => answer c (findConfigFile host) call) ((call, host) :: calls)
  ∧ accesses s' = accesses s ++ [FindConfigFile; LoadConfig].
Proof.
  intros Hun Hload Hread.
  cbn [forallb] in Hread. apply andb_true_iff in Hread as [Hcall Hrest].
  apply negb_true_iff in Hcall.
  cbn [performAll map].
  rewrite (perform_unloaded call host s c Hun Hload Hcall).
  rewrite (performAll_loaded calls
             {| instance := Some {| config := Some c; configPath := findConfigFile host |};
                accesses := accesses s ++ [FindConfigFile; LoadConfig] |}
             {| config := Some c; configPath := findConfigFile host |} c
             eq_refl eq_refl Hrest).
  split; reflexivity.
Qed.

(** X18. A failed load is not cached, and neither is the path found before
    it: when [loadConfig] throws, the call throws the same error (also
    [getConfigPath], although the file was found), and the next reading call
    loads again and answers with the config and the path of its own
    moment. *)
Theorem failed_load_is_retried
    (call1 call2 : Call) (host1 host2 : Host OrchestratorConfig) s e c :
  unloaded s = true →
  isReload call1 = false → isReload call2 = false →
  loadConfig host1 = Throw e →
  loadConfig host2 = Return c →
  let '(outcomes, s') := performAll [(call1, host1); (call2, host2)] s in
  outcomes = [Throw e; answer c (findConfigFile host2) call2]
  ∧ accesses s' = accesses s ++ [FindConfigFile; LoadConfig; FindConfigFile; LoadConfig].
Proof.
  intros Hun Hread1 Hread2 Hfail Hload.
  cbn [performAll].
  rewrite (perform_load_fails call1 host1 s e Hun Hfail Hread1).
  rewrite (perform_unloaded call2 host2
             {| instance := Some {| config := None; configPath := findConfigFile host1 |};
                accesses := accesses s ++ [FindConfigFile; LoadConfig] |}
             c eq_refl Hload Hread2).
  cbn [accesses]. rewrite <- app_assoc. split; reflexivity.
Qed.

(** X24. [reload()] makes the next reading call load afresh, whatever was
    loaded before: the call after it looks for the config file and loads it
    once, and answers with the config and the path found then. *)
Theorem reload_forces_a_fresh_load
    (call : Call) (host0 host : Host OrchestratorConfig) s (c : OrchestratorConfig) :
  isReload call = false →
  loadConfig host = Return c →
  let '(outcomes, s') := performAll [(Reload, host0); (call, host)] s in
  outcomes = [Return Done; answer c (findConfigFile host) call]
  ∧ accesses s' = accesses s ++ [FindConfigFile; LoadConfig].
Proof.
  intros Hread Hload.
  pose proof (reload_unloads host0 s) as Hun.
  assert (accesses (snd (perform Reload host0 s)) = accesses s
          ∧ fst (perform Reload host0 s) = Return Done) as [Hlog Hdone]
    by (destruct s as [[[cfg path] |] log]; split; reflexivity).
  cbn [performAll].
  destruct (perform Reload host0 s) as [outcome s1]. cbn [fst snd] in *. subst outcome.
  rewrite (perform_unloaded call host s1 c Hun Hload Hread), Hlog.
  split; reflexivity.
Qed.

End Config.

Lemma config_is_loaded_once_witness :
  let host := {| findConfigFile := Some "/repo/agent-orchestrator.yaml"%string;
                 loadConfig := Return 4000 |} in
  let moved := {| findConfigFile := None; loadConfig := Throw "ENOENT"%string |} in
  let '(outcomes, s') :=
    performAll [(GetConfig, host); (GetConfigPath, moved); (GetConfig, moved)] initial in
  outcomes = map (fun '(call, _) => answer 4000 (Some "/repo/agent-orchestrator.yaml"%string) call)
               [(GetConfig, host); (GetConfigPath, moved); (GetConfig, moved)]
  ∧ accesses s' = accesses (@initial Z) ++ [FindConfigFile; LoadConfig].
Proof.
  apply (config_is_loaded_once GetConfig
           {| findConfigFile := Some "/repo/agent-orchestrator.yaml"%string;
              loadConfig := Return 4000 |}
           [(GetConfigPath, {| findConfigFile := None; loadConfig := Throw "ENOENT"%string |});
            (GetConfig, {| findConfigFile := None; loadConfig := Throw "ENOENT"%string |})]
           initial 4000); reflexivity.
Defined.

Lemma failed_load_is_retried_witness :
  let broken := {| findConfigFile := Some "/old/agent-orchestrator.yaml"%string;
                   loadConfig := Throw "Invalid config"%string |} in
  let fixed := {| findConfigFile := Some "/new/agent-orchestrator.yaml"%string;
                  loadConfig := Return 4000 |} in
  let '(outcomes, s') := performAll [(GetConfigPath, broken); (GetConfigPath, fixed)] initial in
  outcomes = [Throw "Invalid config"%string;
              answer 4000 (Some "/new/agent-orchestrator.yaml"%string) GetConfigPath]
  ∧ accesses s' = accesses (@initial Z)
                  ++ [FindConfigFile; LoadConfig; FindConfigFile; LoadConfig].
Proof.
  apply (failed_load_is_retried GetConfigPath GetConfigPath
           {| findConfigFile := Some "/old/agent-orchestrator.yaml"%string;
              loadConfig := Throw "Invalid config"%string |}
           {| findConfigFile := Some "/new/agent-orchestrator.yaml"%string;
              loadConfig := Return 4000 |}
           initial "Invalid config"%string 4000); reflexivity.
Defined.

Lemma reload_forces_a_fresh_load_witness :
  let old := {| findConfigFile := Some "/old/agent-orchestrator.yaml"%string;
                loadConfig := Return 4000 |} in
  let edited := {| findConfigFile := Some "/old/agent-orchestrator.yaml"%string;
                   loadConfig := Return 4100 |} in
  let '(outcomes, s') :=
    performAll [(Reload, edited); (GetConfig, edited)]
               (snd (performAll [(GetConfig, old)] initial)) in
  outcomes = [Return Done; answer 4100 (findConfigFile edited) GetConfig]
  ∧ accesses s' = accesses (snd (performAll [(GetConfig, old)] initial))
                  ++ [FindConfigFile; LoadConfig].
Proof.
  apply (reload_forces_a_fresh_load GetConfig
           {| findConfigFile := Some "/old/agent-orchestrator.yaml"%string;
              loadConfig := Return 4100 |}
           {| findConfigFile := Some "/old/agent-orchestrator.yaml"%string;
              loadConfig := Return 4100 |}
           (snd (performAll
                   [(GetConfig,
                     {| findConfigFile := Some "/old/agent-orchestrator.yaml"%string;
                        loadConfig := Return 4000 |})]
                   initial))
           4100); reflexivity.
Defined.

End ConfigServiceFacts.

(** ** PortManager *)

Module PortManagerFacts.
Import Js Js.Notations PortManager.

(** A candidate the scan passes over: claimed by this instance, or refused
    by the operating-system probe. *)
Definition unavailable (isPortAvailable : Z → bool) (allocatedPorts : State)
    (port : Z) : Prop :=
  port ∈ allocatedPorts ∨ isPortAvailable port = false.

Lemma scanFrom_step_unavailable isPortAvailable preferred offset rest s :
  unavailable isPortAvailable s (preferred + offset) →
  scanFrom isPortAvailable preferred offset (S rest) s
  = scanFrom isPortAvailable preferred (offset + 1) rest s.
Proof.
  intros Hun. cbn [scanFrom]. unfold bind, gets.
  destruct (bool_decide_reflect (preferred + offset ∈ s)) as [Hin | Hnin]; [reflexivity |].
  destruct Hun as [Hin | Hprobe]; [contradiction |].
  rewrite Hprobe. reflexivity.
Qed.

Lemma scanFrom_step_free isPortAvailable preferred offset rest s :
  preferred + offset ∉ s →
  isPortAvailable (preferred + offset) = true →
  scanFrom isPortAvailable preferred offset (S rest) s
  = (Return (Some (preferred + offset)), {[preferred + offset]} ∪ s).
Proof.
  intros Hnin Hprobe. cbn [scanFrom]. unfold bind, gets, modify, ret.
  rewrite bool_decide_eq_false_2 by assumption.
  rewrite Hprobe. reflexivity.
Qed.

(** A run of unavailable candidates is skipped without touching the set. *)
Lemma scanFrom_skip isPortAvailable preferred s (skipped : nat) :
  ∀ offset rest,
    (∀ j, 0 ≤ j < Z.of_nat skipped →
          unavailable isPortAvailable s (preferred + (offset + j))) →
    scanFrom isPortAvailable preferred offset (skipped + rest) s
    = scanFrom isPortAvailable preferred (offset + Z.of_nat skipped) rest s.
Proof.
  induction skipped as [| n IH]; intros offset rest Hrun.
  - cbn. f_equal. lia.
  - change (S n + rest)%nat with (S (n + rest)).
    rewrite scanFrom_step_unavailable.
    + rewrite IH.
      * f_equal. lia.
      * intros j Hj. replace (offset + 1 + j) with (offset + (j + 1)) by lia.
        apply Hrun. lia.
    + replace (preferred + offset) with (preferred + (offset + 0)) by lia.
      apply Hrun. lia.
Qed.

(** Whatever the scan returns was neither claimed nor refused, and is the
    only change to the set. *)
Lemma scanFrom_result isPortAvailable preferred iterations :
  ∀ offset s,
    match scanFrom isPortAvailable preferred offset iterations s with
    | (Return (Some port), s') =>
        (port ∉ s) ∧ isPortAvailable port = true ∧ s' = {[port]} ∪ s
    | (Return None, s') => s' = s
    | (Throw _, _) => False
    end.
Proof.
  induction iterations as [| n IH]; intros offset s; [reflexivity |].
  cbn [scanFrom]. unfold bind, gets, modify, ret.
  destruct (bool_decide_reflect (preferred + offset ∈ s)) as [Hin | Hnin]; [apply IH |].
  destruct (isPortAvailable (preferred + offset)) eqn:Hprobe; [| apply IH].
  auto.
Qed.

Lemma findNextAvailable_result isPortAvailable preferred maxAttempts s :
  match findNextAvailable isPortAvailable preferred maxAttempts s with
  | (Return port, s') => (port ∉ s) ∧ isPortAvailable port = true ∧ s' = {[port]} ∪ s
  | (Throw _, s') => s' = s
  end.
Proof.
  unfold findNextAvailable, bind.
  pose proof (scanFrom_result isPortAvailable preferred (Z.to_nat maxAttempts) 0 s) as H.
  destruct (scanFrom isPortAvailable preferred 0 (Z.to_nat maxAttempts) s)
    as [[[port |] | e] s']; cbn; auto. contradiction.
Qed.

(** *** A call that is awaited is the loop run through *)

Lemma resume_settled i s t :
  calls s !! i = Some t →
  (∀ offset rounds, progress t ≠ AwaitingProbe offset rounds) →
  resume i s = s.
Proof.
  intros Ht Hsettled. unfold resume. rewrite Ht.
  destruct (progress t) as [offset rounds | port | message] eqn:Hp; [| reflexivity ..].
  destruct (Hsettled offset rounds). reflexivity.
Qed.

Lemma resumeUntilSettled_settled resumptions i s t :
  calls s !! i = Some t →
  (∀ offset rounds, progress t ≠ AwaitingProbe offset rounds) →
  resumeUntilSettled resumptions i s = s.
Proof.
  intros Ht Hsettled. induction resumptions as [| n IH]; [reflexivity |].
  cbn [resumeUntilSettled]. rewrite (resume_settled i s t Ht Hsettled). exact IH.
Qed.

Lemma lookup_last_call (earlier : list Task) t : (earlier ++ [t]) !! length earlier = Some t.
Proof. rewrite lookup_app_r by lia. rewrite Nat.sub_diag. reflexivity. Qed.

Lemma insert_last_call (earlier : list Task) t t' :
  <[length earlier := t']> (earlier ++ [t]) = earlier ++ [t'].
Proof.
  rewrite insert_app_r_alt by lia. rewrite Nat.sub_diag. reflexivity.
Qed.

(** The outcome of the loop as the progress of a settled call. *)
Definition settled (preferred maxAttempts : Z) (found : option Z) : Progress :=
  match found with
  | Some port => Returned port
  | None => Threw (noPortMessage preferred maxAttempts)
  end.

Lemma resumeUntilSettled_scanFrom answers P budget rounds :
  ∀ offset claimed earlier resumptions,
    (rounds ≤ resumptions)%nat →
    ∃ found claimed',
      scanFrom answers P offset rounds claimed = (Return found, claimed')
      ∧ resumeUntilSettled resumptions (length earlier)
          {| allocatedPorts := claimed;
             calls := earlier ++ [{| probe := answers; preferred := P; maxAttempts := budget;
                                     progress := scanToProbe P budget offset rounds claimed |}] |}
        = {| allocatedPorts := claimed';
             calls := earlier ++ [{| probe := answers; preferred := P; maxAttempts := budget;
                                     progress := settled P budget found |}] |}.
Proof.
  induction rounds as [| rounds IH]; intros offset claimed earlier resumptions Hfuel.
  - exists None, claimed. split; [reflexivity |]. cbn [scanToProbe settled].
    eapply resumeUntilSettled_settled; [apply lookup_last_call |]. discriminate.
  - cbn [scanFrom scanToProbe]. unfold bind at 1. unfold gets at 1. cbn iota beta.
    destruct (bool_decide (P + offset ∈ claimed)) eqn:Hclaimed.
    + apply IH. lia.
    + destruct resumptions as [| resumptions]; [lia |].
      cbn [resumeUntilSettled]. unfold resume at 1. cbn [calls allocatedPorts].
      rewrite lookup_last_call. cbn [progress preferred probe maxAttempts setProgress].
      destruct (answers (P + offset)) eqn:Hanswer; rewrite insert_last_call.
      * exists (Some (P + offset)), ({[P + offset]} ∪ claimed).
        split; [reflexivity |]. cbn [settled].
        eapply resumeUntilSettled_settled; [apply lookup_last_call |]. discriminate.
      * apply IH. lia.
Qed.

(** An awaited call does to the instance what [findNextAvailable] does to
    the set, and settles with its outcome. *)
Lemma await_findNextAvailable answers P s :
  ∃ outcome claimed',
    findNextAvailable answers P defaultMaxAttempts (allocatedPorts s) = (outcome, claimed')
    ∧ await answers P s
      = {| allocatedPorts := claimed';
           calls := calls s
                      ++ [{| probe := answers; preferred := P;
                             maxAttempts := defaultMaxAttempts;
                             progress := match outcome with
                                         | Return port => Returned port
                                         | Throw message => Threw message
                                         end |}] |}.
Proof.
  destruct (resumeUntilSettled_scanFrom answers P defaultMaxAttempts
              (Z.to_nat defaultMaxAttempts) 0 (allocatedPorts s) (calls s)
              (Z.to_nat defaultMaxAttempts) ltac:(lia))
    as (found & claimed' & Hscan & Hrun).
  unfold findNextAvailable, bind. rewrite Hscan.
  unfold await, begin. rewrite Hrun.
  destruct found as [port |]; eexists _, _; (split; [reflexivity |]); reflexivity.
Qed.

(** *** A claimed port and the calls begun after it was claimed *)

(** [port] is claimed, and no call from the [from]-th on has returned it or
    is suspended at its probe. *)
Definition keptFrom (port : Z) (from : nat) (s : Instance) : Prop :=
  port ∈ allocatedPorts s
  ∧ ∀ j t, (from ≤ j)%nat → calls s !! j = Some t →
           progress t ≠ Returned port
           ∧ ∀ offset rounds, progress t = AwaitingProbe offset rounds →
                              preferred t + offset ≠ port.

Lemma scanToProbe_passes_over port P budget rounds claimed :
  port ∈ claimed →
  ∀ offset,
    scanToProbe P budget offset rounds claimed ≠ Returned port
    ∧ ∀ offset' rounds', scanToProbe P budget offset rounds claimed
                         = AwaitingProbe offset' rounds' →
                         P + offset' ≠ port.
Proof.
  intros Hclaimed. induction rounds as [| rounds IH]; intros offset; cbn [scanToProbe].
  - split; [discriminate | intros offset' rounds'; discriminate].
  - destruct (bool_decide_reflect (P + offset ∈ claimed)) as [Hin | Hnotin]; [apply IH |].
    split; [discriminate |]. intros offset' rounds' [= <- _]. intros Heq.
    rewrite Heq in Hnotin. contradiction.
Qed.

Lemma act_keptFrom port from a s :
  keptFrom port from s → releases port a = false → keptFrom port from (act a s).
Proof.
  intros [Hclaimed Hlater] Hkeeps. destruct a as [answers P | i | q |]; cbn [act].
  - (* a call begins *)
    split; [exact Hclaimed |]. intros j t Hj Hjt. cbn [begin calls] in Hjt.
    apply lookup_app_Some in Hjt as [Hjt | [_ Hjt]]; [exact (Hlater j t Hj Hjt) |].
    destruct (j - length (calls s))%nat; [| destruct n; discriminate].
    injection Hjt as <-.
    exact (scanToProbe_passes_over port P defaultMaxAttempts (Z.to_nat defaultMaxAttempts)
             (allocatedPorts s) Hclaimed 0).
  - (* a call is resumed *)
    unfold resume. destruct (calls s !! i) as [t |] eqn:Hit; [| split; assumption].
    destruct (progress t) as [offset rounds | |] eqn:Hp; [| split; assumption ..].
    destruct (probe t (preferred t + offset)) eqn:Hanswer; cbn [allocatedPorts calls].
    + split; [apply elem_of_union; right; exact Hclaimed |].
      intros j t' Hj Hjt'. cbn [calls] in Hjt'. destruct (decide (j = i)) as [-> | Hne].
      * rewrite list_lookup_insert_eq in Hjt' by (eapply lookup_lt_Some; exact Hit).
        injection Hjt' as <-. cbn [setProgress progress preferred].
        destruct (Hlater i t Hj Hit) as [_ Hwaits].
        split; [| intros offset' rounds'; discriminate].
        intros [= Heq]. exact (Hwaits offset rounds Hp Heq).
      * rewrite list_lookup_insert_ne in Hjt' by congruence. exact (Hlater j t' Hj Hjt').
    + split; [exact Hclaimed |].
      intros j t' Hj Hjt'. cbn [calls] in Hjt'. destruct (decide (j = i)) as [-> | Hne].
      * rewrite list_lookup_insert_eq in Hjt' by (eapply lookup_lt_Some; exact Hit).
        injection Hjt' as <-. cbn [setProgress progress preferred].
        apply scanToProbe_passes_over. exact Hclaimed.
      * rewrite list_lookup_insert_ne in Hjt' by congruence. exact (Hlater j t' Hj Hjt').
  - (* another port is released *)
    cbn in Hkeeps. apply bool_decide_eq_false in Hkeeps.
    split; [| exact Hlater]. cbn. apply elem_of_difference. split; [exact Hclaimed |].
    rewrite elem_of_singleton. congruence.
  - discriminate.
Qed.

(** A claimed port is returned by no call begun after it was claimed, in
    whatever order the calls are resumed, as long as it is not released. *)
Lemma run_keptFrom port from actions :
  ∀ s, keptFrom port from s →
       forallb (fun a => negb (releases port a)) actions = true →
       keptFrom port from (run actions s).
Proof.
  induction actions as [| a rest IH]; intros s Hkept Hkeeps; [exact Hkept |].
  cbn [forallb] in Hkeeps. apply andb_prop in Hkeeps as [Ha Hrest].
  apply negb_true_iff in Ha.
  exact (IH _ (act_keptFrom port from a s Hkept Ha) Hrest).
Qed.

(** The claim as the specification words it: [k] ranges over the whole
    attempt budget. *)
Definition first_free_after_k_as_stated : Prop :=
  ∀ (isPortAvailable : Z → bool) (s : State) (P k : Z),
    0 ≤ k < defaultMaxAttempts →
    (∀ j, 0 ≤ j ≤ k → unavailable isPortAvailable s (P + j)) →
    P + k + 1 ∉ s → isPortAvailable (P + k + 1) = true →
    fst (findNextAvailable isPortAvailable P defaultMaxAttempts s) = Return (P + k + 1).

(** C3, counterexample. With ports 3000 to 3009 bound and 3010 free
    ([k = 9], inside the stated range), the ten attempts are used up on the
    bound ports and the call throws: 3010 is the eleventh candidate. *)
Lemma findNextAvailable_eleventh_candidate_not_tried :
  ¬ first_free_after_k_as_stated.
Proof.
  intros Hclaim.
  specialize (Hclaim (fun p => bool_decide (3010 ≤ p)) ∅ 3000 9).
  assert (fst (findNextAvailable (fun p => bool_decide (3010 ≤ p)) 3000 defaultMaxAttempts ∅)
          = Throw (noPortMessage 3000 10)) as Hrun by (vm_compute; reflexivity).
  rewrite Hrun in Hclaim.
  enough (Throw (noPortMessage 3000 10) = Return (3000 + 9 + 1)) by discriminate.
  apply Hclaim.
  - unfold defaultMaxAttempts. lia.
  - intros j Hj. right. apply bool_decide_eq_false. lia.
  - apply not_elem_of_empty.
  - apply bool_decide_eq_true. lia.
Qed.

Lemma findNextAvailable_skips_to_first_free
    (isPortAvailable : Z → bool) (s : State) (P k : Z) :
  0 ≤ k → k + 1 < defaultMaxAttempts →
  (∀ j, 0 ≤ j ≤ k → unavailable isPortAvailable s (P + j)) →
  P + k + 1 ∉ s → isPortAvailable (P + k + 1) = true →
  findNextAvailable isPortAvailable P defaultMaxAttempts s
  = (Return (P + k + 1), {[P + k + 1]} ∪ s).
Proof.
  intros Hk Hbudget Hrun Hfresh Hprobe.
  unfold findNextAvailable, bind.
  replace (Z.to_nat defaultMaxAttempts)
    with (Z.to_nat (k + 1) + S (Z.to_nat (defaultMaxAttempts - (k + 1) - 1)))%nat by lia.
  rewrite scanFrom_skip.
  - rewrite Z2Nat.id by lia.
    replace (P + k + 1) with (P + (0 + (k + 1))) in * by lia.
    rewrite scanFrom_step_free by assumption. reflexivity.
  - intros j Hj. rewrite Z2Nat.id in Hj by lia.
    replace (P + (0 + j)) with (P + j) by lia. apply Hrun. lia.
Qed.

(** C3, amended. When [P .. P+k] are claimed or bound and [P+k+1] is free
    and unclaimed, with [P+k+1] still among the ten candidates
    ([k + 1 < 10]), a call [findNextAvailable(P)] that is awaited, with
    nothing else done on the instance until it has settled, returns [P+k+1]
    and records it. After that, no call begun on the instance returns
    [P+k+1] before it is released: whatever calls are begun, in whatever
    order they are resumed, and whatever else is released. (Of the calls
    that were in flight before, nothing is said.) *)
Theorem findNextAvailable_first_free
    (isPortAvailable : Z → bool) (s : Instance) (P k : Z) :
  0 ≤ k → k + 1 < defaultMaxAttempts →
  (∀ j, 0 ≤ j ≤ k → unavailable isPortAvailable (allocatedPorts s) (P + j)) →
  P + k + 1 ∉ allocatedPorts s → isPortAvailable (P + k + 1) = true →
  let claimed := await isPortAvailable P s in
  findNextAvailable isPortAvailable P defaultMaxAttempts (allocatedPorts s)
  = (Return (P + k + 1), {[P + k + 1]} ∪ allocatedPorts s)
  ∧ progressOf (length (calls s)) claimed = Some (Returned (P + k + 1))
  ∧ allocatedPorts claimed = {[P + k + 1]} ∪ allocatedPorts s
  ∧ length (calls claimed) = S (length (calls s))
  ∧ ∀ actions later,
      forallb (fun a => negb (releases (P + k + 1) a)) actions = true →
      (length (calls claimed) ≤ later)%nat →
      progressOf later (run actions claimed) ≠ Some (Returned (P + k + 1)).
Proof.
  intros Hk Hbudget Hrun Hfresh Hprobe. cbn zeta.
  pose proof (findNextAvailable_skips_to_first_free isPortAvailable (allocatedPorts s) P k
                Hk Hbudget Hrun Hfresh Hprobe) as Hcall.
  destruct (await_findNextAvailable isPortAvailable P s)
    as (outcome & claimed' & Hsame & Hawait).
  rewrite Hcall in Hsame. injection Hsame as <- <-.
  rewrite Hawait. cbn [allocatedPorts calls].
  split; [exact Hcall |].
  split; [unfold progressOf; cbn [calls]; rewrite lookup_last_call; reflexivity |].
  split; [reflexivity |].
  split; [rewrite length_app; cbn [length]; lia |].
  intros actions later Hkeeps Hlater.
  set (claimed := {| allocatedPorts := {[P + k + 1]} ∪ allocatedPorts s;
                     calls := calls s ++ [_] |}) in *.
  assert (keptFrom (P + k + 1) (length (calls claimed)) claimed) as Hkept.
  { split.
    - cbn. apply elem_of_union. left. apply elem_of_singleton. reflexivity.
    - intros j t Hj Hjt. apply lookup_lt_Some in Hjt. lia. }
  destruct (run_keptFrom _ _ actions claimed Hkept Hkeeps) as [_ Hnone].
  unfold progressOf.
  destruct (calls (run actions claimed) !! later) as [t |] eqn:Ht; [| discriminate].
  cbn. intros [= Hreturned]. destruct (Hnone later t Hlater Ht) as [Hnot _].
  exact (Hnot Hreturned).
Qed.

Lemma findNextAvailable_first_free_witness :
  let s := {| allocatedPorts := ∅; calls := [] |} in
  let claimed := await (fun p => bool_decide (3002 ≤ p)) 3000 s in
  findNextAvailable (fun p => bool_decide (3002 ≤ p)) 3000 defaultMaxAttempts (allocatedPorts s)
  = (Return (3000 + 1 + 1), {[3000 + 1 + 1]} ∪ allocatedPorts s)
  ∧ progressOf (length (calls s)) claimed = Some (Returned (3000 + 1 + 1))
  ∧ allocatedPorts claimed = {[3000 + 1 + 1]} ∪ allocatedPorts s
  ∧ length (calls claimed) = S (length (calls s))
  ∧ ∀ actions later,
      forallb (fun a => negb (releases (3000 + 1 + 1) a)) actions = true →
      (length (calls claimed) ≤ later)%nat →
      progressOf later (run actions claimed) ≠ Some (Returned (3000 + 1 + 1)).
Proof.
  apply (findNextAvailable_first_free (fun p => bool_decide (3002 ≤ p))
           {| allocatedPorts := ∅; calls := [] |} 3000 1).
  - lia.
  - unfold defaultMaxAttempts. lia.
  - intros j Hj. right. apply bool_decide_eq_false. lia.
  - apply not_elem_of_empty.
  - reflexivity.
Defined.

(** C4. When all ten candidates [P .. P+9] are claimed or bound, the call
    throws the error naming [P], and the set of claimed ports is the one
    the call started with. *)
Theorem findNextAvailable_exhausted (isPortAvailable : Z → bool) (s : State) (P : Z) :
  (∀ j, 0 ≤ j < 10 → unavailable isPortAvailable s (P + j)) →
  findNextAvailable isPortAvailable P defaultMaxAttempts s
  = (Throw ("Could not find available port near " +:+ pretty P +:+ " after 10 attempts"), s).
Proof.
  intros Hrun. unfold findNextAvailable, bind.
  change (Z.to_nat defaultMaxAttempts) with (10 + 0)%nat.
  rewrite scanFrom_skip.
  - reflexivity.
  - intros j Hj. replace (P + (0 + j)) with (P + j) by lia. apply Hrun. lia.
Qed.

Lemma findNextAvailable_exhausted_witness :
  findNextAvailable (fun _ => false) 4000 defaultMaxAttempts {[4001]}
  = (Throw ("Could not find available port near " +:+ pretty 4000 +:+ " after 10 attempts"),
     {[4001]}).
Proof.
  apply (findNextAvailable_exhausted (fun _ => false) {[4001]} 4000).
  intros j Hj. right. reflexivity.
Defined.

Example noPortMessage_4000 :
  noPortMessage 4000 defaultMaxAttempts
  = "Could not find available port near 4000 after 10 attempts"%string.
Proof. vm_compute. reflexivity. Qed.

(** *** The scan in full, releases, and the three service ports *)

(** The scan stops at the first candidate that is neither claimed nor
    refused, and runs out only when there is none. *)
Lemma scanFrom_least isPortAvailable preferred iterations :
  ∀ offset s,
    match scanFrom isPortAvailable preferred offset iterations s with
    | (Return (Some port), s') =>
        ∃ k, offset ≤ k < offset + Z.of_nat iterations
             ∧ port = preferred + k
             ∧ (port ∉ s) ∧ isPortAvailable port = true
             ∧ (∀ j, offset ≤ j < k → unavailable isPortAvailable s (preferred + j))
             ∧ s' = {[port]} ∪ s
    | (Return None, s') =>
        (∀ j, offset ≤ j < offset + Z.of_nat iterations →
              unavailable isPortAvailable s (preferred + j))
        ∧ s' = s
    | (Throw _, _) => False
    end.
Proof.
  induction iterations as [| n IH]; intros offset s.
  - cbn. split; [intros j Hj; lia | reflexivity].
  - cbn [scanFrom]. unfold bind, gets, modify, ret.
    assert (Hnext : unavailable isPortAvailable s (preferred + offset) →
              match scanFrom isPortAvailable preferred (offset + 1) n s with
              | (Return (Some port), s') =>
                  ∃ k, offset ≤ k < offset + Z.of_nat (S n)
                       ∧ port = preferred + k
                       ∧ (port ∉ s) ∧ isPortAvailable port = true
                       ∧ (∀ j, offset ≤ j < k →
                               unavailable isPortAvailable s (preferred + j))
                       ∧ s' = {[port]} ∪ s
              | (Return None, s') =>
                  (∀ j, offset ≤ j < offset + Z.of_nat (S n) →
                        unavailable isPortAvailable s (preferred + j))
                  ∧ s' = s
              | (Throw _, _) => False
              end).
    { intros Hun. specialize (IH (offset + 1) s).
      destruct (scanFrom isPortAvailable preferred (offset + 1) n s) as [[[port |] | e] s'];
        [| | exact IH].
      - destruct IH as (k & Hk & Hport & Hfresh & Hprobe & Hbefore & Hs').
        exists k. repeat split; try assumption; try lia.
        intros j Hj. destruct (decide (j = offset)) as [-> | Hne]; [exact Hun |].
        apply Hbefore. lia.
      - destruct IH as [Hall Hs']. split; [| exact Hs'].
        intros j Hj. destruct (decide (j = offset)) as [-> | Hne]; [exact Hun |].
        apply Hall. lia. }
    destruct (bool_decide_reflect (preferred + offset ∈ s)) as [Hin | Hnin];
      [apply Hnext; left; exact Hin |].
    destruct (isPortAvailable (preferred + offset)) eqn:Hprobe;
      [| apply Hnext; right; exact Hprobe].
    exists offset. repeat split; first [assumption | lia | intros j Hj; lia].
Qed.

Lemma findNextAvailable_outcome isPortAvailable preferred maxAttempts s :
  match findNextAvailable isPortAvailable preferred maxAttempts s with
  | (Return port, s') =>
      ∃ k, 0 ≤ k < maxAttempts
           ∧ port = preferred + k
           ∧ (port ∉ s) ∧ isPortAvailable port = true
           ∧ (∀ j, 0 ≤ j < k → unavailable isPortAvailable s (preferred + j))
           ∧ s' = {[port]} ∪ s
  | (Throw message, s') =>
      (∀ j, 0 ≤ j < maxAttempts → unavailable isPortAvailable s (preferred + j))
      ∧ s' = s
      ∧ message = noPortMessage preferred maxAttempts
  end.
Proof.
  unfold findNextAvailable, bind.
  pose proof (scanFrom_least isPortAvailable preferred (Z.to_nat maxAttempts) 0 s) as H.
  destruct (scanFrom isPortAvailable preferred 0 (Z.to_nat maxAttempts) s)
    as [[[port |] | e] s']; cbn; [| | contradiction].
  - destruct H as (k & Hk & Hrest). exists k. split; [lia | exact Hrest].
  - destruct H as [Hall Hs']. split; [| auto]. intros j Hj. apply Hall. lia.
Qed.

(** X5. [findNextAvailable] returns a port exactly when that port is the
    first of the candidates [preferred, preferred + 1, ...], fewer than
    [maxAttempts] steps away, that is neither claimed by this instance nor
    refused by the probe; it throws exactly when no candidate qualifies,
    which is always the case for [maxAttempts <= 0]. *)
Theorem findNextAvailable_returns_the_least_free_candidate
    (isPortAvailable : Z → bool) (preferred maxAttempts : Z) (s : State) :
  (∀ port,
      fst (findNextAvailable isPortAvailable preferred maxAttempts s) = Return port
      ↔ ∃ k, 0 ≤ k < maxAttempts
             ∧ port = preferred + k
             ∧ (port ∉ s) ∧ isPortAvailable port = true
             ∧ ∀ j, 0 ≤ j < k → unavailable isPortAvailable s (preferred + j))
  ∧ (fst (findNextAvailable isPortAvailable preferred maxAttempts s)
     = Throw (noPortMessage preferred maxAttempts)
     ↔ ∀ j, 0 ≤ j < maxAttempts → unavailable isPortAvailable s (preferred + j)).
Proof.
  pose proof (findNextAvailable_outcome isPortAvailable preferred maxAttempts s) as Hout.
  assert (Hclash : ∀ k, 0 ≤ k < maxAttempts →
                        (preferred + k ∉ s) → isPortAvailable (preferred + k) = true →
                        ¬ ∀ j, 0 ≤ j < maxAttempts →
                               unavailable isPortAvailable s (preferred + j)).
  { intros k Hk Hfresh Hprobe Hall. destruct (Hall k Hk) as [Hin | Hno];
      [contradiction | congruence]. }
  destruct (findNextAvailable isPortAvailable preferred maxAttempts s) as [[got | e] s'];
    cbn [fst].
  - destruct Hout as (k & Hk & -> & Hfresh & Hprobe & Hbefore & _). split.
    + intros port. split.
      * intros [= <-]. exists k. auto.
      * intros (k' & Hk' & -> & Hfresh' & Hprobe' & Hbefore'). f_equal.
        destruct (Z.lt_trichotomy k k') as [Hlt | [-> | Hgt]]; [| reflexivity |].
        -- destruct (Hbefore' k ltac:(lia)) as [Hin | Hno]; [contradiction | congruence].
        -- destruct (Hbefore k' ltac:(lia)) as [Hin | Hno]; [contradiction | congruence].
    + split; [discriminate |]. intros Hall. destruct (Hclash k Hk Hfresh Hprobe Hall).
  - destruct Hout as (Hall & _ & ->). split.
    + intros port. split; [discriminate |].
      intros (k & Hk & -> & Hfresh & Hprobe & _). destruct (Hclash k Hk Hfresh Hprobe Hall).
    + split; [intros _; exact Hall | reflexivity].
Qed.

Lemma returnedPorts_app ts1 ts2 :
  returnedPorts (ts1 ++ ts2) = returnedPorts ts1 ++ returnedPorts ts2.
Proof. unfold returnedPorts. apply omap_app. Qed.

Lemma returnedPorts_cons t ts :
  returnedPorts (t :: ts)
  = match progress t with
    | Returned port => port :: returnedPorts ts
    | _ => returnedPorts ts
    end.
Proof. unfold returnedPorts. cbn. destruct (progress t); reflexivity. Qed.

(** Awaited calls one after the other: the calls they add, and the set. *)
Lemma awaited_calls_claim_fresh_ports (requests : list ((Z → bool) * Z)) :
  ∀ s,
    ∃ added,
      calls (awaitAll s requests) = calls s ++ added
      ∧ length added = length requests
      ∧ NoDup (returnedPorts added)
      ∧ (∀ port, port ∈ returnedPorts added → port ∉ allocatedPorts s)
      ∧ (∀ port, port ∈ allocatedPorts (awaitAll s requests)
                 ↔ port ∈ allocatedPorts s ∨ port ∈ returnedPorts added).
Proof.
  induction requests as [| [answers P] rest IH]; intros s.
  - exists []. rewrite app_nil_r. split; [reflexivity |]. split; [reflexivity |].
    split; [constructor |].
    split; [intros port Hin; apply elem_of_nil in Hin; contradiction |].
    intros port. cbn. rewrite elem_of_nil. tauto.
  - cbn [awaitAll].
    destruct (await_findNextAvailable answers P s) as (outcome & claimed' & Hcall & Hawait).
    pose proof (findNextAvailable_result answers P defaultMaxAttempts (allocatedPorts s))
      as Hres.
    rewrite Hcall in Hres.
    destruct (IH (await answers P s)) as (added & Hcalls & Hlength & Hnodup & Hfresh & Hset).
    assert (calls (await answers P s)
            = calls s ++ [{| probe := answers; preferred := P;
                             maxAttempts := defaultMaxAttempts;
                             progress := match outcome with
                                         | Return port => Returned port
                                         | Throw message => Threw message
                                         end |}]) as Hadded
      by (rewrite Hawait; reflexivity).
    assert (allocatedPorts (await answers P s) = claimed') as Hclaimed
      by (rewrite Hawait; reflexivity).
    rewrite Hadded in Hcalls. rewrite Hclaimed in Hfresh, Hset.
    eexists (_ :: added). split; [rewrite Hcalls, <- app_assoc; reflexivity |].
    split; [cbn [length]; rewrite Hlength; reflexivity |].
    destruct outcome as [port | message]; rewrite returnedPorts_cons; cbn [progress].
    + destruct Hres as (Hnew & _ & ->).
      split; [| split].
      * constructor; [| exact Hnodup].
        intros Hin. apply (Hfresh port Hin), elem_of_union. left.
        apply elem_of_singleton. reflexivity.
      * intros q Hq. apply elem_of_cons in Hq as [-> | Hq]; [exact Hnew |].
        intros Hs. apply (Hfresh q Hq), elem_of_union. right. exact Hs.
      * intros q. rewrite Hset, elem_of_cons, elem_of_union, elem_of_singleton. tauto.
    + subst claimed'. split; [exact Hnodup |]. split; [exact Hfresh | exact Hset].
Qed.

(** X6. As long as every call of [findNextAvailable] is awaited before the
    next is made and nothing is released, the ports handed out are pairwise
    distinct, none of them was claimed before, and the claimed set
    afterwards is the set before together with exactly those ports. *)
Theorem allocations_without_release_are_distinct
    (requests : list ((Z → bool) * Z)) (s : Instance) :
  let s' := awaitAll s requests in
  let returned := returnedPorts (drop (length (calls s)) (calls s')) in
  length (calls s') = (length (calls s) + length requests)%nat
  ∧ NoDup returned
  ∧ (∀ port, port ∈ returned → port ∉ allocatedPorts s)
  ∧ (∀ port, port ∈ allocatedPorts s' ↔ port ∈ allocatedPorts s ∨ port ∈ returned).
Proof.
  cbn zeta.
  destruct (awaited_calls_claim_fresh_ports requests s) as (added & Hcalls & Hlength & Hrest).
  rewrite Hcalls, drop_app_length, length_app, Hlength.
  split; [reflexivity | exact Hrest].
Qed.

(** X25. Two calls that overlap can be handed the same port. When two calls
    of [findNextAvailable(P)] are begun back to back, with [P] unclaimed and
    free for both, each finds [P] unclaimed before either has claimed it,
    and both return [P]: the set is not looked at again after the probe. *)
Theorem overlapping_calls_are_handed_the_same_port
    (answers1 answers2 : Z → bool) (P : Z) (s : Instance) :
  P ∉ allocatedPorts s → answers1 P = true → answers2 P = true →
  let first := length (calls s) in
  let s' := run [Begin answers1 P; Begin answers2 P; Resume first; Resume (S first)] s in
  progressOf first s' = Some (Returned P)
  ∧ progressOf (S first) s' = Some (Returned P)
  ∧ allocatedPorts s' = {[P]} ∪ allocatedPorts s.
Proof.
  intros Hfree H1 H2. cbn zeta.
  set (first := length (calls s)).
  set (s' := run [Begin answers1 P; Begin answers2 P; Resume first; Resume (S first)] s).
  set (returned answers :=
         {| probe := answers; preferred := P; maxAttempts := defaultMaxAttempts;
            progress := Returned P |}).
  assert (Hfirst : ∀ (t1 t2 : Task), (calls s ++ [t1; t2]) !! first = Some t1).
  { intros t1 t2. unfold first. rewrite lookup_app_r by lia.
    rewrite Nat.sub_diag. reflexivity. }
  assert (Hsecond : ∀ (t1 t2 : Task), (calls s ++ [t1; t2]) !! S first = Some t2).
  { intros t1 t2. unfold first. rewrite lookup_app_r by lia.
    replace (S (length (calls s)) - length (calls s))%nat with 1%nat by lia. reflexivity. }
  assert (Hput1 : ∀ (t1 t2 t : Task),
             <[first := t]> (calls s ++ [t1; t2]) = calls s ++ [t; t2]).
  { intros t1 t2 t. unfold first. rewrite insert_app_r_alt by lia.
    rewrite Nat.sub_diag. reflexivity. }
  assert (Hput2 : ∀ (t1 t2 t : Task),
             <[S first := t]> (calls s ++ [t1; t2]) = calls s ++ [t1; t]).
  { intros t1 t2 t. unfold first. rewrite insert_app_r_alt by lia.
    replace (S (length (calls s)) - length (calls s))%nat with 1%nat by lia. reflexivity. }
  assert (Hrun : s' = {| allocatedPorts := {[P]} ∪ ({[P]} ∪ allocatedPorts s);
                         calls := calls s ++ [returned answers1; returned answers2] |}).
  { assert (Hscan : scanToProbe P defaultMaxAttempts 0 (Z.to_nat defaultMaxAttempts)
                      (allocatedPorts s) = AwaitingProbe 0 9).
    { change (Z.to_nat defaultMaxAttempts) with 10%nat. cbn [scanToProbe].
      rewrite Z.add_0_r, bool_decide_eq_false_2 by exact Hfree. reflexivity. }
    unfold s', run. cbn [fold_left act]. unfold begin at 2. cbn [allocatedPorts calls].
    unfold begin. cbn [allocatedPorts calls]. rewrite Hscan.
    rewrite <- (app_assoc (calls s)). cbn [app].
    unfold resume at 2. cbn [calls allocatedPorts]. rewrite Hfirst.
    cbn [progress preferred probe]. rewrite Z.add_0_r, H1, Hput1.
    unfold resume. cbn [calls allocatedPorts]. rewrite Hsecond.
    cbn [progress preferred probe]. rewrite Z.add_0_r, H2, Hput2.
    reflexivity. }
  rewrite Hrun. unfold progressOf. cbn [calls allocatedPorts]. rewrite Hfirst, Hsecond.
  split; [reflexivity |]. split; [reflexivity |].
  apply set_eq. intros q. rewrite !elem_of_union, elem_of_singleton. tauto.
Qed.

Lemma overlapping_calls_are_handed_the_same_port_witness :
  let s := {| allocatedPorts := {[3000; 3001]}; calls := [] |} in
  let first := length (calls s) in
  let s' := run [Begin (fun _ => true) 3002; Begin (fun _ => true) 3002;
                 Resume first; Resume (S first)] s in
  progressOf first s' = Some (Returned 3002)
  ∧ progressOf (S first) s' = Some (Returned 3002)
  ∧ allocatedPorts s' = {[3002]} ∪ allocatedPorts s.
Proof.
  apply (overlapping_calls_are_handed_the_same_port (fun _ => true) (fun _ => true) 3002
           {| allocatedPorts := {[3000; 3001]}; calls := [] |}).
  - vm_compute. intros H. discriminate H.
  - reflexivity.
  - reflexivity.
Defined.

(** X7. A released port can be claimed again: after [release(port)], an
    allocation that prefers [port] and finds it free returns [port] itself.
    Releasing a port that is not claimed changes nothing. *)
Theorem release_makes_the_port_allocatable
    (isPortAvailable : Z → bool) (port : Z) (s : State) :
  isPortAvailable port = true →
  findNextAvailable isPortAvailable port defaultMaxAttempts (snd (release port s))
  = (Return port, {[port]} ∪ s)
  ∧ (port ∉ s → release port s = (Return tt, s)).
Proof.
  intros Hprobe. split.
  - unfold findNextAvailable, bind, release, modify. cbn [snd].
    change (Z.to_nat defaultMaxAttempts) with 10%nat.
    pose proof (scanFrom_step_free isPortAvailable port 0 9 (s ∖ {[port]})) as Hstep.
    rewrite Z.add_0_r in Hstep. rewrite Hstep.
    + f_equal. apply set_eq. intros x.
      rewrite !elem_of_union, elem_of_difference, elem_of_singleton.
      destruct (decide (x = port)); tauto.
    + rewrite elem_of_difference, elem_of_singleton. tauto.
    + exact Hprobe.
  - intros Hnin. unfold release, modify. f_equal. apply set_eq. intros x.
    rewrite elem_of_difference, elem_of_singleton. split; [tauto |].
    intros Hx. split; [exact Hx |]. intros ->. contradiction.
Qed.

Lemma release_makes_the_port_allocatable_witness :
  findNextAvailable (fun _ => true) 3000 defaultMaxAttempts
    (snd (release 3000 ({[3000; 3001]} : State)))
  = (Return 3000, {[3000]} ∪ ({[3000; 3001]} : State))
  ∧ (3000 ∉ ({[3000; 3001]} : State)
     → release 3000 ({[3000; 3001]} : State) = (Return tt, {[3000; 3001]})).
Proof.
  apply (release_makes_the_port_allocatable (fun _ => true) 3000 {[3000; 3001]}).
  reflexivity.
Defined.

(** X8. [allocateServicePorts] either returns three pairwise distinct
    ports, each free, newly claimed and at most nine above its preferred
    value (the given one, 3001 and 3003), or throws the error of the first
    allocation that found nothing. Nothing is rolled back: the ports
    claimed by the allocations before the failing one stay claimed. *)
Theorem allocateServicePorts_outcome
    (isPortAvailable : Z → bool) (preferredDashboardPort : Z) (s : State) :
  match allocateServicePorts isPortAvailable preferredDashboardPort s with
  | (Return ports, s') =>
      let d := dashboard ports in
      let t := terminalWs ports in
      let w := directTerminalWs ports in
      d ≠ t ∧ d ≠ w ∧ t ≠ w
      ∧ preferredDashboardPort ≤ d < preferredDashboardPort + 10
      ∧ 3001 ≤ t < 3011 ∧ 3003 ≤ w < 3013
      ∧ isPortAvailable d = true ∧ isPortAvailable t = true ∧ isPortAvailable w = true
      ∧ (d ∉ s) ∧ (t ∉ s) ∧ (w ∉ s)
      ∧ s' = {[w]} ∪ ({[t]} ∪ ({[d]} ∪ s))
  | (Throw message, s') =>
      (message = noPortMessage preferredDashboardPort 10 ∧ s' = s)
      ∨ (∃ d, message = noPortMessage 3001 10 ∧ (d ∉ s) ∧ s' = {[d]} ∪ s)
      ∨ (∃ d t, message = noPortMessage 3003 10 ∧ d ≠ t ∧ (d ∉ s) ∧ (t ∉ s)
                ∧ s' = {[t]} ∪ ({[d]} ∪ s))
  end.
Proof.
  unfold allocateServicePorts, bind at 1.
  pose proof (findNextAvailable_outcome isPortAvailable preferredDashboardPort
                defaultMaxAttempts s) as H1.
  destruct (findNextAvailable isPortAvailable preferredDashboardPort defaultMaxAttempts s)
    as [[d | e1] s1].
  2: { destruct H1 as (_ & -> & ->). left. auto. }
  destruct H1 as (k1 & Hk1 & Hd & Hd_fresh & Hd_probe & _ & ->).
  unfold bind at 1.
  pose proof (findNextAvailable_outcome isPortAvailable 3001 defaultMaxAttempts
                ({[d]} ∪ s)) as H2.
  destruct (findNextAvailable isPortAvailable 3001 defaultMaxAttempts ({[d]} ∪ s))
    as [[t | e2] s2].
  2: { destruct H2 as (_ & -> & ->). right. left. exists d. auto. }
  destruct H2 as (k2 & Hk2 & Ht & Ht_fresh & Ht_probe & _ & ->).
  rewrite elem_of_union, elem_of_singleton in Ht_fresh.
  unfold bind at 1.
  pose proof (findNextAvailable_outcome isPortAvailable 3003 defaultMaxAttempts
                ({[t]} ∪ ({[d]} ∪ s))) as H3.
  destruct (findNextAvailable isPortAvailable 3003 defaultMaxAttempts ({[t]} ∪ ({[d]} ∪ s)))
    as [[w | e3] s3].
  2: { destruct H3 as (_ & -> & ->). right. right. exists d, t.
       repeat split; auto; try (intros ->; tauto). }
  destruct H3 as (k3 & Hk3 & Hw & Hw_fresh & Hw_probe & _ & ->).
  rewrite !elem_of_union, !elem_of_singleton in Hw_fresh.
  unfold defaultMaxAttempts in *. cbn.
  repeat split; try assumption; try lia; try (intros ->; tauto); tauto.
Qed.

(** The ports claimed before a failing allocation are indeed left behind:
    with every port from 3001 on bound, the dashboard port 3000 is claimed
    and the call throws. *)
Example allocateServicePorts_leaves_the_first_port_claimed :
  allocateServicePorts (fun port => bool_decide (port ≤ 3000)) 3000 ∅
  = (Throw (noPortMessage 3001 10), {[3000]} ∪ ∅).
Proof. vm_compute. reflexivity. Qed.

End PortManagerFacts.

(** ** ProcessManager *)

Module ProcessManagerFacts.
Import Js Js.Notations ProcessManager.

(** The call [process.kill(pid, signal)] made at [now], with its result. *)
Definition sent (p : Process) (signal : Signal) (now : Z) : Event :=
  ProcessKill (pid p) now signal (delivers p signal now).

(** The probes of the interval callbacks [i, i + 1, ..., i + n - 1]. *)
Definition probes (p : Process) (start i n : Z) : list Event :=
  (fun j => sent p Signal0 (start + pollIntervalMs * j)) <$> seqZ i n.

Definition forceLog (p : Process) : Event :=
  ConsoleLog ("Force killing process " +:+ pretty (pid p)).

Lemma processKill_returns p signal w :
  delivers p signal (clock w) = true →
  processKill p signal w
  = (Return tt, {| clock := clock w; trace := trace w ++ [sent p signal (clock w)] |}).
Proof.
  unfold delivers, sent, delivers, processKill, bind, gets, emit, modify.
  destruct (alive p (clock w)); [| discriminate].
  destruct (refusal p signal); [discriminate | reflexivity].
Qed.

Lemma processKill_throws p signal w :
  delivers p signal (clock w) = false →
  ∃ error,
    processKill p signal w
    = (Throw error, {| clock := clock w; trace := trace w ++ [sent p signal (clock w)] |}).
Proof.
  unfold delivers, sent, delivers, processKill, bind, gets, emit, modify, throw.
  destruct (alive p (clock w)).
  - destruct (refusal p signal) as [error |]; [| discriminate]. intros _. eauto.
  - intros _. eauto.
Qed.

Lemma probes_cons p start i n :
  0 < n → probes p start i n
          = sent p Signal0 (start + pollIntervalMs * i) :: probes p start (i + 1) (n - 1).
Proof. intros Hn. unfold probes. rewrite seqZ_cons by exact Hn. reflexivity. Qed.

Lemma pollFrom_step_returns p start timeout i n w :
  delivers p Signal0 (start + pollIntervalMs * i) = true →
  pollFrom p start timeout i (S n) w
  = pollFrom p start timeout (i + 1) n
      {| clock := start + pollIntervalMs * i;
         trace := trace w ++ [sent p Signal0 (start + pollIntervalMs * i)] |}.
Proof.
  intros Hreturns. cbn [pollFrom].
  unfold bind at 1. unfold resumeAt at 1. unfold modify at 1. cbn iota beta.
  unfold bind at 1. unfold tryCatch at 1. unfold bind at 1.
  rewrite processKill_returns by exact Hreturns. reflexivity.
Qed.

Lemma pollFrom_step_throws p start timeout i n w :
  delivers p Signal0 (start + pollIntervalMs * i) = false →
  pollFrom p start timeout i (S n) w
  = (Return tt,
     {| clock := start + pollIntervalMs * i;
        trace := trace w ++ [sent p Signal0 (start + pollIntervalMs * i)] |}).
Proof.
  intros Hthrows. cbn [pollFrom].
  unfold bind at 1. unfold resumeAt at 1. unfold modify at 1. cbn iota beta.
  unfold bind at 1. unfold tryCatch at 1. unfold bind at 1.
  destruct (processKill_throws p Signal0
              {| clock := start + pollIntervalMs * i; trace := trace w |} Hthrows)
    as [error ->].
  reflexivity.
Qed.

(** The promise of [waitForExit] settles in one of two ways. Either the
    probe of some interval callback throws: then every callback before it
    has probed as well, and the promise resolves there. Or the probes of all
    callbacks before the deadline return: then the timer rejects. *)
Lemma pollFrom_runs p start timeout n :
  ∀ i w,
    (∃ m, i ≤ m < i + Z.of_nat n
          ∧ (∀ j, i ≤ j < m → delivers p Signal0 (start + pollIntervalMs * j) = true)
          ∧ delivers p Signal0 (start + pollIntervalMs * m) = false
          ∧ pollFrom p start timeout i n w
            = (Return tt, {| clock := start + pollIntervalMs * m;
                             trace := trace w ++ probes p start i (m - i + 1) |}))
    ∨ ((∀ j, i ≤ j < i + Z.of_nat n →
             delivers p Signal0 (start + pollIntervalMs * j) = true)
       ∧ pollFrom p start timeout i n w
         = (Throw (timeoutMessage p timeout),
            {| clock := start + deadlineAfter timeout;
               trace := trace w ++ probes p start i (Z.of_nat n) |})).
Proof.
  induction n as [| n IH]; intros i w.
  - right. split; [intros j Hj; lia |].
    cbn. unfold bind, resumeAt, modify, throw. cbn. rewrite app_nil_r. reflexivity.
  - destruct (delivers p Signal0 (start + pollIntervalMs * i)) eqn:Hprobe.
    + rewrite (pollFrom_step_returns p start timeout i n w Hprobe).
      destruct (IH (i + 1)
                  {| clock := start + pollIntervalMs * i;
                     trace := trace w ++ [sent p Signal0 (start + pollIntervalMs * i)] |})
        as [(m & Hm & Hbefore & Hthrows & ->) | (Hall & ->)]; cbn [trace].
      * left. exists m. split; [lia |]. split; [| split; [exact Hthrows |]].
        -- intros j Hj. destruct (decide (j = i)) as [-> | Hne]; [exact Hprobe |].
           apply Hbefore. lia.
        -- rewrite (probes_cons p start i (m - i + 1)) by lia.
           rewrite <- app_assoc. cbn [app].
           replace (m - i + 1 - 1) with (m - (i + 1) + 1) by lia. reflexivity.
      * right. split.
        -- intros j Hj. destruct (decide (j = i)) as [-> | Hne]; [exact Hprobe |].
           apply Hall. lia.
        -- rewrite (probes_cons p start i (Z.of_nat (S n))) by lia.
           rewrite <- app_assoc. cbn [app].
           replace (Z.of_nat (S n) - 1) with (Z.of_nat n) by lia. reflexivity.
    + rewrite (pollFrom_step_throws p start timeout i n w Hprobe).
      left. exists i. split; [lia |]. split; [intros j Hj; lia |].
      split; [exact Hprobe |].
      replace (i - i + 1) with 1 by lia.
      rewrite (probes_cons p start i 1) by lia. unfold probes.
      rewrite seqZ_nil by lia. reflexivity.
Qed.

Lemma probes_not_forced p start i n :
  ∀ who now delivered, ProcessKill who now SIGKILL delivered ∉ probes p start i n.
Proof.
  intros who now delivered Hin. unfold probes in Hin.
  apply list_elem_of_fmap in Hin as (j & Heq & _). discriminate.
Qed.

(** The number of polls before the deadline of [kill]: 50 when a poll due
    at the deadline runs before the timer, 49 otherwise. *)
Definition pollCount (tie : bool) : Z := Z.of_nat (pollsBeforeDeadline tie gracefulTimeoutMs).

Lemma pollCount_value tie : pollCount tie = if tie then 50 else 49.
Proof. destruct tie; reflexivity. Qed.

(** The three shapes a run of [kill] can take. *)
Lemma kill_runs tie p signal w :
  let t0 := clock w in
  ∃ finish rest,
    kill tie p signal w
    = (Return tt, {| clock := finish; trace := trace w ++ sent p signal t0 :: rest |})
    ∧ (if delivers p signal t0
       then (∃ m, finish = t0 + pollIntervalMs * m ∧ rest = probes p t0 1 m
                  ∧ 1 ≤ m ≤ pollCount tie
                  ∧ (∀ j, 1 ≤ j < m →
                          delivers p Signal0 (t0 + pollIntervalMs * j) = true)
                  ∧ delivers p Signal0 (t0 + pollIntervalMs * m) = false)
            ∨ (finish = t0 + gracefulTimeoutMs
               ∧ rest = probes p t0 1 (pollCount tie)
                          ++ [forceLog p; sent p SIGKILL (t0 + gracefulTimeoutMs)]
               ∧ ∀ j, 1 ≤ j ≤ pollCount tie →
                      delivers p Signal0 (t0 + pollIntervalMs * j) = true)
       else finish = t0 ∧ rest = [forceLog p; sent p SIGKILL t0]).
Proof.
  cbn zeta.
  assert (Hforce : ∀ w1 : World,
             tryCatch (consoleLog ("Force killing process " +:+ pretty (pid p)) ;;
                       processKill p SIGKILL) (fun _ => ret tt) w1
             = (Return tt, {| clock := clock w1;
                              trace := trace w1 ++ [forceLog p; sent p SIGKILL (clock w1)] |})).
  { intros w1. unfold tryCatch at 1. unfold bind at 1.
    unfold consoleLog, emit, modify. cbn iota beta. fold (forceLog p).
    destruct (delivers p SIGKILL (clock w1)) eqn:Hkill.
    - rewrite (processKill_returns p SIGKILL
                 {| clock := clock w1; trace := trace w1 ++ [forceLog p] |})
        by exact Hkill.
      cbn [clock trace]. rewrite <- app_assoc. reflexivity.
    - destruct (processKill_throws p SIGKILL
                  {| clock := clock w1; trace := trace w1 ++ [forceLog p] |} Hkill)
        as [error ->].
      unfold ret. cbn [clock trace]. rewrite <- app_assoc. reflexivity. }
  destruct (delivers p signal (clock w)) eqn:Hsend.
  - assert (∀ handler,
               tryCatch (processKill p signal ;; waitForExit tie p gracefulTimeoutMs) handler w
               = tryCatch (pollFrom p (clock w) gracefulTimeoutMs 1
                             (pollsBeforeDeadline tie gracefulTimeoutMs)) handler
                   {| clock := clock w;
                      trace := trace w ++ [sent p signal (clock w)] |})
      as Hsent.
    { intros handler. unfold tryCatch at 1. unfold bind at 1.
      rewrite (processKill_returns p signal w Hsend). reflexivity. }
    unfold kill. rewrite Hsent.
    destruct (pollFrom_runs p (clock w) gracefulTimeoutMs
                (pollsBeforeDeadline tie gracefulTimeoutMs) 1
                {| clock := clock w; trace := trace w ++ [sent p signal (clock w)] |})
      as [(m & Hm & Hbefore & Hthrows & Hrun) | (Hall & Hrun)].
    + unfold tryCatch at 1. rewrite Hrun. cbn [trace].
      eexists _, _. split; [rewrite <- app_assoc; reflexivity |].
      left. exists m. replace (m - 1 + 1) with m by lia.
      split; [reflexivity |]. split; [reflexivity |].
      split; [unfold pollCount; lia |]. split; [exact Hbefore | exact Hthrows].
    + unfold tryCatch at 1. rewrite Hrun. rewrite Hforce. cbn [clock trace].
      change (deadlineAfter gracefulTimeoutMs) with gracefulTimeoutMs.
      eexists _, _. split; [repeat rewrite <- app_assoc; reflexivity |].
      right. split; [reflexivity |]. split; [reflexivity |].
      intros j Hj. apply Hall. unfold pollCount in Hj. lia.
  - destruct (processKill_throws p signal w Hsend) as [error Hthrown].
    unfold kill. unfold tryCatch at 1. unfold bind at 1. rewrite Hthrown.
    rewrite Hforce. cbn [clock trace].
    eexists _, _. split; [rewrite <- app_assoc; reflexivity |].
    split; reflexivity.
Qed.

Lemma forced_after_probes p start n t :
  forcedKillSent (probes p start 1 n ++ [forceLog p; sent p SIGKILL t]).
Proof.
  exists (pid p), t, (delivers p SIGKILL t).
  rewrite elem_of_app. right. right. left.
Qed.

Lemma not_forced_in_probes p start n : ¬ forcedKillSent (probes p start 1 n).
Proof.
  intros (who & now & delivered & Hin). exact (probes_not_forced _ _ _ _ _ _ _ Hin).
Qed.

(** C5, counterexample. For a pid whose process is already gone when
    [kill] starts, the graceful send throws and the handler sends the
    forced kill at once, although the process is not alive at the deadline
    (it is not alive at all); the call still returns normally. This holds
    for either order of timers. *)
Lemma kill_forces_a_process_already_gone :
  let p := {| pid := 4242; goneAt := Some 0; refusal := fun _ => None |} in
  let w := {| clock := 0; trace := [] |} in
  kill false p SIGTERM w
  = (Return tt,
     {| clock := 0;
        trace := [ProcessKill 4242 0 SIGTERM false;
                  ConsoleLog "Force killing process 4242";
                  ProcessKill 4242 0 SIGKILL false] |})
  ∧ kill true p SIGTERM w = kill false p SIGTERM w
  ∧ forcedKillSent (trace (snd (kill false p SIGTERM w)))
  ∧ alive p (clock w + gracefulTimeoutMs) = false.
Proof.
  cbn zeta. split; [vm_compute; reflexivity |].
  split; [vm_compute; reflexivity |].
  split; [| reflexivity].
  exists 4242, 0, false. vm_compute. right. right. left.
Qed.

(** With the timer running before a poll due at the same instant, a
    process that exits 4950 ms after the graceful signal, inside the
    graceful window, is still sent the forced kill at the deadline. *)
Example kill_forces_after_late_exit :
  List.filter isSignal
    (trace (snd (kill false {| pid := 4242; goneAt := Some 4950; refusal := fun _ => None |}
                   SIGTERM {| clock := 0; trace := [] |})))
  = [ProcessKill 4242 0 SIGTERM true; ProcessKill 4242 5000 SIGKILL false].
Proof. vm_compute. reflexivity. Qed.

(** C5, amended. [kill(pid)] never raises and starts by calling
    [process.kill(pid, "SIGTERM")] (there is no timeout argument: the
    deadline is 5000 ms after the start). What follows is one of three
    courses, and the trace is exactly that of the course taken.
    - The send throws: the forced kill follows at once.
    - The send returns: every 100 ms an interval callback probes with
      signal 0, at ticks [1, 2, ...], each tick without exception, until
      the probe of one throws; [kill] returns there, and no forced kill is
      sent.
    - The probes of all ticks before the deadline return: the forced kill
      is sent at the deadline.
    So SIGKILL is sent exactly when the graceful send threw or no probe
    before the deadline did, whether or not a process is there to receive
    it; and a process that exits after a graceful send that returned, and no
    later than the last tick before the deadline, is sent no forced kill. *)
Theorem kill_graceful_then_forced (tie : bool) (p : Process) (w : World) :
  let t0 := clock w in
  let tick j := t0 + pollIntervalMs * j in
  let forced t := [forceLog p; sent p SIGKILL t] in
  ∃ finish rest,
    kill tie p SIGTERM w
    = (Return tt, {| clock := finish; trace := trace w ++ sent p SIGTERM t0 :: rest |})
    ∧ ((delivers p SIGTERM t0 = false ∧ finish = t0 ∧ rest = forced t0)
       ∨ (delivers p SIGTERM t0 = true
          ∧ ∃ m, 1 ≤ m ≤ pollCount tie
                 ∧ (∀ j, 1 ≤ j < m → delivers p Signal0 (tick j) = true)
                 ∧ delivers p Signal0 (tick m) = false
                 ∧ finish = tick m
                 ∧ rest = (fun j => sent p Signal0 (tick j)) <$> seqZ 1 m)
       ∨ (delivers p SIGTERM t0 = true
          ∧ (∀ j, 1 ≤ j ≤ pollCount tie → delivers p Signal0 (tick j) = true)
          ∧ finish = t0 + gracefulTimeoutMs
          ∧ rest = ((fun j => sent p Signal0 (tick j)) <$> seqZ 1 (pollCount tie))
                     ++ forced (t0 + gracefulTimeoutMs)))
    ∧ (forcedKillSent rest ↔
         delivers p SIGTERM t0 = false
         ∨ ∀ j, 1 ≤ j ≤ pollCount tie → delivers p Signal0 (tick j) = true)
    ∧ (∀ d, goneAt p = Some d → refusal p SIGTERM = None →
            t0 < d ≤ tick (pollCount tie) →
            ¬ forcedKillSent rest).
Proof.
  cbn zeta.
  assert (Hcount : 1 ≤ pollCount tie) by (rewrite pollCount_value; destruct tie; lia).
  assert (Hearly : ∀ d, goneAt p = Some d → refusal p SIGTERM = None →
                        clock w < d ≤ clock w + pollIntervalMs * pollCount tie →
                        delivers p SIGTERM (clock w) = true
                        ∧ delivers p Signal0 (clock w + pollIntervalMs * pollCount tie)
                          = false).
  { intros d Hd Hfree Hwin. unfold delivers, alive. rewrite Hd, Hfree. split.
    - rewrite andb_true_r. apply Z.ltb_lt. lia.
    - apply andb_false_intro1, Z.ltb_ge. lia. }
  destruct (kill_runs tie p SIGTERM w) as (finish & rest & Hrun & Hcourse).
  cbn zeta in Hcourse.
  exists finish, rest. split; [exact Hrun |].
  destruct (delivers p SIGTERM (clock w)) eqn:Hsend.
  - destruct Hcourse as [(m & -> & -> & Hm & Hbefore & Hthrows) | (-> & -> & Hall)].
    + (* the probe of tick [m] threw *)
      split; [right; left; split; [reflexivity |]; exists m; auto |].
      split.
      * split; [intros Hsent; destruct (not_forced_in_probes _ _ _ Hsent) |].
        intros [Hfalse | Hall]; [discriminate |].
        rewrite (Hall m Hm) in Hthrows. discriminate.
      * intros _ _ _ _. apply not_forced_in_probes.
    + (* no probe before the deadline threw *)
      split; [right; right; auto |].
      split.
      * split; [intros _; right; exact Hall | intros _; apply forced_after_probes].
      * intros d Hd Hfree Hwin. destruct (Hearly d Hd Hfree Hwin) as [_ Hgone].
        rewrite (Hall (pollCount tie)) in Hgone by lia. discriminate.
  - destruct Hcourse as [-> ->].
    (* the graceful send threw *)
    split; [left; auto |].
    split.
    + split; [intros _; left; reflexivity |].
      intros _. exists (pid p), (clock w), (delivers p SIGKILL (clock w)). right. left.
    + intros d Hd Hfree Hwin. destruct (Hearly d Hd Hfree Hwin) as [Hreturned _].
      discriminate.
Qed.

(** The example of the specification: a process that exits within one
    second of a graceful signal it received is sent no forced kill. *)
Corollary kill_exit_within_one_second tie p t0 d :
  goneAt p = Some d → refusal p SIGTERM = None → t0 < d ≤ t0 + 1000 →
  ¬ forcedKillSent (trace (snd (kill tie p SIGTERM {| clock := t0; trace := [] |}))).
Proof.
  intros Hd Hfree Hwin.
  assert (delivers p SIGTERM t0 = true) as Hsend.
  { unfold delivers, alive. rewrite Hd, Hfree, andb_true_r. apply Z.ltb_lt. lia. }
  assert (delivers p Signal0 (t0 + pollIntervalMs * 10) = false) as Hgone.
  { unfold delivers, alive, pollIntervalMs. rewrite Hd. apply andb_false_intro1, Z.ltb_ge. lia. }
  destruct (kill_runs tie p SIGTERM {| clock := t0; trace := [] |})
    as (finish & rest & -> & Hcourse).
  cbn zeta in Hcourse. cbn [clock trace snd app] in *. rewrite Hsend in Hcourse.
  intros (who & now & delivered & Hin).
  apply elem_of_cons in Hin as [[=] | Hin].
  destruct Hcourse as [(m & _ & -> & _) | (_ & _ & Hall)].
  - exact (probes_not_forced _ _ _ _ _ _ _ Hin).
  - rewrite Hall in Hgone; [discriminate |]. rewrite pollCount_value. destruct tie; lia.
Qed.

(** *** Signals that are refused, and how soon [waitForExit] notices *)

(** X9. [kill(pid, signal)] never raises: not for a process that is gone,
    and not when [process.kill] throws for a process that is there (a signal
    name Node does not know, or a process this one may not signal).
    Whenever the first send throws, for whatever reason, [kill] waits for
    nothing: it logs, calls [process.kill(pid, "SIGKILL")] once at the same
    moment and returns, so that a misspelt signal name kills a live process
    outright. When the first send returns, a forced kill comes only later,
    after the wait. *)
Theorem kill_forces_at_once_when_the_send_throws
    (tie : bool) (p : Process) (signal : Signal) (w : World) :
  fst (kill tie p signal w) = Return tt
  ∧ (delivers p signal (clock w) = false →
     snd (kill tie p signal w)
     = {| clock := clock w;
          trace := trace w ++ [ProcessKill (pid p) (clock w) signal false;
                               ConsoleLog ("Force killing process " +:+ pretty (pid p));
                               ProcessKill (pid p) (clock w) SIGKILL
                                           (delivers p SIGKILL (clock w))] |})
  ∧ (delivers p signal (clock w) = true →
     ∃ rest, trace (snd (kill tie p signal w))
             = trace w ++ ProcessKill (pid p) (clock w) signal true :: rest
             ∧ (∀ who now delivered,
                   ProcessKill who now SIGKILL delivered ∈ rest →
                   clock w < now)).
Proof.
  destruct (kill_runs tie p signal w) as (finish & rest & Hrun & Hcourse).
  cbn zeta in Hcourse. rewrite Hrun. cbn [fst snd trace].
  split; [reflexivity |].
  destruct (delivers p signal (clock w)) eqn:Hsend; unfold sent; rewrite Hsend.
  - split; [discriminate |]. intros _. exists rest. split; [reflexivity |].
    intros who now delivered Hin.
    destruct Hcourse as [(m & _ & -> & _) | (_ & -> & _)].
    + destruct (probes_not_forced _ _ _ _ _ _ _ Hin).
    + apply elem_of_app in Hin as [Hin | Hin];
        [destruct (probes_not_forced _ _ _ _ _ _ _ Hin) |].
      apply elem_of_cons in Hin as [[=] | Hin].
      apply list_elem_of_singleton in Hin. injection Hin as _ -> _.
      unfold gracefulTimeoutMs. lia.
  - destruct Hcourse as [-> ->]. split; [reflexivity | discriminate].
Qed.

(** The promise of [waitForExit] resolves at the first interval callback
    whose probe throws. *)
Lemma waitForExit_runs tie p timeout w :
  let start := clock w in
  let polls := Z.of_nat (pollsBeforeDeadline tie timeout) in
  (∃ m, 1 ≤ m ≤ polls
        ∧ (∀ j, 1 ≤ j < m → delivers p Signal0 (start + pollIntervalMs * j) = true)
        ∧ delivers p Signal0 (start + pollIntervalMs * m) = false
        ∧ waitForExit tie p timeout w
          = (Return tt, {| clock := start + pollIntervalMs * m;
                           trace := trace w ++ probes p start 1 m |}))
  ∨ ((∀ j, 1 ≤ j ≤ polls → delivers p Signal0 (start + pollIntervalMs * j) = true)
     ∧ waitForExit tie p timeout w
       = (Throw (timeoutMessage p timeout),
          {| clock := start + deadlineAfter timeout;
             trace := trace w ++ probes p start 1 polls |})).
Proof.
  cbn zeta.
  change (waitForExit tie p timeout w)
    with (pollFrom p (clock w) timeout 1 (pollsBeforeDeadline tie timeout) w).
  destruct (pollFrom_runs p (clock w) timeout (pollsBeforeDeadline tie timeout) 1 w)
    as [(m & Hm & Hbefore & Hthrows & ->) | (Hall & ->)].
  - left. exists m. replace (m - 1 + 1) with m by lia.
    split; [lia |]. auto.
  - right. split; [| reflexivity]. intros j Hj. apply Hall. lia.
Qed.

(** X10. A process that is gone from time [d] on, and that this process may
    probe, is noticed at the first 100 ms tick at or after [d] (at the
    first tick if it was gone from the start), provided that tick comes
    before the timer: [waitForExit] resolves then, less than 100 ms after
    the exit, having probed at every tick up to that one. *)
Theorem waitForExit_notices_exit_at_the_next_tick
    (tie : bool) (p : Process) (timeout d : Z) (w : World) :
  let start := clock w in
  let tick := Z.max 1 ((d - start + 99) / 100) in
  goneAt p = Some d →
  refusal p Signal0 = None →
  tick ≤ Z.of_nat (pollsBeforeDeadline tie timeout) →
  waitForExit tie p timeout w
  = (Return tt,
     {| clock := start + 100 * tick;
        trace := trace w
                   ++ ((fun j => ProcessKill (pid p) (start + 100 * j) Signal0
                                             (bool_decide (j < tick)))
                         <$> seqZ 1 tick) |})
  ∧ d ≤ start + 100 * tick < Z.max d (start + 1) + 100.
Proof.
  cbn zeta. intros Hd Hfree Htick.
  set (tick := Z.max 1 ((d - clock w + 99) / 100)) in *.
  assert (Hprobe : ∀ t, delivers p Signal0 t = (t <? d)).
  { intros t. unfold delivers, alive. rewrite Hd, Hfree. apply andb_true_r. }
  assert (Hdiv : 100 * ((d - clock w + 99) / 100) ≤ d - clock w + 99
                 ∧ d - clock w + 99 < 100 * ((d - clock w + 99) / 100) + 100).
  { pose proof (Z.mul_div_le (d - clock w + 99) 100 ltac:(lia)).
    pose proof (Z.mul_succ_div_gt (d - clock w + 99) 100 ltac:(lia)). lia. }
  assert (Hbounds : d ≤ clock w + 100 * tick
                    ∧ clock w + 100 * tick < Z.max d (clock w + 1) + 100)
    by (unfold tick; lia).
  split; [| exact Hbounds].
  destruct (waitForExit_runs tie p timeout w)
    as [(m & Hm & Hbefore & Hthrows & ->) | (Hall & _)];
    unfold pollIntervalMs in *.
  - rewrite Hprobe in Hthrows. apply Z.ltb_ge in Hthrows.
    assert (m = tick) as ->.
    { destruct (Z.lt_trichotomy m tick) as [Hlt | [Heq | Hgt]]; [| exact Heq |].
      - unfold tick in *. lia.
      - specialize (Hbefore tick ltac:(unfold tick; lia)).
        rewrite Hprobe in Hbefore. apply Z.ltb_lt in Hbefore. lia. }
    f_equal. f_equal. f_equal. unfold probes, sent, pollIntervalMs.
    apply list_fmap_ext. intros i j Hj. apply lookup_seqZ in Hj as [-> Hi].
    f_equal. rewrite Hprobe.
    destruct (decide (1 + Z.of_nat i < tick)) as [Hlt | Hge].
    + rewrite bool_decide_eq_true_2 by exact Hlt.
      specialize (Hbefore (1 + Z.of_nat i) ltac:(lia)). rewrite Hprobe in Hbefore.
      exact Hbefore.
    + rewrite bool_decide_eq_false_2 by exact Hge.
      replace (1 + Z.of_nat i) with tick by lia. apply Z.ltb_ge. exact Hthrows.
  - specialize (Hall tick ltac:(unfold tick in *; lia)).
    rewrite Hprobe in Hall. apply Z.ltb_lt in Hall. lia.
Qed.

Lemma waitForExit_notices_exit_at_the_next_tick_witness :
  let p := {| pid := 4242; goneAt := Some 1250; refusal := fun _ => None |} in
  let w := {| clock := 1000; trace := [] |} in
  let tick := Z.max 1 ((1250 - 1000 + 99) / 100) in
  waitForExit false p 5000 w
  = (Return tt,
     {| clock := 1000 + 100 * tick;
        trace := [] ++ ((fun j => ProcessKill 4242 (1000 + 100 * j) Signal0
                                              (bool_decide (j < tick)))
                          <$> seqZ 1 tick) |})
  ∧ 1250 ≤ 1000 + 100 * tick < Z.max 1250 (1000 + 1) + 100.
Proof.
  apply (waitForExit_notices_exit_at_the_next_tick false
           {| pid := 4242; goneAt := Some 1250; refusal := fun _ => None |}
           5000 1250 {| clock := 1000; trace := [] |}).
  - reflexivity.
  - reflexivity.
  - vm_compute. discriminate.
Defined.

(** X22. [waitForExit] rejects, with the message that names the pid and the
    timeout, exactly when the probe of every 100 ms tick before the timer
    returns, and then at the time the timer is due: [timeout] ms after the
    call for a timeout from 1 to [2^31 - 1], 1 ms after it for any other.
    With a timeout under 100 ms or above [2^31 - 1] no tick comes before the
    timer, so the promise rejects even for a process that is gone
    already. Until it settles, the promise has probed at every tick. *)
Theorem waitForExit_rejects_when_no_tick_finds_the_process_gone
    (tie : bool) (p : Process) (timeout : Z) (w : World) :
  let start := clock w in
  let polls := Z.of_nat (pollsBeforeDeadline tie timeout) in
  let due := if (1 <=? timeout) && (timeout <=? 2147483647) then timeout else 1 in
  let rejected := fst (waitForExit tie p timeout w) = Throw (timeoutMessage p timeout) in
  (rejected ↔ ∀ j, 1 ≤ j ≤ polls → delivers p Signal0 (start + 100 * j) = true)
  ∧ (rejected →
     snd (waitForExit tie p timeout w)
     = {| clock := start + due;
          trace := trace w
                     ++ ((fun j => ProcessKill (pid p) (start + 100 * j) Signal0 true)
                           <$> seqZ 1 polls) |})
  ∧ (timeout < 100 ∨ 2147483647 < timeout → rejected).
Proof.
  cbn zeta.
  assert (Hnone : timeout < 100 ∨ 2147483647 < timeout →
                  pollsBeforeDeadline tie timeout = 0%nat).
  { intros Hshort. unfold pollsBeforeDeadline, deadlineAfter, maxTimerDelay, pollIntervalMs.
    destruct (Z.leb_spec 1 timeout), (Z.leb_spec timeout 2147483647); cbn [andb];
      destruct tie; rewrite Z.div_small by lia; reflexivity. }
  destruct (waitForExit_runs tie p timeout w)
    as [(m & Hm & _ & Hthrows & ->) | (Hall & ->)];
    unfold pollIntervalMs in *; cbn [fst snd].
  - split; [split |]; [discriminate | | split; [discriminate |]].
    + intros Hreturn. rewrite (Hreturn m) in Hthrows by lia. discriminate.
    + intros Hshort. rewrite (Hnone Hshort) in Hm. cbn in Hm. lia.
  - split; [split |]; [intros _; exact Hall | reflexivity | split; [| reflexivity]].
    intros _. unfold deadlineAfter, maxTimerDelay. f_equal. f_equal.
    unfold probes, sent, pollIntervalMs.
    apply list_fmap_ext. intros i j Hj. apply lookup_seqZ in Hj as [-> Hi].
    rewrite Hall by lia. reflexivity.
Qed.

End ProcessManagerFacts.

(** ** DashboardManager.stop *)

Module DashboardManagerFacts.
Import Js Js.Notations DashboardManager.
Import PortManager (ServicePorts, dashboard, terminalWs, directTerminalWs).

(** *** Deduplication *)

Definition addUnique (seen : list string) (x : string) : list string :=
  if decide (x ∈ seen) then seen else seen ++ [x].

Lemma fold_addUnique_elem xs :
  ∀ seen x, x ∈ fold_left addUnique xs seen ↔ x ∈ seen ∨ x ∈ xs.
Proof.
  induction xs as [| y ys IH]; intros seen x; cbn.
  - rewrite elem_of_nil. tauto.
  - rewrite IH, elem_of_cons. unfold addUnique.
    destruct (decide (y ∈ seen)) as [Hin | Hnin].
    + split; [tauto |]. intros [H | [-> | H]]; auto.
    + rewrite elem_of_app, list_elem_of_singleton. tauto.
Qed.

Lemma fold_addUnique_NoDup xs :
  ∀ seen, NoDup seen → NoDup (fold_left addUnique xs seen).
Proof.
  induction xs as [| y ys IH]; intros seen Hnd; cbn; [assumption |].
  apply IH. unfold addUnique.
  destruct (decide (y ∈ seen)) as [Hin | Hnin]; [assumption |].
  apply NoDup_app. split; [assumption |]. split.
  - intros x Hx Hy. apply list_elem_of_singleton in Hy. subst. contradiction.
  - apply NoDup_singleton.
Qed.

Lemma setOf_elem xs x : x ∈ setOf xs ↔ x ∈ xs.
Proof.
  unfold setOf. change (x ∈ fold_left addUnique xs [] ↔ x ∈ xs).
  rewrite fold_addUnique_elem, elem_of_nil. tauto.
Qed.

Lemma setOf_NoDup xs : NoDup (setOf xs).
Proof. apply (fold_addUnique_NoDup xs []). constructor. Qed.

Section Shell.
Variable OS : Type.
Variable exec : string → list string → OS → Outcome string * OS.

Abbreviation World := (World OS).
Abbreviation stop := (stop OS exec).
Abbreviation collectPids := (collectPids OS exec).
Abbreviation listeners := (listeners OS exec).
Abbreviation afterLsof := (afterLsof OS exec).
Abbreviation discovered := (discovered OS exec).
Abbreviation afterDiscovery := (afterDiscovery OS exec).

(** The discovery loop looks at every port in turn, whatever the earlier
    look-ups did, and gathers what they report. *)
Lemma collectPids_runs ports :
  ∀ allPids (w : World),
    collectPids ports allPids w
    = (Return (allPids ++ discovered ports (os w)),
       {| os := afterDiscovery ports (os w);
          trace := trace w ++ lsofEvents ports |}).
Proof.
  induction ports as [| port rest IH]; intros allPids [sys events].
  - cbn. unfold ret. rewrite !app_nil_r. reflexivity.
  - cbn [collectPids DashboardManager.discovered DashboardManager.afterDiscovery
                     lsofEvents map].
    unfold bind at 1. unfold tryCatch, bind, shellExec, bind, emit, modify, ret.
    cbn [os trace]. unfold DashboardManager.listeners, DashboardManager.afterLsof.
    destruct (exec "lsof" (lsofArgs port) sys) as [[stdout | e] sys'] eqn:Hexec;
      cbn [fst snd]; rewrite IH; cbn [os trace];
      rewrite <- ?app_assoc; cbn [app]; rewrite ?app_nil_r; reflexivity.
Qed.

(** The events after the discovery loop. *)
Definition ending (pids : list string) (sys : OS) : list Event :=
  match pids with
  | [] => [ConsoleLog "Dashboard not running"]
  | _ :: _ =>
      [ShellExec "kill" (setOf pids);
       ConsoleLog (match fst (exec "kill" (setOf pids) sys) with
                   | Return _ => "Dashboard and WebSocket servers stopped"
                   | Throw _ => "Could not stop some processes (may have already exited)"
                   end)]
  end.

Lemma stop_runs (ports : ServicePorts) (w : World) :
  let pids := discovered (allPorts ports) (os w) in
  let sys := afterDiscovery (allPorts ports) (os w) in
  ∃ sys',
    stop ports w
    = (Return tt,
       {| os := sys';
          trace := trace w
                     ++ ConsoleLog "Stopping dashboard and WebSocket servers..."
                     :: lsofEvents (allPorts ports) ++ ending pids sys |})
    ∧ (pids = [] → sys' = sys).
Proof.
  cbn zeta. unfold DashboardManager.stop.
  unfold bind at 1. unfold consoleLog at 1, emit at 1, modify at 1.
  unfold bind at 1. rewrite collectPids_runs. cbn [os trace app].
  destruct (discovered (allPorts ports) (os w)) as [| pid pids] eqn:Hpids.
  - cbn [length Nat.eqb ending]. eexists. split; [| reflexivity].
    unfold consoleLog, emit, modify. cbn [os trace].
    rewrite <- !app_assoc. reflexivity.
  - cbn [length Nat.eqb ending].
    unfold tryCatch, bind, shellExec, bind, consoleLog, emit, modify. cbn [os trace].
    destruct (exec "kill" (setOf (pid :: pids))
                (afterDiscovery (allPorts ports) (os w))) as [[out | e] sys'];
      cbn [fst os trace]; eexists; (split; [| discriminate]);
      rewrite <- !app_assoc; reflexivity.
Qed.

(** C6, amended. [stop] runs [lsof -ti :port] for each of the three ports
    of the bundle, gathers the process ids printed (a look-up that fails
    contributes none), and, when there are any, passes the distinct ids,
    in order of first appearance, to one [kill] command; whether that
    command succeeds or fails, [stop] logs the result and returns. It
    makes no call to [process.kill], so no polling and no forced kill
    follow. *)
Theorem stop_discovers_dedups_and_kills_once (ports : ServicePorts) (w : World) :
  let pids := discovered (allPorts ports) (os w) in
  ∃ final,
    stop ports w = (Return tt, final)
    ∧ trace final
      = trace w
          ++ ConsoleLog "Stopping dashboard and WebSocket servers..."
          :: lsofEvents (allPorts ports)
          ++ ending pids (afterDiscovery (allPorts ports) (os w))
    ∧ NoDup (setOf pids)
    ∧ (∀ pid, pid ∈ setOf pids ↔ pid ∈ pids)
    ∧ (∀ who now signal delivered,
          ProcessKill who now signal delivered ∉ ending pids
            (afterDiscovery (allPorts ports) (os w))).
Proof.
  cbn zeta. destruct (stop_runs ports w) as (sys' & Hrun & _).
  eexists. split; [exact Hrun |]. split; [reflexivity |].
  split; [apply setOf_NoDup |]. split; [intros pid; apply setOf_elem |].
  intros who now signal delivered Hin.
  destruct (discovered (allPorts ports) (os w)); cbn in Hin;
    repeat (apply elem_of_cons in Hin as [Hin | Hin]; [discriminate |]);
    apply elem_of_nil in Hin; exact Hin.
Qed.

(** C7. When nothing listens on any port of the bundle, and that stays so
    while [lsof] runs, [stop] returns normally after logging
    "Dashboard not running", runs no [kill], and a second [stop] right
    after it does the same. *)
Theorem stop_twice_when_nothing_listens
    (ports : ServicePorts) (quiet : OS → Prop) (w : World) :
  (∀ sys port, quiet sys → port ∈ allPorts ports →
               listeners port sys = [] ∧ quiet (afterLsof port sys)) →
  quiet (os w) →
  let report := ConsoleLog "Stopping dashboard and WebSocket servers..."
                  :: lsofEvents (allPorts ports)
                  ++ [ConsoleLog "Dashboard not running"] in
  ∃ w1 w2,
    stop ports w = (Return tt, w1)
    ∧ stop ports w1 = (Return tt, w2)
    ∧ trace w1 = trace w ++ report
    ∧ trace w2 = trace w1 ++ report
    ∧ quiet (os w2).
Proof.
  intros Hquiet Hstart. cbn zeta.
  assert (Hloop : ∀ ps sys, (∀ port, port ∈ ps → port ∈ allPorts ports) → quiet sys →
                            discovered ps sys = [] ∧ quiet (afterDiscovery ps sys)).
  { induction ps as [| port rest IH]; intros sys Hsub Hsys; [split; [reflexivity | exact Hsys] |].
    cbn [DashboardManager.discovered DashboardManager.afterDiscovery].
    destruct (Hquiet sys port Hsys) as [Hnone Hnext]; [apply Hsub; left |].
    destruct (IH (afterLsof port sys)) as [Hrest Hend];
      [intros q Hq; apply Hsub; right; exact Hq | exact Hnext |].
    rewrite Hnone, Hrest. split; [reflexivity | exact Hend]. }
  assert (Hone : ∀ w0 : World, quiet (os w0) →
            ∃ w', stop ports w0 = (Return tt, w')
                  ∧ trace w' = trace w0
                                 ++ ConsoleLog "Stopping dashboard and WebSocket servers..."
                                 :: lsofEvents (allPorts ports)
                                 ++ [ConsoleLog "Dashboard not running"]
                  ∧ quiet (os w')).
  { intros w0 Hw0.
    destruct (Hloop (allPorts ports) (os w0)) as [Hnone Hend]; [auto | exact Hw0 |].
    destruct (stop_runs ports w0) as (sys' & Hrun & Hsame).
    rewrite Hnone in Hrun. eexists. split; [exact Hrun |]. cbn [os trace ending].
    split; [reflexivity |]. rewrite (Hsame Hnone). exact Hend. }
  destruct (Hone w Hstart) as (w1 & Hrun1 & Htrace1 & Hq1).
  destruct (Hone w1 Hq1) as (w2 & Hrun2 & Htrace2 & Hq2).
  exists w1, w2. auto.
Qed.
End Shell.

(** *** Two concrete systems *)

Definition bundle : ServicePorts :=
  {| dashboard := 3000; terminalWs := 3001; directTerminalWs := 3003 |}.

(** Process 4242 listens on port 3000; nothing listens on the other ports,
    where [lsof] exits with status 1 and [exec] throws. *)
Definition oneListener (command : string) (args : list string) (sys : unit)
    : Outcome string * unit :=
  if decide (command = "lsof"%string ∧ args = lsofArgs 3000)
  then (Return ("4242" +:+ String "010"%char EmptyString), sys)
  else if decide (command = "lsof"%string)
       then (Throw "Command failed: lsof", sys)
       else (Return EmptyString, sys).

(** Nothing listens anywhere. *)
Definition nothingListens (command : string) (args : list string) (sys : unit)
    : Outcome string * unit :=
  if decide (command = "lsof"%string)
  then (Throw "Command failed: lsof", sys)
  else (Return EmptyString, sys).

(** C6, counterexample. Process 4242 listens on port 3000 and ignores the
    graceful signal. The two-phase protocol of [ProcessManager.kill] sends it
    SIGTERM and, at the deadline, SIGKILL. [stop] finds the pid and runs the
    single command [kill 4242]; none of the protocol's signals is among its
    effects. *)
Lemma stop_does_not_follow_the_two_phase_protocol :
  let stopped := stop unit oneListener bundle {| os := tt; trace := [] |} in
  let protocol :=
    ProcessManager.kill false {| ProcessManager.pid := 4242; ProcessManager.goneAt := None;
                               ProcessManager.refusal := fun _ => None |}
      SIGTERM {| ProcessManager.clock := 0; ProcessManager.trace := [] |} in
  discovered unit oneListener (allPorts bundle) tt = ["4242"%string]
  ∧ List.filter ProcessManager.isSignal (ProcessManager.trace (snd protocol))
    = [ProcessKill 4242 0 SIGTERM true; ProcessKill 4242 5000 SIGKILL true]
  ∧ stopped
    = (Return tt,
       {| os := tt;
          trace := [ConsoleLog "Stopping dashboard and WebSocket servers...";
                    ShellExec "lsof" ["-ti"; ":3000"];
                    ShellExec "lsof" ["-ti"; ":3001"];
                    ShellExec "lsof" ["-ti"; ":3003"];
                    ShellExec "kill" ["4242"];
                    ConsoleLog "Dashboard and WebSocket servers stopped"]%string |})
  ∧ ¬ (∀ e, e ∈ List.filter ProcessManager.isSignal (ProcessManager.trace (snd protocol)) →
            e ∈ trace (snd stopped)).
Proof.
  cbn zeta.
  split; [vm_compute; reflexivity |].
  split; [vm_compute; reflexivity |].
  split; [vm_compute; reflexivity |].
  intros Hall.
  specialize (Hall (ProcessKill 4242 0 SIGTERM true)).
  assert (ProcessKill 4242 0 SIGTERM true
          ∈ List.filter ProcessManager.isSignal
              (ProcessManager.trace
                 (snd (ProcessManager.kill false
                         {| ProcessManager.pid := 4242; ProcessManager.goneAt := None;
                               ProcessManager.refusal := fun _ => None |}
                         SIGTERM
                         {| ProcessManager.clock := 0; ProcessManager.trace := [] |}))))
    as Hin by (vm_compute; left).
  specialize (Hall Hin). vm_compute in Hall.
  repeat (apply elem_of_cons in Hall as [Hall | Hall]; [discriminate |]).
  apply elem_of_nil in Hall. exact Hall.
Qed.

Lemma stop_twice_when_nothing_listens_witness :
  let report := ConsoleLog "Stopping dashboard and WebSocket servers..."
                  :: lsofEvents (allPorts bundle)
                  ++ [ConsoleLog "Dashboard not running"] in
  ∃ w1 w2,
    stop unit nothingListens bundle {| os := tt; trace := [] |} = (Return tt, w1)
    ∧ stop unit nothingListens bundle w1 = (Return tt, w2)
    ∧ trace w1 = trace {| os := tt; trace := [] |} ++ report
    ∧ trace w2 = trace w1 ++ report
    ∧ (fun _ : unit => True) (os w2).
Proof.
  apply (stop_twice_when_nothing_listens unit nothingListens bundle (fun _ => True)
           {| os := tt; trace := [] |}).
  - intros sys port _ _. split; [reflexivity | exact I].
  - exact I.
Defined.

(** *** Reading the output of [lsof] *)

Fixpoint noWhiteSpace (s : string) : bool :=
  match s with
  | EmptyString => true
  | String c rest => negb (isWhiteSpace c) && noWhiteSpace rest
  end.

Definition isDigit (c : ascii) : bool :=
  (48 <=? nat_of_ascii c)%nat && (nat_of_ascii c <=? 57)%nat.

Fixpoint allDigits (s : string) : bool :=
  match s with
  | EmptyString => true
  | String c rest => isDigit c && allDigits rest
  end.

(** A process id as [lsof -t] prints it: one or more decimal digits. *)
Definition isPidText (s : string) : bool :=
  negb (String.eqb s EmptyString) && allDigits s.

Lemma isDigit_not_whiteSpace c : isDigit c = true → isWhiteSpace c = false.
Proof.
  unfold isDigit, isWhiteSpace. generalize (nat_of_ascii c). intros n H.
  apply andb_prop in H as [Hlo Hhi]. apply Nat.leb_le in Hlo. apply Nat.leb_le in Hhi.
  do 48 (destruct n as [| n]; [lia |]).
  do 10 (destruct n as [| n]; [reflexivity |]). lia.
Qed.

Lemma allDigits_noWhiteSpace s : allDigits s = true → noWhiteSpace s = true.
Proof.
  induction s as [| c rest IH]; [reflexivity |]. cbn. intros H.
  apply andb_prop in H as [Hc Hrest].
  rewrite (isDigit_not_whiteSpace c Hc), (IH Hrest). reflexivity.
Qed.

(** The output of [lsof -t]: one process id per line. *)
Fixpoint lsofOutput (pids : list string) : string :=
  match pids with
  | [] => EmptyString
  | pid :: rest => pid +:+ String "010" (lsofOutput rest)
  end.

(** The same lines without the final line break. *)
Fixpoint joinLines (pids : list string) : string :=
  match pids with
  | [] => EmptyString
  | [pid] => pid
  | pid :: rest => pid +:+ String "010" (joinLines rest)
  end.

Lemma append_cons c p s : String c p +:+ s = String c (p +:+ s).
Proof. reflexivity. Qed.

Lemma append_empty p : p +:+ EmptyString = p.
Proof. induction p as [| c p IH]; [reflexivity |]. rewrite append_cons, IH. reflexivity. Qed.

Lemma trimEnd_app_noWhiteSpace p :
  ∀ s, noWhiteSpace p = true → trimEnd (p +:+ s) = p +:+ trimEnd s.
Proof.
  induction p as [| c p IH]; intros s Hp; [reflexivity |].
  cbn in Hp. apply andb_prop in Hp as [Hc Hp]. apply negb_true_iff in Hc.
  rewrite !append_cons. cbn [trimEnd]. rewrite (IH s Hp).
  destruct (p +:+ trimEnd s); [rewrite Hc |]; reflexivity.
Qed.

Lemma isPidText_inv pid :
  isPidText pid = true →
  noWhiteSpace pid = true
  ∧ ∃ c rest, pid = String c rest ∧ isWhiteSpace c = false.
Proof.
  unfold isPidText. intros H. apply andb_prop in H as [Hne Hdigits].
  apply allDigits_noWhiteSpace in Hdigits as Hclean.
  split; [exact Hclean |]. destruct pid as [| c rest]; [discriminate |].
  exists c, rest. split; [reflexivity |].
  cbn in Hclean. apply andb_prop in Hclean as [Hc _]. apply negb_true_iff in Hc. exact Hc.
Qed.

Lemma trim_lsofOutput pids :
  Forall (fun pid => isPidText pid = true) pids →
  trim (lsofOutput pids) = joinLines pids.
Proof.
  intros Hpids. unfold trim.
  assert (trimStart (lsofOutput pids) = lsofOutput pids) as ->.
  { destruct Hpids as [| pid rest Hpid _]; [reflexivity |].
    destruct (isPidText_inv pid Hpid) as (_ & c & tail & -> & Hc).
    cbn [lsofOutput]. rewrite append_cons. cbn [trimStart]. rewrite Hc. reflexivity. }
  induction Hpids as [| pid rest Hpid Hrest IH]; [reflexivity |].
  destruct (isPidText_inv pid Hpid) as (Hclean & _).
  cbn [lsofOutput]. rewrite (trimEnd_app_noWhiteSpace pid _ Hclean).
  cbn [trimEnd]. rewrite IH.
  destruct Hrest as [| next more Hnext _]; [cbn; apply append_empty |].
  destruct (isPidText_inv next Hnext) as (_ & c & tail & -> & _).
  destruct more; reflexivity.
Qed.

Lemma split_not_nil sep s : split sep s ≠ [].
Proof.
  destruct s as [| c rest]; cbn; [discriminate |].
  destruct (Ascii.eqb c sep); [discriminate |].
  destruct (split sep rest); discriminate.
Qed.

Lemma split_app_noWhiteSpace p :
  ∀ s, noWhiteSpace p = true →
       split "010" (p +:+ String "010" s) = p :: split "010" s.
Proof.
  induction p as [| c p IH]; intros s Hp; [reflexivity |].
  cbn in Hp. apply andb_prop in Hp as [Hc Hp]. apply negb_true_iff in Hc.
  rewrite append_cons. cbn [split]. rewrite (IH s Hp).
  destruct (Ascii.eqb_spec c "010") as [-> | _]; [discriminate | reflexivity].
Qed.

Lemma split_noWhiteSpace p :
  noWhiteSpace p = true → p ≠ EmptyString → split "010" p = [p].
Proof.
  induction p as [| c p IH]; intros Hp Hne; [contradiction |].
  cbn in Hp. apply andb_prop in Hp as [Hc Hp]. apply negb_true_iff in Hc.
  cbn [split]. destruct (Ascii.eqb_spec c "010") as [-> | _]; [discriminate |].
  destruct p as [| c' p']; [reflexivity |].
  rewrite IH by (assumption || discriminate). reflexivity.
Qed.

(** X11. [parsePids] reads back what [lsof -t] prints: for process ids
    written in decimal digits, one per line, it returns exactly those ids
    in the same order, and for no output at all it returns none. *)
Theorem parsePids_reads_lsof_output (pids : list string) :
  Forall (fun pid => isPidText pid = true) pids →
  parsePids (lsofOutput pids) = pids.
Proof.
  intros Hpids. unfold parsePids. rewrite (trim_lsofOutput pids Hpids).
  induction Hpids as [| pid rest Hpid Hrest IH]; [reflexivity |].
  destruct (isPidText_inv pid Hpid) as (Hclean & c & tail & Hshape & _).
  assert (pid ≠ EmptyString) as Hne by (rewrite Hshape; discriminate).
  assert ((0 <? String.length pid)%nat = true) as Hlen by (rewrite Hshape; reflexivity).
  destruct rest as [| next more].
  - cbn [joinLines]. rewrite (split_noWhiteSpace pid Hclean Hne).
    cbn [List.filter]. rewrite Hlen. reflexivity.
  - change (joinLines (pid :: next :: more))
      with (pid +:+ String "010" (joinLines (next :: more))).
    rewrite (split_app_noWhiteSpace pid _ Hclean). cbn [List.filter]. rewrite Hlen, IH.
    reflexivity.
Qed.

Lemma parsePids_reads_lsof_output_witness :
  parsePids (lsofOutput ["4242"; "4310"; "77"]%string) = ["4242"; "4310"; "77"]%string.
Proof.
  apply (parsePids_reads_lsof_output ["4242"; "4310"; "77"]%string).
  repeat constructor.
Defined.

Lemma split_pieces_have_no_separator sep s :
  Forall (fun piece => occursIn sep piece = false) (split sep s).
Proof.
  induction s as [| c rest IH]; cbn; [repeat constructor |].
  destruct (Ascii.eqb c sep) eqn:Hc; [constructor; [reflexivity | exact IH] |].
  destruct (split sep rest) as [| piece pieces]; [repeat constructor; cbn; rewrite Hc; reflexivity |].
  inversion IH as [| ? ? Hpiece Hpieces]; subst.
  constructor; [| exact Hpieces]. cbn. rewrite Hc, Hpiece. reflexivity.
Qed.

(** X12. Whatever [lsof] printed, [parsePids] yields no empty process id
    and no id with a line break in it. *)
Theorem parsePids_yields_only_nonempty_lines (stdout : string) :
  Forall (fun pid => pid ≠ EmptyString ∧ occursIn "010" pid = false) (parsePids stdout).
Proof.
  unfold parsePids. apply Forall_forall. intros pid Hin.
  apply list_elem_of_In, List.filter_In in Hin as [Hin Hlen]. split.
  - intros ->. discriminate.
  - pose proof (split_pieces_have_no_separator "010" (trim stdout)) as Hall.
    rewrite Forall_forall in Hall. apply Hall, list_elem_of_In, Hin.
Qed.

End DashboardManagerFacts.

(** ** MetadataService *)

Module MetadataServiceFacts.
Import Js MetadataService.

Ltac unfold_update :=
  unfold criticalSection, tryFinally, readMergeWrite, bind, readMetadata, writeMetadata,
    gets, modify, throw in *.

(** No lock promise is resolved. *)
Definition allPending (s : State) : Prop := ∀ promise, isResolved promise s = false.

Lemma allPending_initial persisted : allPending (initial persisted).
Proof. intros promise. unfold isResolved. cbn. destruct promise; reflexivity. Qed.

Lemma acquireLock_allPending session s :
  allPending s → allPending (snd (acquireLock session s)).
Proof.
  intros Hs promise. unfold acquireLock.
  destruct (locks s !! session); cbn; [apply Hs |].
  specialize (Hs promise). unfold isResolved in *. cbn.
  destruct (decide (promise < length (resolved s))%nat) as [Hlt | Hge].
  - rewrite lookup_app_l by assumption. exact Hs.
  - rewrite lookup_app_r by lia.
    destruct (promise - length (resolved s))%nat; reflexivity.
Qed.

Lemma call_allPending dir session patch b s :
  allPending s → allPending (call dir session patch b s).
Proof.
  intros Hs promise. unfold call.
  pose proof (acquireLock_allPending session s Hs promise) as H.
  destruct (acquireLock session s) as [p s']. exact H.
Qed.

Lemma criticalSection_resolved t s :
  resolved (snd (criticalSection t s)) = resolved s.
Proof.
  unfold_update. destruct (backend t); reflexivity.
Qed.

(** A call suspended on a lock promise does not move, whichever call the
    event loop picks: nothing resolves the promise it waits for. *)
Lemma resume_keeps_waiter j i s t promise :
  allPending s →
  tasks s !! i = Some t → progress t = AwaitingLock promise →
  allPending (resume j s) ∧ tasks (resume j s) !! i = Some t.
Proof.
  intros Hs Hti Hwait. unfold resume.
  destruct (tasks s !! j) as [tj |] eqn:Htj; [| auto].
  destruct (progress tj) as [q | | o] eqn:Hpj; [| | auto].
  - rewrite Hs. auto.
  - assert (j ≠ i) as Hne by (intros ->; congruence).
    pose proof (criticalSection_resolved tj s) as Hres.
    destruct (criticalSection tj s) as [outcome s'] eqn:Hcs. cbn [snd] in Hres.
    split.
    + intros q. specialize (Hs q). unfold isResolved in *. cbn. rewrite Hres. exact Hs.
    + cbn. rewrite list_lookup_alter_ne by assumption.
      unfold_update. destruct (backend tj); injection Hcs as _ <-; exact Hti.
Qed.

Lemma schedule_keeps_waiter order :
  ∀ s i t promise,
    allPending s →
    tasks s !! i = Some t → progress t = AwaitingLock promise →
    tasks (schedule order s) !! i = Some t.
Proof.
  induction order as [| j rest IH]; intros s i t promise Hs Hti Hwait; [exact Hti |].
  cbn. destruct (resume_keeps_waiter j i s t promise Hs Hti Hwait) as [Hs' Hti'].
  exact (IH _ _ _ _ Hs' Hti' Hwait).
Qed.

(** *** Two calls on one session, the second made before the first resumed *)

Section TwoCalls.
Variables (persisted : gmap (string * string) Metadata).
Variables (dir session : string) (patch1 patch2 : Metadata) (b1 b2 : Backend).

Definition bothCalled : State :=
  call dir session patch2 b2 (call dir session patch1 b1 (initial persisted)).

Definition firstTask (p : Progress) : Task :=
  {| dataDir := dir; sessionId := session; updates := patch1; backend := b1; progress := p |}.
Definition secondTask : Task :=
  {| dataDir := dir; sessionId := session; updates := patch2; backend := b2;
     progress := AwaitingLock 0 |}.

Lemma bothCalled_shape :
  bothCalled
  = {| locks := {[session := 0%nat]};
       resolved := [false];
       files := persisted;
       tasks := [firstTask LockAcquired; secondTask] |}.
Proof.
  unfold bothCalled, call at 2, acquireLock, initial. cbn [locks resolved files tasks].
  rewrite lookup_empty. cbn [locks resolved files tasks length app].
  unfold call, acquireLock. cbn [locks resolved files tasks].
  rewrite lookup_insert_eq. cbn. rewrite insert_empty. reflexivity.
Qed.

Lemma bothCalled_allPending : allPending bothCalled.
Proof. unfold bothCalled. do 2 apply call_allPending. apply allPending_initial. Qed.

(** The one step that can happen: the first call runs its critical section. *)
Definition firstDone : State := resume 0 bothCalled.

Lemma firstDone_shape :
  firstDone
  = {| locks := ∅;
       resolved := [false];
       files := match b1 with
                | BackendWorks =>
                    <[(dir, session) := patch1 ∪ default ∅ (persisted !! (dir, session))]> persisted
                | _ => persisted
                end;
       tasks := [firstTask (Settled match b1 with
                                    | BackendWorks => Return tt
                                    | ReadThrows message | WriteThrows message => Throw message
                                    end);
                 secondTask] |}.
Proof.
  unfold firstDone. rewrite bothCalled_shape. unfold resume. cbn [tasks lookup list_lookup].
  cbn. unfold_update. cbn.
  destruct b1; cbn; unfold releaseLock, setProgress; cbn;
    rewrite delete_singleton_eq; reflexivity.
Qed.

Lemma resume_bothCalled i : resume i bothCalled = bothCalled ∨ resume i bothCalled = firstDone.
Proof.
  destruct i as [| i]; [right; reflexivity |]. left.
  rewrite bothCalled_shape. unfold resume. cbn [tasks].
  destruct i as [| [| i]]; reflexivity.
Qed.

Lemma resume_firstDone i : resume i firstDone = firstDone.
Proof.
  rewrite firstDone_shape. unfold resume. cbn [tasks].
  destruct i as [| [| [| i]]]; reflexivity.
Qed.

Lemma schedule_firstDone order : schedule order firstDone = firstDone.
Proof.
  induction order as [| i rest IH]; [reflexivity |].
  cbn. rewrite resume_firstDone. exact IH.
Qed.

(** Whatever the event loop does, the system is in one of two states. *)
Lemma schedule_bothCalled order :
  schedule order bothCalled = bothCalled ∨ schedule order bothCalled = firstDone.
Proof.
  induction order as [| i rest IH]; [left; reflexivity |].
  cbn. destruct (resume_bothCalled i) as [-> | ->]; [exact IH |].
  right. apply schedule_firstDone.
Qed.

(** The second call stays suspended for ever. *)
Lemma second_call_never_resumes order :
  progressOf 1 (schedule order bothCalled) = Some (AwaitingLock 0).
Proof.
  destruct (schedule_bothCalled order) as [-> | ->];
    [rewrite bothCalled_shape | rewrite firstDone_shape]; reflexivity.
Qed.

(** The persisted record never contains more than the first patch. *)
Lemma second_patch_never_written order :
  let before := persisted !! (dir, session) in
  record dir session (schedule order bothCalled) = before
  ∨ record dir session (schedule order bothCalled) = Some (patch1 ∪ default ∅ before).
Proof.
  cbn zeta. unfold record.
  destruct (schedule_bothCalled order) as [-> | ->].
  - left. rewrite bothCalled_shape. reflexivity.
  - rewrite firstDone_shape. cbn [files].
    destruct b1; [right; apply lookup_insert_eq | left; reflexivity ..].
Qed.

End TwoCalls.

(** *** Calls made one after the other, each resumed before the next *)

Definition callAndResume (dir session : string) (s : State) (patch : Metadata) : State :=
  resume (length (tasks s)) (call dir session patch BackendWorks s).

Lemma callAndResume_step dir session s patch :
  locks s !! session = None →
  let s' := callAndResume dir session s patch in
  locks s' !! session = None
  ∧ record dir session s' = Some (patch ∪ default ∅ (record dir session s))
  ∧ progressOf (length (tasks s)) s' = Some (Settled (Return tt)).
Proof.
  intros Hfree. cbn zeta. unfold callAndResume, call, acquireLock. rewrite Hfree.
  cbn [locks resolved files tasks]. unfold resume. cbn [tasks].
  rewrite lookup_app_r by lia. rewrite Nat.sub_diag. cbn [lookup list_lookup progress].
  unfold_update. cbn.
  unfold record, progressOf. cbn.
  rewrite lookup_delete_eq, lookup_insert_eq.
  split; [reflexivity |]. split; [reflexivity |].
  rewrite list_lookup_alter_eq, lookup_app_r by lia. rewrite Nat.sub_diag. reflexivity.
Qed.

(** X21. Without overlap the updates do merge in call order: when each
    update of a session is resumed before the next one is made, starting
    with the lock free, the lock is free again at the end and the persisted
    record is the old one with the patches merged over it one after the
    other, a later patch winning over an earlier one. *)
Lemma sequential_updates_merge_in_order dir session patches :
  ∀ s, locks s !! session = None →
       let s' := fold_left (callAndResume dir session) patches s in
       locks s' !! session = None
       ∧ default ∅ (record dir session s')
         = mergedInOrder patches (default ∅ (record dir session s)).
Proof.
  induction patches as [| patch rest IH]; intros s Hfree; cbn zeta; [auto |].
  cbn [fold_left mergedInOrder].
  destruct (callAndResume_step dir session s patch Hfree) as (Hfree' & Hrec & _).
  destruct (IH _ Hfree') as [Hend Hmerged]. split; [exact Hend |].
  rewrite Hmerged, Hrec. reflexivity.
Qed.

(** *** The two claims on a concrete pair of calls *)

Definition statusPatch : Metadata := {["status" := "working"]}.
Definition branchPatch : Metadata := {["branch" := "main"]}.

(** C1 (defect in the code). Two updates of session "app-1" are made back to
    back, [{status: "working"}] and then [{branch: "main"}], on an empty
    store. Whatever order the event loop resumes calls in, the second call
    stays suspended on the first call's lock promise, which nothing resolves,
    and the persisted record is never the merge of both patches: it is
    absent or holds the first patch alone. *)
Theorem concurrent_updates_second_call_never_completes (order : list nat) :
  let s := schedule order
             (bothCalled ∅ "/data" "app-1" statusPatch branchPatch BackendWorks BackendWorks) in
  progressOf 1 s = Some (AwaitingLock 0)
  ∧ (record "/data" "app-1" s = None ∨ record "/data" "app-1" s = Some statusPatch)
  ∧ record "/data" "app-1" s ≠ Some (mergedInOrder [statusPatch; branchPatch] ∅).
Proof.
  cbn zeta. split; [apply second_call_never_resumes |].
  pose proof (second_patch_never_written ∅ "/data" "app-1" statusPatch branchPatch
                BackendWorks BackendWorks order) as Hrec.
  cbn zeta in Hrec. rewrite lookup_empty in Hrec. cbn [default] in Hrec.
  rewrite (right_id_L ∅ (∪)) in Hrec.
  split; [exact Hrec |].
  assert (mergedInOrder [statusPatch; branchPatch] ∅ !! "branch" = Some "main") as Hbranch
    by (vm_compute; reflexivity).
  assert (statusPatch !! "branch" = None) as Hnone by (vm_compute; reflexivity).
  destruct Hrec as [-> | ->]; [discriminate |].
  intros Heq. apply (inj Some) in Heq. rewrite Heq in Hnone. congruence.
Qed.

(** C2 (defect in the code, the same one). The write of the first of two
    back-to-back updates of session "app-1" throws. Once the first call has
    run, it has settled with that error and the lock entry is gone, but the
    second call is still suspended on the old lock promise and stays so under
    every schedule: it is never granted the lock, and nothing is persisted. *)
Theorem failed_update_leaves_waiter_suspended (order : list nat) :
  let s := schedule order
             (resume 0 (bothCalled ∅ "/data" "app-1" statusPatch branchPatch
                          (WriteThrows "EIO: write failed") BackendWorks)) in
  progressOf 0 s = Some (Settled (Throw "EIO: write failed"))
  ∧ locks s !! "app-1" = None
  ∧ progressOf 1 s = Some (AwaitingLock 0)
  ∧ record "/data" "app-1" s = None.
Proof.
  cbn zeta.
  change (resume 0 (bothCalled ∅ "/data" "app-1" statusPatch branchPatch
                      (WriteThrows "EIO: write failed") BackendWorks))
    with (firstDone ∅ "/data" "app-1" statusPatch branchPatch
            (WriteThrows "EIO: write failed") BackendWorks).
  rewrite schedule_firstDone, firstDone_shape.
  unfold progressOf, record. cbn. rewrite !lookup_empty. auto.
Qed.

(** The error of a failed call reaches that call and no other: a call made
    after it, once it has settled, runs normally. *)
Lemma failed_update_then_fresh_call_succeeds :
  let failed := resume 0 (call "/data" "app-1" statusPatch (ReadThrows "ENOENT")
                            (initial ∅)) in
  let s := callAndResume "/data" "app-1" failed branchPatch in
  progressOf 0 s = Some (Settled (Throw "ENOENT"))
  ∧ progressOf 1 s = Some (Settled (Return tt))
  ∧ record "/data" "app-1" s = Some branchPatch.
Proof. vm_compute. auto. Qed.

(** *** Merging, other records, and updates that do not overlap *)

(** X14. An update that finds the lock free and is resumed merges its patch
    field by field: a field of the patch takes the patch's value, every
    other field of the record keeps the value it had, and no other record
    is touched. *)
Theorem update_merges_field_by_field
    (dir session : string) (s : State) (patch : Metadata) :
  locks s !! session = None →
  let s' := callAndResume dir session s patch in
  (∀ field,
      default ∅ (record dir session s') !! field
      = match patch !! field with
        | Some v => Some v
        | None => default ∅ (record dir session s) !! field
        end)
  ∧ (∀ dir' session', (dir', session') ≠ (dir, session) →
                      record dir' session' s' = record dir' session' s).
Proof.
  intros Hfree. cbn zeta.
  destruct (callAndResume_step dir session s patch Hfree) as (_ & Hrec & _).
  split.
  - intros field. rewrite Hrec. cbn [default]. unfold id at 1. rewrite lookup_union.
    destruct (patch !! field) as [v |]; [| rewrite (left_id_L None (∪)); reflexivity].
    destruct (default ∅ (record dir session s) !! field); reflexivity.
  - intros dir' session' Hother.
    unfold callAndResume, call, acquireLock. rewrite Hfree.
    cbn [locks resolved files tasks]. unfold resume. cbn [tasks].
    rewrite lookup_app_r by lia. rewrite Nat.sub_diag. cbn [lookup list_lookup progress].
    unfold_update. cbn. unfold record. cbn. apply lookup_insert_ne. congruence.
Qed.

Lemma update_merges_field_by_field_witness :
  let s := initial {[("/data", "app-1")%string := statusPatch]} in
  let s' := callAndResume "/data" "app-1" s branchPatch in
  (∀ field,
      default ∅ (record "/data" "app-1" s') !! field
      = match branchPatch !! field with
        | Some v => Some v
        | None => default ∅ (record "/data" "app-1" s) !! field
        end)
  ∧ (∀ dir' session', (dir', session') ≠ ("/data", "app-1")%string →
                      record dir' session' s' = record dir' session' s).
Proof.
  apply (update_merges_field_by_field "/data" "app-1"
           (initial {[("/data", "app-1")%string := statusPatch]}) branchPatch).
  reflexivity.
Defined.

Lemma sequential_updates_merge_in_order_witness :
  let s := initial ∅ in
  let s' := fold_left (callAndResume "/data" "app-1") [statusPatch; branchPatch] s in
  locks s' !! "app-1"%string = None
  ∧ default ∅ (record "/data" "app-1" s')
    = mergedInOrder [statusPatch; branchPatch] (default ∅ (record "/data" "app-1" s)).
Proof.
  apply (sequential_updates_merge_in_order "/data" "app-1" [statusPatch; branchPatch]
           (initial ∅)).
  reflexivity.
Defined.

(** *** Any number of calls made back to back on one session *)

(** Every call after the first is suspended on a lock promise. *)
Definition othersWait (s : State) : Prop :=
  ∀ i t, tasks s !! S i = Some t → ∃ promise, progress t = AwaitingLock promise.

Lemma call_on_held_lock dir session patch b s promise :
  locks s !! session = Some promise →
  call dir session patch b s
  = {| locks := locks s; resolved := resolved s; files := files s;
       tasks := tasks s ++ [{| dataDir := dir; sessionId := session; updates := patch;
                               backend := b; progress := AwaitingLock promise |}] |}.
Proof. intros Hheld. unfold call, acquireLock. rewrite Hheld. reflexivity. Qed.

Definition callAll (dir session : string) (patches : list Metadata) (s : State) : State :=
  fold_left (fun s patch => call dir session patch BackendWorks s) patches s.

Lemma callAll_on_held_lock dir session patches :
  ∀ s promise,
    locks s !! session = Some promise → tasks s ≠ [] →
    allPending s → othersWait s →
    let s' := callAll dir session patches s in
    locks s' = locks s ∧ files s' = files s
    ∧ tasks s' !! 0%nat = tasks s !! 0%nat
    ∧ length (tasks s') = (length (tasks s) + length patches)%nat
    ∧ allPending s' ∧ othersWait s'.
Proof.
  induction patches as [| patch rest IH]; intros s promise Hheld Hne Hpend Hwait; cbn zeta.
  - cbn. rewrite Nat.add_0_r. repeat split; assumption.
  - change (callAll dir session (patch :: rest) s)
      with (callAll dir session rest (call dir session patch BackendWorks s)).
    pose proof (call_on_held_lock dir session patch BackendWorks s promise Hheld) as Hcall.
    destruct (IH (call dir session patch BackendWorks s) promise) as (Hl & Hf & H0 & Hlen & Hp & Hw).
    + rewrite Hcall. exact Hheld.
    + rewrite Hcall. cbn. destruct (tasks s); discriminate.
    + apply call_allPending, Hpend.
    + rewrite Hcall. intros i t Hi. cbn [tasks] in Hi.
      destruct (decide (S i < length (tasks s))%nat) as [Hlt | Hge].
      * rewrite lookup_app_l in Hi by exact Hlt. exact (Hwait i t Hi).
      * rewrite lookup_app_r in Hi by lia.
        destruct (S i - length (tasks s))%nat; [| destruct n; discriminate].
        injection Hi as <-. eauto.
    + split; [rewrite Hl, Hcall; reflexivity |].
      split; [rewrite Hf, Hcall; reflexivity |].
      split; [rewrite H0, Hcall; cbn [tasks];
              destruct (tasks s); [contradiction | reflexivity] |].
      split; [rewrite Hlen, Hcall; cbn [tasks]; rewrite length_app; cbn [length]; lia |].
      split; assumption.
Qed.

Lemma resume_waiter_is_idle i s :
  allPending s → othersWait s → resume (S i) s = s.
Proof.
  intros Hpend Hwait. unfold resume.
  destruct (tasks s !! S i) as [t |] eqn:Ht; [| reflexivity].
  destruct (Hwait i t Ht) as [promise ->]. rewrite Hpend. reflexivity.
Qed.

Lemma resume_first_keeps_waiters s :
  allPending s → othersWait s →
  allPending (resume 0 s) ∧ othersWait (resume 0 s).
Proof.
  intros Hpend Hwait. unfold resume.
  destruct (tasks s !! 0%nat) as [t |] eqn:Ht; [| auto].
  destruct (progress t) as [promise | | outcome]; [rewrite Hpend; auto | | auto].
  pose proof (criticalSection_resolved t s) as Hres.
  destruct (criticalSection t s) as [outcome s'] eqn:Hcs. cbn [snd] in Hres.
  assert (tasks s' = tasks s) as Htasks.
  { unfold_update. destruct (backend t); injection Hcs as _ <-; reflexivity. }
  split.
  - intros q. specialize (Hpend q). unfold isResolved in *. cbn. rewrite Hres. exact Hpend.
  - intros i t' Hi. cbn in Hi. rewrite list_lookup_alter_ne in Hi by discriminate.
    rewrite Htasks in Hi. exact (Hwait i t' Hi).
Qed.

Lemma resume_first_twice s :
  allPending s → resume 0 (resume 0 s) = resume 0 s.
Proof.
  intros Hpend.
  destruct (tasks s !! 0%nat) as [t |] eqn:Ht.
  2: { assert (resume 0 s = s) as -> by (unfold resume; rewrite Ht; reflexivity).
       unfold resume. rewrite Ht. reflexivity. }
  destruct (progress t) as [promise | | outcome] eqn:Hp.
  - assert (resume 0 s = s) as Hr by (unfold resume; rewrite Ht, Hp, Hpend; reflexivity).
    rewrite !Hr. reflexivity.
  - destruct (criticalSection t s) as [outcome s'] eqn:Hcs.
    assert (tasks s' = tasks s) as Htasks.
    { unfold_update. destruct (backend t); injection Hcs as _ <-; reflexivity. }
    assert (resume 0 s = setProgress 0 (Settled outcome) s') as Hr
      by (unfold resume; rewrite Ht, Hp, Hcs; reflexivity).
    rewrite Hr. unfold resume. cbn [tasks setProgress].
    rewrite list_lookup_alter_eq, Htasks, Ht. reflexivity.
  - assert (resume 0 s = s) as Hr by (unfold resume; rewrite Ht, Hp; reflexivity).
    rewrite !Hr. reflexivity.
Qed.

Lemma schedule_cons i order s : schedule (i :: order) s = schedule order (resume i s).
Proof. reflexivity. Qed.

Section ManyCalls.
Variables (persisted : gmap (string * string) Metadata).
Variables (dir session : string) (first : Metadata) (rest : list Metadata).

Definition allCalled : State :=
  callAll dir session rest (call dir session first BackendWorks (initial persisted)).

Definition firstCallTask : Task :=
  {| dataDir := dir; sessionId := session; updates := first; backend := BackendWorks;
     progress := LockAcquired |}.

Lemma allCalled_facts :
  files allCalled = persisted
  ∧ tasks allCalled !! 0%nat = Some firstCallTask
  ∧ length (tasks allCalled) = S (length rest)
  ∧ allPending allCalled ∧ othersWait allCalled.
Proof.
  unfold allCalled.
  assert (call dir session first BackendWorks (initial persisted)
          = {| locks := {[session := 0%nat]}; resolved := [false]; files := persisted;
               tasks := [firstCallTask] |}) as Hfirst.
  { unfold call, acquireLock, initial. cbn [locks resolved files tasks].
    rewrite lookup_empty. cbn. rewrite insert_empty. reflexivity. }
  destruct (callAll_on_held_lock dir session rest
              (call dir session first BackendWorks (initial persisted)) 0%nat)
    as (_ & Hf & H0 & Hlen & Hp & Hw).
  - rewrite Hfirst. cbn. apply lookup_singleton_eq.
  - rewrite Hfirst. discriminate.
  - apply call_allPending, allPending_initial.
  - rewrite Hfirst. intros i t Hi. cbn in Hi. destruct i; discriminate.
  - rewrite Hf, H0, Hlen, Hfirst. cbn. auto.
Qed.

Definition firstRan : State := resume 0 allCalled.

Lemma firstRan_facts :
  record dir session firstRan = Some (first ∪ default ∅ (persisted !! (dir, session)))
  ∧ progressOf 0 firstRan = Some (Settled (Return tt))
  ∧ length (tasks firstRan) = S (length rest)
  ∧ allPending firstRan ∧ othersWait firstRan.
Proof.
  destruct allCalled_facts as (Hf & H0 & Hlen & Hp & Hw).
  destruct (resume_first_keeps_waiters allCalled Hp Hw) as [Hp' Hw'].
  split; [| split; [| split; [| auto]]].
  - unfold firstRan, resume. rewrite H0. cbn [progress firstCallTask].
    unfold_update. cbn. unfold record. cbn. rewrite Hf. apply lookup_insert_eq.
  - unfold firstRan, resume. rewrite H0. cbn [progress firstCallTask].
    unfold_update. cbn. unfold progressOf. cbn. rewrite list_lookup_alter_eq, H0. reflexivity.
  - unfold firstRan, resume. rewrite H0. cbn [progress firstCallTask].
    unfold_update. cbn. rewrite length_alter. exact Hlen.
Qed.

Lemma schedule_firstRan order : schedule order firstRan = firstRan.
Proof.
  destruct allCalled_facts as (_ & _ & _ & Hp & Hw).
  destruct firstRan_facts as (_ & _ & _ & Hp' & Hw').
  induction order as [| [| i] more IH]; [reflexivity | |]; rewrite schedule_cons.
  - unfold firstRan at 1. rewrite (resume_first_twice allCalled Hp). exact IH.
  - rewrite (resume_waiter_is_idle i firstRan Hp' Hw'). exact IH.
Qed.

Lemma schedule_allCalled order :
  schedule order allCalled = if bool_decide (0%nat ∈ order) then firstRan else allCalled.
Proof.
  destruct allCalled_facts as (_ & _ & _ & Hp & Hw).
  induction order as [| [| i] more IH]; [reflexivity | |]; rewrite schedule_cons.
  - rewrite bool_decide_eq_true_2 by left. apply schedule_firstRan.
  - rewrite (resume_waiter_is_idle i allCalled Hp Hw), IH.
    destruct (bool_decide_reflect (0%nat ∈ more)) as [Hin | Hnot].
    + rewrite bool_decide_eq_true_2 by (right; exact Hin). reflexivity.
    + rewrite bool_decide_eq_false_2; [reflexivity |].
      rewrite not_elem_of_cons. split; [discriminate | exact Hnot].
Qed.

End ManyCalls.

(** X16. Of any number of updates of one session made back to back on a free
    lock, only the first can complete: under every schedule each later call
    stays suspended on a lock promise, and the persisted record is the old
    one or the old one merged with the first patch, the latter as soon as
    the first call has been resumed. *)
Theorem only_the_first_of_back_to_back_updates_completes
    (persisted : gmap (string * string) Metadata) (dir session : string)
    (first : Metadata) (rest : list Metadata) (order : list nat) :
  let s := schedule order (allCalled persisted dir session first rest) in
  let before := persisted !! (dir, session) in
  (∀ i, (1 ≤ i ≤ length rest)%nat →
        ∃ promise, progressOf i s = Some (AwaitingLock promise))
  ∧ (if bool_decide (0%nat ∈ order)
     then progressOf 0 s = Some (Settled (Return tt))
          ∧ record dir session s = Some (first ∪ default ∅ before)
     else progressOf 0 s = Some LockAcquired ∧ record dir session s = before).
Proof.
  cbn zeta.
  destruct (allCalled_facts persisted dir session first rest) as (Hf & H0 & Hlen & Hp & Hw).
  destruct (firstRan_facts persisted dir session first rest) as (Hrec & Hdone & Hlen' & Hp' & Hw').
  assert (Hwaiters : ∀ s', length (tasks s') = S (length rest) → othersWait s' →
                           ∀ i, (1 ≤ i ≤ length rest)%nat →
                                ∃ promise, progressOf i s' = Some (AwaitingLock promise)).
  { intros s' Hlength Hwait [| i] Hi; [lia |].
    destruct (lookup_lt_is_Some_2 (tasks s') (S i)) as [t Ht]; [lia |].
    destruct (Hwait i t Ht) as [promise Hpromise]. exists promise.
    unfold progressOf. rewrite Ht. cbn. rewrite Hpromise. reflexivity. }
  rewrite (schedule_allCalled persisted dir session first rest order).
  destruct (bool_decide (0%nat ∈ order)).
  - split; [apply Hwaiters; assumption | auto].
  - split; [apply Hwaiters; assumption |].
    unfold progressOf, record. rewrite H0, Hf. auto.
Qed.

(** *** Two calls on different sessions *)

Definition progressAfter (done : bool) : Progress :=
  if done then Settled (Return tt) else LockAcquired.

Section TwoSessions.
Variables (persisted : gmap (string * string) Metadata).
Variables (dir1 session1 dir2 session2 : string) (patch1 patch2 : Metadata).
Hypothesis distinct : session1 ≠ session2.

Definition twoSessions : State :=
  call dir2 session2 patch2 BackendWorks
    (call dir1 session1 patch1 BackendWorks (initial persisted)).

Definition recordAfter (done : bool) (dir session : string) (patch : Metadata) :
    option Metadata :=
  if done then Some (patch ∪ default ∅ (persisted !! (dir, session)))
  else persisted !! (dir, session).

(** What holds of the state when the first call has run iff [d1] and the
    second iff [d2]. Nothing is said of the [locks] map: a call that holds
    its lock does not read it any more. *)
Definition ranSoFar (d1 d2 : bool) (s : State) : Prop :=
  tasks s = [ {| dataDir := dir1; sessionId := session1; updates := patch1;
                 backend := BackendWorks; progress := progressAfter d1 |};
              {| dataDir := dir2; sessionId := session2; updates := patch2;
                 backend := BackendWorks; progress := progressAfter d2 |} ]
  ∧ files s !! (dir1, session1) = recordAfter d1 dir1 session1 patch1
  ∧ files s !! (dir2, session2) = recordAfter d2 dir2 session2 patch2
  ∧ (∀ key, key ≠ (dir1, session1) → key ≠ (dir2, session2) →
            files s !! key = persisted !! key).

Lemma twoSessions_ranSoFar : ranSoFar false false twoSessions.
Proof.
  unfold twoSessions, call at 2, acquireLock, initial. cbn [locks resolved files tasks].
  rewrite lookup_empty. cbn [locks resolved files tasks length app].
  unfold call, acquireLock. cbn [locks resolved files tasks].
  rewrite lookup_insert_ne by exact distinct. rewrite lookup_empty.
  repeat split.
Qed.

Lemma resume_ranSoFar i d1 d2 s :
  ranSoFar d1 d2 s →
  ranSoFar (d1 || bool_decide (i = 0%nat)) (d2 || bool_decide (i = 1%nat)) (resume i s).
Proof.
  intros (Htasks & Hrec1 & Hrec2 & Hothers).
  assert ((dir1, session1) ≠ (dir2, session2)) as Hkeys by congruence.
  unfold resume. rewrite Htasks.
  destruct i as [| [| i]].
  - rewrite (bool_decide_eq_true_2 (0%nat = 0%nat)) by reflexivity.
    rewrite (bool_decide_eq_false_2 (0%nat = 1%nat)) by discriminate.
    rewrite orb_true_r, orb_false_r. cbn [lookup list_lookup progress].
    destruct d1; cbn [progressAfter]; [repeat split; assumption |].
    unfold_update. cbn. unfold ranSoFar. cbn [tasks files setProgress releaseLock].
    rewrite Htasks. cbn [alter list_alter].
    rewrite lookup_insert_eq, lookup_insert_ne by exact Hkeys.
    rewrite Hrec1. unfold recordAfter at 1 2.
    split; [reflexivity |]. split; [reflexivity |]. split; [exact Hrec2 |].
    intros key Hk1 Hk2. rewrite lookup_insert_ne by congruence.
    apply Hothers; assumption.
  - rewrite (bool_decide_eq_true_2 (1%nat = 1%nat)) by reflexivity.
    rewrite (bool_decide_eq_false_2 (1%nat = 0%nat)) by discriminate.
    rewrite orb_true_r, orb_false_r. cbn [lookup list_lookup progress].
    destruct d2; cbn [progressAfter]; [repeat split; assumption |].
    unfold_update. cbn. unfold ranSoFar. cbn [tasks files setProgress releaseLock].
    rewrite Htasks. cbn [alter list_alter].
    rewrite lookup_insert_eq, lookup_insert_ne by (intros Heq; apply Hkeys; congruence).
    rewrite Hrec2. unfold recordAfter at 2 3.
    split; [reflexivity |]. split; [exact Hrec1 |]. split; [reflexivity |].
    intros key Hk1 Hk2. rewrite lookup_insert_ne by congruence.
    apply Hothers; assumption.
  - rewrite (bool_decide_eq_false_2 (S (S i) = 0%nat)) by discriminate.
    rewrite (bool_decide_eq_false_2 (S (S i) = 1%nat)) by discriminate.
    rewrite !orb_false_r. cbn [lookup list_lookup]. repeat split; assumption.
Qed.

Lemma schedule_ranSoFar order :
  ∀ d1 d2 s,
    ranSoFar d1 d2 s →
    ranSoFar (d1 || bool_decide (0%nat ∈ order)) (d2 || bool_decide (1%nat ∈ order))
             (schedule order s).
Proof.
  induction order as [| i more IH]; intros d1 d2 s Hs.
  - rewrite !orb_false_r. exact Hs.
  - rewrite schedule_cons.
    pose proof (IH _ _ _ (resume_ranSoFar i d1 d2 s Hs)) as Hend.
    assert (∀ n : nat, bool_decide (n ∈ i :: more)
                       = bool_decide (i = n) || bool_decide (n ∈ more)) as Hmem.
    { intros n. apply eq_true_iff_eq.
      rewrite orb_true_iff, !bool_decide_eq_true, elem_of_cons. intuition congruence. }
    rewrite !Hmem, !orb_assoc. exact Hend.
Qed.

End TwoSessions.

(** X15. Updates of different sessions do not wait for each other. Two
    updates made back to back, one per session, both hold their lock at
    once; whatever the event loop does, each one completes the first time it
    is resumed and merges its patch into its own record, and every other
    record is left alone. *)
Theorem updates_of_different_sessions_do_not_block
    (persisted : gmap (string * string) Metadata)
    (dir1 session1 dir2 session2 : string) (patch1 patch2 : Metadata)
    (order : list nat) :
  session1 ≠ session2 →
  let s := schedule order (twoSessions persisted dir1 session1 dir2 session2 patch1 patch2) in
  let ran1 := bool_decide (0%nat ∈ order) in
  let ran2 := bool_decide (1%nat ∈ order) in
  progressOf 0 s = Some (progressAfter ran1)
  ∧ progressOf 1 s = Some (progressAfter ran2)
  ∧ record dir1 session1 s = recordAfter persisted ran1 dir1 session1 patch1
  ∧ record dir2 session2 s = recordAfter persisted ran2 dir2 session2 patch2
  ∧ (∀ dir session, (dir, session) ≠ (dir1, session1) → (dir, session) ≠ (dir2, session2) →
                    record dir session s = record dir session (initial persisted)).
Proof.
  intros Hdistinct. cbn zeta.
  pose proof (schedule_ranSoFar persisted dir1 session1 dir2 session2 patch1 patch2
                Hdistinct order false false _
                (twoSessions_ranSoFar persisted dir1 session1 dir2 session2 patch1 patch2
                   Hdistinct))
    as (Htasks & Hrec1 & Hrec2 & Hothers).
  cbn [orb] in *. unfold progressOf, record. rewrite Htasks.
  split; [reflexivity |]. split; [reflexivity |].
  split; [exact Hrec1 |]. split; [exact Hrec2 |].
  intros dir session H1 H2. apply Hothers; assumption.
Qed.

Lemma updates_of_different_sessions_do_not_block_witness :
  let s := schedule [1%nat; 0%nat]
             (twoSessions ∅ "/data" "app-1" "/data" "app-2" statusPatch branchPatch) in
  let ran1 := bool_decide (0%nat ∈ [1%nat; 0%nat]) in
  let ran2 := bool_decide (1%nat ∈ [1%nat; 0%nat]) in
  progressOf 0 s = Some (progressAfter ran1)
  ∧ progressOf 1 s = Some (progressAfter ran2)
  ∧ record "/data" "app-1" s = recordAfter ∅ ran1 "/data" "app-1" statusPatch
  ∧ record "/data" "app-2" s = recordAfter ∅ ran2 "/data" "app-2" branchPatch
  ∧ (∀ dir session, (dir, session) ≠ ("/data", "app-1")%string →
                    (dir, session) ≠ ("/data", "app-2")%string →
                    record dir session s = record dir session (initial ∅)).
Proof.
  apply (updates_of_different_sessions_do_not_block ∅ "/data" "app-1" "/data" "app-2"
           statusPatch branchPatch [1%nat; 0%nat]).
  discriminate.
Defined.

End MetadataServiceFacts.

(** ** TTLCache *)

Module CacheFacts.
Import Cache.
Import Js (occursIn).

Section TTLCache.
Context {T : Type}.
Implicit Types (c : TTLCache T) (e : CacheEntry T).

Lemma isStale_spec age ttl : isStale age ttl = true ↔ 3 * ttl < 4 * age.
Proof.
  unfold isStale, Qle_bool. cbn. rewrite negb_true_iff, Z.leb_gt. lia.
Qed.

(** Staleness is the comparison of the age with three quarters of the TTL. *)
Lemma isStale_three_quarters age ttl :
  isStale age ttl = true ↔ (inject_Z ttl * (3 # 4) < inject_Z age)%Q.
Proof. rewrite isStale_spec. unfold Qlt. cbn. lia. Qed.

Lemma perform_ttlMs c call : ttlMs (perform c call) = ttlMs c.
Proof.
  destruct call as [now key v | now key | now key | now |]; cbn; try reflexivity.
  - unfold get. destruct (getWithMetadata now key c) as [cached c'] eqn:Hget. cbn.
    unfold getWithMetadata in Hget.
    destruct (cache c !! key) as [e |]; [destruct (expiresAt e <? now) |];
      injection Hget as _ <-; reflexivity.
  - unfold getWithMetadata.
    destruct (cache c !! key) as [e |]; [destruct (expiresAt e <? now) |]; reflexivity.
Qed.

Lemma performAll_ttlMs calls : ∀ c, ttlMs (performAll calls c) = ttlMs c.
Proof.
  induction calls as [| call rest IH]; intros c; [reflexivity |].
  cbn. unfold performAll in IH. rewrite IH. apply perform_ttlMs.
Qed.

Lemma getWithMetadata_entries now key c :
  entriesExpireAfterTtl c → entriesExpireAfterTtl (snd (getWithMetadata now key c)).
Proof.
  intros Hc. unfold getWithMetadata.
  destruct (cache c !! key) as [e |]; [destruct (expiresAt e <? now) |]; cbn; try exact Hc.
  intros k e' Hk. cbn in *. apply lookup_delete_Some in Hk as [_ Hk]. exact (Hc k e' Hk).
Qed.

Lemma perform_entries c call :
  entriesExpireAfterTtl c → entriesExpireAfterTtl (perform c call).
Proof.
  intros Hc. destruct call as [now key v | now key | now key | now |]; cbn.
  - intros k e Hk. cbn in *. apply lookup_insert_Some in Hk as [[_ <-] | [_ Hk]];
      [reflexivity | exact (Hc k e Hk)].
  - unfold get. pose proof (getWithMetadata_entries now key c Hc) as H.
    destruct (getWithMetadata now key c) as [cached c']. exact H.
  - apply getWithMetadata_entries, Hc.
  - intros k e Hk. cbn in *. apply map_lookup_filter_Some in Hk as [Hk _]. exact (Hc k e Hk).
  - intros k e Hk. cbn in Hk. rewrite lookup_empty in Hk. discriminate.
Qed.

(** In every cache reached from a new one, an entry expires one TTL after it
    was cached. *)
Lemma performAll_entries calls :
  ∀ c, entriesExpireAfterTtl c → entriesExpireAfterTtl (performAll calls c).
Proof.
  induction calls as [| call rest IH]; intros c Hc; [exact Hc |].
  cbn. apply IH, perform_entries, Hc.
Qed.

Lemma new_entries ttl : entriesExpireAfterTtl (new (T := T) ttl).
Proof. intros k e Hk. cbn in Hk. rewrite lookup_empty in Hk. discriminate. Qed.

(** What a look-up of a stored entry does, by its age. *)
Lemma getWithMetadata_stored now key c e :
  entriesExpireAfterTtl c → cache c !! key = Some e →
  getWithMetadata now key c
  = if bool_decide (ttlMs c < now - cachedAt e)
    then (None, {| cache := delete key (cache c); ttlMs := ttlMs c |})
    else (Some {| cv_value := value e; cv_cachedAt := cachedAt e;
                  ageMs := now - cachedAt e; cv_ttlMs := ttlMs c;
                  stale := isStale (now - cachedAt e) (ttlMs c) |}, c).
Proof.
  intros Hc Hk. unfold getWithMetadata. rewrite Hk, (Hc key e Hk).
  destruct (Z.ltb_spec (cachedAt e + ttlMs c) now) as [Hlt | Hge].
  - rewrite bool_decide_eq_true_2 by lia. reflexivity.
  - rewrite bool_decide_eq_false_2 by lia. reflexivity.
Qed.

Lemma set_lookup t0 key v c :
  cache (set t0 key v c) !! key
  = Some {| value := v; cachedAt := t0; expiresAt := t0 + ttlMs c |}.
Proof. cbn. apply lookup_insert_eq. Qed.

(** C8. An entry written at [t0] into a cache with a TTL of 60000 ms is
    returned at [t0 + 46000] with [ageMs = 46000] and [stale = true], and at
    [t0 + 61000] the look-up returns nothing and deletes the entry. In any
    cache reached from a new one by any calls, a stored entry whose age
    exceeds the TTL is not returned by [getWithMetadata] or [get] and is
    deleted by that look-up; otherwise it is returned with its age, and it
    is stale exactly when the age exceeds 0.75 times the TTL. *)
Theorem cache_entry_lifetime (calls : list (Call T)) (t0 : Z) (key : string) (v : T) :
  (let c := set t0 key v (performAll calls (new 60000)) in
   getWithMetadata (t0 + 46000) key c
   = (Some {| cv_value := v; cv_cachedAt := t0; ageMs := 46000;
              cv_ttlMs := 60000; stale := true |}, c)
   ∧ get (t0 + 46000) key c = (Some v, c)
   ∧ getWithMetadata (t0 + 61000) key c
     = (None, {| cache := delete key (cache c); ttlMs := 60000 |})
   ∧ get (t0 + 61000) key c
     = (None, {| cache := delete key (cache c); ttlMs := 60000 |})
   ∧ cache (snd (get (t0 + 61000) key c)) !! key = None)
  ∧ (∀ ttl k e now,
       let c := performAll calls (new ttl) in
       cache c !! k = Some e →
       let age := now - cachedAt e in
       if bool_decide (ttl < age)
       then getWithMetadata now k c = (None, {| cache := delete k (cache c); ttlMs := ttl |})
            ∧ get now k c = (None, {| cache := delete k (cache c); ttlMs := ttl |})
       else ∃ cv, getWithMetadata now k c = (Some cv, c)
                  ∧ get now k c = (Some (value e), c)
                  ∧ cv_value cv = value e
                  ∧ ageMs cv = age
                  ∧ (stale cv = true ↔ (inject_Z ttl * (3 # 4) < inject_Z age)%Q)).
Proof.
  split.
  - cbn zeta.
    set (c0 := performAll calls (new 60000)).
    assert (ttlMs c0 = 60000) as Httl by (unfold c0; rewrite performAll_ttlMs; reflexivity).
    assert (entriesExpireAfterTtl (set t0 key v c0)) as Hinv.
    { apply (perform_entries c0 (CallSet t0 key v)), performAll_entries, new_entries. }
    assert (∀ now, getWithMetadata now key (set t0 key v c0)
                   = if bool_decide (60000 < now - t0)
                     then (None, {| cache := delete key (cache (set t0 key v c0));
                                    ttlMs := 60000 |})
                     else (Some {| cv_value := v; cv_cachedAt := t0; ageMs := now - t0;
                                   cv_ttlMs := 60000; stale := isStale (now - t0) 60000 |},
                           set t0 key v c0)) as Hget.
    { intros now.
      rewrite (getWithMetadata_stored now key _ _ Hinv (set_lookup t0 key v c0)).
      cbn [ttlMs set value cachedAt]. rewrite Httl. reflexivity. }
    unfold get. rewrite !Hget.
    replace (t0 + 46000 - t0) with 46000 by lia.
    replace (t0 + 61000 - t0) with 61000 by lia.
    rewrite (bool_decide_eq_false_2 (60000 < 46000)) by lia.
    rewrite (bool_decide_eq_true_2 (60000 < 61000)) by lia.
    change (isStale 46000 60000) with true.
    cbn [fst snd cv_value cache]. rewrite lookup_delete_eq. auto.
  - intros ttl k e now. cbn zeta. intros Hk.
    set (c := performAll calls (new ttl)) in *.
    assert (ttlMs c = ttl) as Httl by (unfold c; rewrite performAll_ttlMs; reflexivity).
    assert (entriesExpireAfterTtl c) as Hinv by apply performAll_entries, new_entries.
    unfold get. rewrite (getWithMetadata_stored now k c e Hinv Hk), Httl.
    destruct (bool_decide (ttl < now - cachedAt e)); [auto |].
    eexists. split; [reflexivity |]. cbn. split; [reflexivity |].
    split; [reflexivity |]. split; [reflexivity |]. apply isStale_three_quarters.
Qed.

(** A key counts as live exactly when its entry is not expired. *)
Lemma live_iff_not_expired now c k e :
  cache c !! k = Some e →
  bool_decide (is_Some (fst (get now k c))) = negb (expiresAt e <? now).
Proof.
  intros Hk. unfold get, getWithMetadata. rewrite Hk.
  destruct (expiresAt e <? now); reflexivity.
Qed.

Lemma size_live_plus_expired now c :
  size c = (liveKeys now c + expiredKeys now c)%nat.
Proof.
  unfold size, liveKeys, expiredKeys.
  rewrite <- size_dom. unfold base.size at 1, set_size. cbn.
  rewrite <- (List.filter_length
                (fun k => bool_decide (is_Some (fst (get now k c))))
                (elements (dom (cache c)))).
  f_equal. f_equal. apply List.filter_ext_in. intros k Hk.
  apply list_elem_of_In, elem_of_elements, elem_of_dom in Hk as [e He].
  rewrite He, (live_iff_not_expired now c k e He), negb_involutive. reflexivity.
Qed.

(** *** The sweep, round trips and what a look-up leaves alone *)

(** The live keys are the entries the sweep keeps. *)
Lemma liveKeys_size_filter now c :
  liveKeys now c
  = base.size (filter (fun kv => ¬ (expiresAt (snd kv) < now)) (cache c)).
Proof.
  unfold liveKeys. rewrite <- size_dom. unfold base.size at 1, set_size. cbn.
  apply Permutation_length, NoDup_Permutation.
  - apply NoDup_ListNoDup, List.NoDup_filter, NoDup_ListNoDup, NoDup_elements.
  - apply NoDup_elements.
  - intros k. rewrite list_elem_of_In, List.filter_In, <- list_elem_of_In.
    rewrite !elem_of_elements, !elem_of_dom. split.
    + intros [[e He] Hlive]. exists e. apply map_lookup_filter_Some. split; [exact He |].
      rewrite (live_iff_not_expired now c k e He) in Hlive.
      apply negb_true_iff, Z.ltb_ge in Hlive. cbn. lia.
    + intros [e He]. apply map_lookup_filter_Some in He as [He Hlive]. cbn in Hlive.
      split; [exists e; exact He |].
      rewrite (live_iff_not_expired now c k e He).
      apply negb_true_iff, Z.ltb_ge. lia.
Qed.

Lemma getWithMetadata_evictExpired now k c :
  fst (getWithMetadata now k (evictExpired now c)) = fst (getWithMetadata now k c).
Proof.
  unfold getWithMetadata, evictExpired. cbn [cache ttlMs].
  destruct (cache c !! k) as [e |] eqn:He.
  - destruct (Z.ltb_spec (expiresAt e) now) as [Hexp | Hlive].
    + rewrite (proj2 (map_lookup_filter_None _ _ _)); [reflexivity |].
      right. intros e' He'. cbn. assert (e' = e) as -> by congruence. lia.
    + rewrite (proj2 (map_lookup_filter_Some _ _ _ _)) by (split; [exact He | cbn; lia]).
      rewrite (proj2 (Z.ltb_ge _ _)) by lia. reflexivity.
  - rewrite (proj2 (map_lookup_filter_None _ _ _)); [reflexivity |]. left. exact He.
Qed.

(** X1. The sweep [evictExpired] deletes exactly the expired entries: what
    is left is as many entries as there were live keys, none of them
    expired, and no look-up made at that moment can tell that the sweep has
    run. *)
Theorem evictExpired_keeps_exactly_the_live_entries (now : Z) c :
  size (evictExpired now c) = liveKeys now c
  ∧ expiredKeys now (evictExpired now c) = 0%nat
  ∧ liveKeys now (evictExpired now c) = liveKeys now c
  ∧ (∀ k, fst (getWithMetadata now k (evictExpired now c)) = fst (getWithMetadata now k c))
  ∧ (∀ k, fst (get now k (evictExpired now c)) = fst (get now k c)).
Proof.
  assert (size (evictExpired now c) = liveKeys now c) as Hsize
    by (rewrite liveKeys_size_filter; reflexivity).
  assert (∀ k, fst (get now k (evictExpired now c)) = fst (get now k c)) as Hget.
  { intros k. unfold get.
    pose proof (getWithMetadata_evictExpired now k c) as H.
    destruct (getWithMetadata now k (evictExpired now c)) as [r1 c1].
    destruct (getWithMetadata now k c) as [r2 c2]. cbn in *. rewrite H. reflexivity. }
  assert (expiredKeys now (evictExpired now c) = 0%nat) as Hnone.
  { unfold expiredKeys. apply length_zero_iff_nil.
    destruct (List.filter _ _) as [| k rest] eqn:Hf; [reflexivity |].
    assert (In k (k :: rest)) as Hin by (left; reflexivity).
    rewrite <- Hf in Hin. apply List.filter_In in Hin as [_ Hexp].
    cbn [evictExpired cache] in Hexp.
    destruct (filter _ (cache c) !! k) as [e |] eqn:He; [| discriminate].
    apply map_lookup_filter_Some in He as [_ Hlive]. cbn in Hlive.
    apply Z.ltb_lt in Hexp. lia. }
  split; [exact Hsize |]. split; [exact Hnone |].
  split; [| split; [intros k; apply getWithMetadata_evictExpired | exact Hget]].
  pose proof (size_live_plus_expired now (evictExpired now c)) as Hsplit.
  rewrite Hnone, Hsize in Hsplit. lia.
Qed.

(** X2. What [set] stores, [get] returns until the TTL has run out, leaving
    the cache as it is; and writing one key changes the answer for no other
    key. *)
Theorem set_get_round_trip (t0 now : Z) (key : string) (v : T) c :
  now ≤ t0 + ttlMs c →
  get now key (set t0 key v c) = (Some v, set t0 key v c)
  ∧ ∀ k, k ≠ key → fst (get now k (set t0 key v c)) = fst (get now k c).
Proof.
  intros Hfresh. split.
  - unfold get, getWithMetadata. rewrite set_lookup. cbn [expiresAt value cachedAt].
    rewrite (proj2 (Z.ltb_ge _ _)) by lia. reflexivity.
  - intros k Hk. unfold get, getWithMetadata. cbn [set cache ttlMs].
    rewrite lookup_insert_ne by congruence.
    destruct (cache c !! k) as [e |]; [| reflexivity].
    destruct (expiresAt e <? now); reflexivity.
Qed.

(** X3. A look-up never adds an entry and never touches another key: the
    cache afterwards is the cache before, or the cache before without the
    looked-up key, and the latter only when that key's entry was expired. *)
Theorem get_only_deletes_the_expired_key (now : Z) (key : string) c :
  let c' := snd (get now key c) in
  ttlMs c' = ttlMs c
  ∧ (c' = c
     ∨ cache c' = delete key (cache c)
       ∧ fst (get now key c) = None
       ∧ ∃ e, cache c !! key = Some e ∧ expiresAt e < now)
  ∧ (∀ k, k ≠ key → cache c' !! k = cache c !! k)
  ∧ (size c' ≤ size c)%nat.
Proof.
  cbn zeta. unfold get, getWithMetadata, size.
  destruct (cache c !! key) as [e |] eqn:He.
  - destruct (Z.ltb_spec (expiresAt e) now) as [Hexp | Hlive]; cbn [fst snd cache ttlMs].
    + split; [reflexivity |]. split; [right; eauto |].
      split; [intros k Hk; apply lookup_delete_ne; congruence |].
      rewrite map_size_delete, He. lia.
    + destruct c; cbn. auto.
  - cbn. destruct c; cbn. auto.
Qed.

End TTLCache.

(** C10. [size()] is the number of stored entries, live and expired alike:
    at any time it is the number of keys [get] would answer for plus the
    number of expired entries not yet evicted. One write into a cache with
    TTL 60000 ms, looked at 60001 ms later without any access in between,
    gives size 1 with no key for which [get] returns a value. *)
Theorem size_counts_expired_entries :
  (∀ (T : Type) (c : TTLCache T) (now : Z),
      size c = (liveKeys now c + expiredKeys now c)%nat)
  ∧ (let c := set 0 "acme/app#7" tt (new 60000) in
     size c = 1%nat ∧ liveKeys 60001 c = 0%nat ∧ fst (get 60001 "acme/app#7" c) = None)
  ∧ (∃ (c : TTLCache unit) (now : Z), (liveKeys now c < size c)%nat).
Proof.
  split; [intros T c now; apply size_live_plus_expired |].
  assert (let c := set 0 "acme/app#7" tt (new 60000) in
          size c = 1%nat ∧ liveKeys 60001 c = 0%nat ∧ fst (get 60001 "acme/app#7" c) = None)
    as Hex by (vm_compute; auto).
  split; [exact Hex |].
  exists (set 0 "acme/app#7" tt (new 60000)), 60001.
  cbn zeta in Hex. destruct Hex as (-> & -> & _). lia.
Qed.

Lemma set_get_round_trip_witness :
  get 30000 "acme/app#7" (set 0 "acme/app#7" tt (new 60000))
  = (Some tt, set 0 "acme/app#7" tt (new 60000))
  ∧ ∀ k, k ≠ "acme/app#7"%string →
         fst (get 30000 k (set 0 "acme/app#7" tt (new 60000)))
         = fst (get 30000 k (new 60000)).
Proof.
  apply (set_get_round_trip 0 30000 "acme/app#7" tt (new 60000)). cbn. lia.
Defined.

(** *** Cache keys *)

(** A string is cut at the first occurrence of a separator in one way only. *)
Lemma cut_at_separator_unique (sep : ascii) (a1 : string) :
  ∀ a2 b1 b2,
    occursIn sep a1 = false → occursIn sep a2 = false →
    a1 +:+ String sep b1 = a2 +:+ String sep b2 →
    a1 = a2 ∧ b1 = b2.
Proof.
  induction a1 as [| c a1 IH]; intros [| c2 a2] b1 b2 H1 H2 Heq; cbn in *.
  - injection Heq as ->. auto.
  - injection Heq as <- _. rewrite Ascii.eqb_refl in H2. discriminate.
  - injection Heq as -> _. rewrite Ascii.eqb_refl in H1. discriminate.
  - injection Heq as -> Heq.
    apply orb_false_iff in H1 as [_ H1]. apply orb_false_iff in H2 as [_ H2].
    destruct (IH a2 b1 b2 H1 H2 Heq) as [-> ->]. auto.
Qed.

(** X4. Cache keys do not collide: for owners without a slash and
    repository names without a hash sign, two pull requests have the same
    key only if owner, repository and number are all the same. *)
Theorem prCacheKey_injective (owner1 repo1 owner2 repo2 : string) (number1 number2 : Z) :
  occursIn "/" owner1 = false → occursIn "/" owner2 = false →
  occursIn "#" repo1 = false → occursIn "#" repo2 = false →
  prCacheKey owner1 repo1 number1 = prCacheKey owner2 repo2 number2 →
  owner1 = owner2 ∧ repo1 = repo2 ∧ number1 = number2.
Proof.
  intros Ho1 Ho2 Hr1 Hr2 Heq. unfold prCacheKey in Heq.
  destruct (cut_at_separator_unique "/" owner1 owner2 _ _ Ho1 Ho2 Heq) as [-> Hrest].
  destruct (cut_at_separator_unique "#" repo1 repo2 _ _ Hr1 Hr2 Hrest) as [-> Hnum].
  apply (inj pretty) in Hnum. auto.
Qed.

Lemma prCacheKey_injective_witness :
  "acme"%string = "acme"%string ∧ "app"%string = "app"%string ∧ 7 = 7.
Proof.
  apply (prCacheKey_injective "acme" "app" "acme" "app" 7 7); reflexivity.
Defined.

(** Without that restriction keys can collide. *)
Example prCacheKey_collision :
  prCacheKey "acme/tools" "app" 7 = prCacheKey "acme" "tools/app" 7.
Proof. reflexivity. Qed.

End CacheFacts.

(** ** The enrichment fan-out *)

Module EnrichmentFacts.
Import Enrichment.

Section FanOut.
Context {V : Type}.
Implicit Types (settled : list (SubFetch V)) (f : SubFetch V).

Definition mergedFields settled : gmap string V := fold_left applyResult settled ∅.

Lemma mergedFields_snoc settled f :
  mergedFields (settled ++ [f]) = applyResult (mergedFields settled) f.
Proof. unfold mergedFields. apply fold_left_app. Qed.

Lemma failedCount_snoc settled f :
  failedCount (settled ++ [f])
  = (failedCount settled + if isRejected f then 1 else 0)%nat.
Proof.
  unfold failedCount. rewrite List.filter_app, length_app. cbn.
  destruct (isRejected f); reflexivity.
Qed.

Lemma failedCount_le settled : (failedCount settled ≤ length settled)%nat.
Proof. apply List.filter_length_le. Qed.

(** With distinct field names, the merged output holds exactly the fulfilled
    results, one field each. *)
Lemma mergedFields_spec settled :
  NoDup (map fst settled) →
  (∀ name v, mergedFields settled !! name = Some v ↔ (name, Fulfilled v) ∈ settled)
  ∧ base.size (mergedFields settled) = (length settled - failedCount settled)%nat.
Proof.
  induction settled as [| f settled IH] using rev_ind; intros Hnames.
  - split; [| reflexivity]. intros name v. unfold mergedFields. cbn.
    rewrite lookup_empty, elem_of_nil. split; [discriminate | tauto].
  - rewrite map_app in Hnames. apply NoDup_app in Hnames as (Hnd & Hfresh & _).
    destruct (IH Hnd) as [IHlookup IHsize].
    assert (∀ r, (fst f, r) ∉ settled) as Hnew.
    { intros r Hin. apply (Hfresh (fst f)).
      - apply list_elem_of_fmap. exists (fst f, r). auto.
      - cbn. left. }
    rewrite mergedFields_snoc, failedCount_snoc, length_app. cbn [length].
    pose proof (failedCount_le settled) as Hle.
    destruct f as [fname [value | reason]]; unfold applyResult, isRejected; cbn [fst snd] in *.
    + split.
      * intros name v. rewrite elem_of_app, list_elem_of_singleton, lookup_insert_Some, IHlookup.
        split.
        -- intros [[<- <-] | [_ Hin]]; auto.
        -- intros [Hin | [= -> ->]]; [| auto].
           right. split; [| exact Hin]. intros <-. exact (Hnew _ Hin).
      * rewrite map_size_insert_None; [lia |].
        destruct (mergedFields settled !! fname) as [v |] eqn:Hv; [| reflexivity].
        apply IHlookup in Hv. destruct (Hnew _ Hv).
    + split; [| lia].
      intros name v. rewrite elem_of_app, list_elem_of_singleton, IHlookup.
      split; [auto |]. intros [Hin | [=]]. exact Hin.
Qed.

(** The tag compares twice the number of failures with the number of
    sub-fetches. *)
Lemma rateLimited_spec settled :
  rateLimited (enrich settled) = true
  ↔ settled ≠ [] ∧ (length settled ≤ 2 * failedCount settled)%nat.
Proof.
  unfold enrich, failedFraction, Qle_bool. cbn [rateLimited Qnum Qden].
  rewrite Z.leb_le.
  destruct settled as [| f rest].
  - cbn. split; [lia | intros [[] _]; reflexivity].
  - assert (Z.pos (Pos.of_nat (length (f :: rest))) = Z.of_nat (length (f :: rest))) as ->.
    { cbn [length]. rewrite <- Pos.of_nat_succ. lia. }
    split; [intros H; split; [discriminate | lia] | intros [_ H]; lia].
Qed.

(** C9. Every settled sub-fetch is looked at, none after a failure is
    skipped: with distinct field names, the output holds exactly the fields
    of the fulfilled sub-fetches and leaves out the rejected ones. The
    result is tagged rate limited, with the blocker message, exactly when at
    least half of the sub-fetches failed. With six sub-fetches, three
    failures give a tagged result with three fields, and one failure gives
    an untagged result with five. *)
Theorem enrich_fan_out settled :
  NoDup (map fst settled) →
  (∀ name v, fields (enrich settled) !! name = Some v ↔ (name, Fulfilled v) ∈ settled)
  ∧ base.size (fields (enrich settled)) = (length settled - failedCount settled)%nat
  ∧ (rateLimited (enrich settled) = true
     ↔ settled ≠ [] ∧ (1 # 2 <= failedFraction settled)%Q)
  ∧ blockers (enrich settled)
    = (if rateLimited (enrich settled)
       then ["API rate limited or unavailable"%string] else [])
  ∧ (length settled = 6%nat → failedCount settled = 3%nat →
     rateLimited (enrich settled) = true ∧ base.size (fields (enrich settled)) = 3%nat)
  ∧ (length settled = 6%nat → failedCount settled = 1%nat →
     rateLimited (enrich settled) = false ∧ base.size (fields (enrich settled)) = 5%nat).
Proof.
  intros Hnames. destruct (mergedFields_spec settled Hnames) as [Hlookup Hsize].
  change (fields (enrich settled)) with (mergedFields settled).
  split; [exact Hlookup |]. split; [exact Hsize |].
  split.
  { unfold enrich. cbn [rateLimited]. rewrite Qle_bool_iff.
    split; [intros H; split; [| exact H] | intros [_ H]; exact H].
    intros ->. vm_compute in H. apply H. reflexivity. }
  split; [reflexivity |].
  split; intros Hlen Hfailed; rewrite Hsize, Hlen, Hfailed; (split; [| reflexivity]).
  - apply rateLimited_spec. split; [intros ->; discriminate | lia].
  - apply not_true_is_false. rewrite rateLimited_spec. lia.
Qed.

End FanOut.

(** The six sub-fetches of [enrichSessionPR], three of them rejected. *)
Definition threeOfSixFail : list (SubFetch string) :=
  [("getPRSummary", Fulfilled "open"); ("getCIChecks", Rejected "rate limited");
   ("getCISummary", Fulfilled "passing"); ("getReviewDecision", Rejected "rate limited");
   ("getMergeability", Fulfilled "mergeable"); ("getPendingComments", Rejected "rate limited")
  ]%string.

Lemma enrich_fan_out_witness :
  (∀ name v, fields (enrich threeOfSixFail) !! name = Some v
             ↔ (name, Fulfilled v) ∈ threeOfSixFail)
  ∧ base.size (fields (enrich threeOfSixFail))
    = (length threeOfSixFail - failedCount threeOfSixFail)%nat
  ∧ (rateLimited (enrich threeOfSixFail) = true
     ↔ threeOfSixFail ≠ [] ∧ (1 # 2 <= failedFraction threeOfSixFail)%Q)
  ∧ blockers (enrich threeOfSixFail)
    = (if rateLimited (enrich threeOfSixFail)
       then ["API rate limited or unavailable"%string] else [])
  ∧ (length threeOfSixFail = 6%nat → failedCount threeOfSixFail = 3%nat →
     rateLimited (enrich threeOfSixFail) = true
     ∧ base.size (fields (enrich threeOfSixFail)) = 3%nat)
  ∧ (length threeOfSixFail = 6%nat → failedCount threeOfSixFail = 1%nat →
     rateLimited (enrich threeOfSixFail) = false
     ∧ base.size (fields (enrich threeOfSixFail)) = 5%nat).
Proof.
  apply (enrich_fan_out threeOfSixFail).
  apply (bool_decide_unpack _). vm_compute. exact I.
Defined.

Example enrich_three_of_six :
  rateLimited (enrich threeOfSixFail) = true
  ∧ blockers (enrich threeOfSixFail) = ["API rate limited or unavailable"%string]
  ∧ dom (fields (enrich threeOfSixFail))
    = ({["getPRSummary"; "getCISummary"; "getMergeability"]} : gset string).
Proof. repeat split; vm_compute; reflexivity. Qed.

Example enrich_one_of_six :
  let settled : list (SubFetch string) :=
    [("getPRSummary", Fulfilled "open"); ("getCIChecks", Fulfilled "2 checks");
     ("getCISummary", Rejected "timeout"); ("getReviewDecision", Fulfilled "approved");
     ("getMergeability", Fulfilled "mergeable"); ("getPendingComments", Fulfilled "none")
    ]%string in
  rateLimited (enrich settled) = false
  ∧ blockers (enrich settled) = []
  ∧ base.size (fields (enrich settled)) = 5%nat
  ∧ fields (enrich settled) !! "getCISummary" = None.
Proof. vm_compute. auto. Qed.

End EnrichmentFacts.
